(** * Squarespace layout-slideshow: the slide-index state machine

    A shallow embedding of [src/Slideshow.js] (class [Slideshow]) and the
    properties its specification states about it.

    The controller is a JavaScript object living in a page: it keeps
    references to DOM nodes, owns two [setTimeout] handles and registers
    event listeners.  The embedding keeps those three things apart:

    - [Slideshow] is the object ([this]): its fields, with [undefined]
      written out where the constructor leaves a field unset;
    - [Page] is what the object shares with the rest of the page: the class
      lists of the DOM nodes (a store indexed by node, so that two arrays
      holding the same node see the same class list), the pending timers
      and the clock, the registered listeners and the viewport;
    - methods are computations in a state-and-exception monad [M]: a method
      either completes normally or throws, and in both cases leaves a state
      behind.

    Indices are integers ([Z]): the index is documented as the position of a
    slide, and every caller inside the class passes an integer. *)

From Stdlib Require Import ZArith Lia.
From stdpp Require Import base option list strings gmap.

Local Open Scope Z_scope.

(** ** Values *)

(** A field holding the result of [setTimeout]: unset ([undefined]), reset
    by [stopAutoplay] ([null]), or a timer id.  Timer ids are integers
    greater than zero, hence truthy. *)
Inductive TimerHandle :=
| HUndefined
| HNull
| HTimer (id : positive).

Definition truthy_handle (h : TimerHandle) : bool :=
  match h with
  | HTimer _ => true
  | _ => false
  end.

(** A boolean field that the constructor does not initialise is [None]
    ([undefined]), which is falsy. *)
Definition truthy_flag (f : option bool) : bool := default false f.

(** [if (n)] on an optional number: [undefined] and [0] are falsy. *)
Definition truthy_number (n : option Z) : bool :=
  match n with
  | Some d => negb (d =? 0)
  | None => false
  end.

Inductive JsError :=
| TypeError (what : string)
| NotFoundError.

(** ** Configuration

    [Config] is the object the constructor stores: the caller's config
    merged over [defaultConfig]. *)

Module Autoplay.
Record t := { enabled : bool; delay : option Z }.
End Autoplay.

Module Controls.
Record t := {
  previous : option string;
  next : option string;
  indicators : option string
}.
End Controls.

Record Config := {
  elementSelector : string;
  transitionDuration : option Z;
  loop : bool;
  controls : option Controls.t;
  autoplay : option Autoplay.t
}.

Definition activeClassname : string := "active".

Definition defaultConfig (selector : string) : Config :=
  {| elementSelector := selector;
     transitionDuration := None;
     loop := true;
     controls := None;
     autoplay := Some {| Autoplay.enabled := false; Autoplay.delay := None |} |}.

(** ** Timers and listeners *)

(** The two closures the class passes to [setTimeout]. *)
Inductive TimerCallback :=
| ClearTransition   (* () => { this.isTransitioning = false; } *)
| AutoplayAdvance.  (* () => { this.index++; } *)

Record Timer := {
  timer_id : positive;
  callback : TimerCallback;
  due : Z
}.

Inductive EventTarget :=
| Window
| Node (n : nat).

(** The functions the class binds as listeners. *)
Inductive Listener :=
| OnMouseover
| OnMouseout
| OnClick
| OnKeydown
| OnResize.

(** An entry of [this.eventHandlers]; [bound] identifies the function object
    made by [callback.bind(this)]. *)
Record Handler := {
  node : EventTarget;
  event : string;
  boundCallback : Listener;
  bound : nat
}.

(** ** The object and the page *)

Record Slideshow := {
  rootNode : nat;
  config : Config;
  _index : Z;
  eventHandlers : list Handler;
  elements : option (list nat);
  indicators : option (list nat);
  isTransitioning : option bool;
  isInteracting : option bool;
  transitionTimeout : TimerHandle;
  autoplayTimeout : TimerHandle;
  styleNode : option nat
}.

Record Page := {
  classList : gmap nat (list string);   (* node -> its class tokens *)
  parentNode : gmap nat nat;            (* node -> its parent, if attached *)
  descendants : list nat;               (* below the root, document order *)
  selectors : gmap nat (list string);   (* node -> selectors it matches *)
  pending : list Timer;
  next_timer : positive;
  clock : Z;
  listeners : list Handler;
  fresh : nat;                          (* next node / function identity *)
  innerHeight : Z;
  boundingTop : Z;
  boundingHeight : Z;
  touch : bool;                         (* 'ontouchstart' in documentElement *)
  console : list string
}.

Record State := { this : Slideshow; page : Page }.

(** Field updates. *)

Definition with__index (v : Z) (o : Slideshow) : Slideshow :=
  {| rootNode := rootNode o; config := config o; _index := v;
     eventHandlers := eventHandlers o; elements := elements o;
     indicators := indicators o; isTransitioning := isTransitioning o;
     isInteracting := isInteracting o;
     transitionTimeout := transitionTimeout o;
     autoplayTimeout := autoplayTimeout o; styleNode := styleNode o |}.

Definition with_eventHandlers (v : list Handler) (o : Slideshow) : Slideshow :=
  {| rootNode := rootNode o; config := config o; _index := _index o;
     eventHandlers := v; elements := elements o;
     indicators := indicators o; isTransitioning := isTransitioning o;
     isInteracting := isInteracting o;
     transitionTimeout := transitionTimeout o;
     autoplayTimeout := autoplayTimeout o; styleNode := styleNode o |}.

Definition with_elements (v : option (list nat)) (o : Slideshow) : Slideshow :=
  {| rootNode := rootNode o; config := config o; _index := _index o;
     eventHandlers := eventHandlers o; elements := v;
     indicators := indicators o; isTransitioning := isTransitioning o;
     isInteracting := isInteracting o;
     transitionTimeout := transitionTimeout o;
     autoplayTimeout := autoplayTimeout o; styleNode := styleNode o |}.

Definition with_indicators (v : option (list nat)) (o : Slideshow) : Slideshow :=
  {| rootNode := rootNode o; config := config o; _index := _index o;
     eventHandlers := eventHandlers o; elements := elements o;
     indicators := v; isTransitioning := isTransitioning o;
     isInteracting := isInteracting o;
     transitionTimeout := transitionTimeout o;
     autoplayTimeout := autoplayTimeout o; styleNode := styleNode o |}.

Definition with_isTransitioning (v : option bool) (o : Slideshow) : Slideshow :=
  {| rootNode := rootNode o; config := config o; _index := _index o;
     eventHandlers := eventHandlers o; elements := elements o;
     indicators := indicators o; isTransitioning := v;
     isInteracting := isInteracting o;
     transitionTimeout := transitionTimeout o;
     autoplayTimeout := autoplayTimeout o; styleNode := styleNode o |}.

Definition with_isInteracting (v : option bool) (o : Slideshow) : Slideshow :=
  {| rootNode := rootNode o; config := config o; _index := _index o;
     eventHandlers := eventHandlers o; elements := elements o;
     indicators := indicators o; isTransitioning := isTransitioning o;
     isInteracting := v;
     transitionTimeout := transitionTimeout o;
     autoplayTimeout := autoplayTimeout o; styleNode := styleNode o |}.

Definition with_transitionTimeout (v : TimerHandle) (o : Slideshow) : Slideshow :=
  {| rootNode := rootNode o; config := config o; _index := _index o;
     eventHandlers := eventHandlers o; elements := elements o;
     indicators := indicators o; isTransitioning := isTransitioning o;
     isInteracting := isInteracting o;
     transitionTimeout := v;
     autoplayTimeout := autoplayTimeout o; styleNode := styleNode o |}.

Definition with_autoplayTimeout (v : TimerHandle) (o : Slideshow) : Slideshow :=
  {| rootNode := rootNode o; config := config o; _index := _index o;
     eventHandlers := eventHandlers o; elements := elements o;
     indicators := indicators o; isTransitioning := isTransitioning o;
     isInteracting := isInteracting o;
     transitionTimeout := transitionTimeout o;
     autoplayTimeout := v; styleNode := styleNode o |}.

Definition with_styleNode (v : option nat) (o : Slideshow) : Slideshow :=
  {| rootNode := rootNode o; config := config o; _index := _index o;
     eventHandlers := eventHandlers o; elements := elements o;
     indicators := indicators o; isTransitioning := isTransitioning o;
     isInteracting := isInteracting o;
     transitionTimeout := transitionTimeout o;
     autoplayTimeout := autoplayTimeout o; styleNode := v |}.

Definition with_classList (v : gmap nat (list string)) (p : Page) : Page :=
  {| classList := v; parentNode := parentNode p;
     descendants := descendants p; selectors := selectors p;
     pending := pending p; next_timer := next_timer p; clock := clock p;
     listeners := listeners p; fresh := fresh p;
     innerHeight := innerHeight p; boundingTop := boundingTop p;
     boundingHeight := boundingHeight p; touch := touch p;
     console := console p |}.

Definition with_tree (par : gmap nat nat) (order : list nat) (p : Page) : Page :=
  {| classList := classList p; parentNode := par;
     descendants := order; selectors := selectors p;
     pending := pending p; next_timer := next_timer p; clock := clock p;
     listeners := listeners p; fresh := fresh p;
     innerHeight := innerHeight p; boundingTop := boundingTop p;
     boundingHeight := boundingHeight p; touch := touch p;
     console := console p |}.

Definition with_timers (ts : list Timer) (nxt : positive) (p : Page) : Page :=
  {| classList := classList p; parentNode := parentNode p;
     descendants := descendants p; selectors := selectors p;
     pending := ts; next_timer := nxt; clock := clock p;
     listeners := listeners p; fresh := fresh p;
     innerHeight := innerHeight p; boundingTop := boundingTop p;
     boundingHeight := boundingHeight p; touch := touch p;
     console := console p |}.

Definition with_clock (t : Z) (p : Page) : Page :=
  {| classList := classList p; parentNode := parentNode p;
     descendants := descendants p; selectors := selectors p;
     pending := pending p; next_timer := next_timer p; clock := t;
     listeners := listeners p; fresh := fresh p;
     innerHeight := innerHeight p; boundingTop := boundingTop p;
     boundingHeight := boundingHeight p; touch := touch p;
     console := console p |}.

Definition with_listeners (v : list Handler) (p : Page) : Page :=
  {| classList := classList p; parentNode := parentNode p;
     descendants := descendants p; selectors := selectors p;
     pending := pending p; next_timer := next_timer p; clock := clock p;
     listeners := v; fresh := fresh p;
     innerHeight := innerHeight p; boundingTop := boundingTop p;
     boundingHeight := boundingHeight p; touch := touch p;
     console := console p |}.

Definition with_fresh (v : nat) (p : Page) : Page :=
  {| classList := classList p; parentNode := parentNode p;
     descendants := descendants p; selectors := selectors p;
     pending := pending p; next_timer := next_timer p; clock := clock p;
     listeners := listeners p; fresh := v;
     innerHeight := innerHeight p; boundingTop := boundingTop p;
     boundingHeight := boundingHeight p; touch := touch p;
     console := console p |}.

Definition with_console (v : list string) (p : Page) : Page :=
  {| classList := classList p; parentNode := parentNode p;
     descendants := descendants p; selectors := selectors p;
     pending := pending p; next_timer := next_timer p; clock := clock p;
     listeners := listeners p; fresh := fresh p;
     innerHeight := innerHeight p; boundingTop := boundingTop p;
     boundingHeight := boundingHeight p; touch := touch p;
     console := v |}.

(** ** The monad of methods *)

Inductive Completion (A : Type) :=
| Normal (a : A) (s : State)
| Throw (e : JsError) (s : State).
Arguments Normal {A} a s.
Arguments Throw {A} e s.

Definition M (A : Type) : Type := State → Completion A.

#[global] Instance M_ret : MRet M := λ A a s, Normal a s.
#[global] Instance M_bind : MBind M := λ A B f m s,
  match m s with
  | Normal a s' => f a s'
  | Throw e s' => Throw e s'
  end.

Definition throw {A} (e : JsError) : M A := λ s, Throw e s.
Definition read {A} (f : State → A) : M A := λ s, Normal (f s) s.
Definition update_this (f : Slideshow → Slideshow) : M unit :=
  λ s, Normal tt {| this := f (this s); page := page s |}.
Definition update_page (f : Page → Page) : M unit :=
  λ s, Normal tt {| this := this s; page := f (page s) |}.

(** The state a computation leaves behind, however it completes. *)
Definition final {A} (c : Completion A) : State :=
  match c with
  | Normal _ s => s
  | Throw _ s => s
  end.

(** [array.forEach((x, i) => ...)]. *)
Fixpoint forEach_from {A} (i : nat) (l : list A) (f : A → nat → M unit) : M unit :=
  match l with
  | [] => mret tt
  | x :: l' => f x i ;; forEach_from (S i) l' f
  end.

Definition forEach {A} (l : list A) (f : A → nat → M unit) : M unit :=
  forEach_from 0 l f.

(** ** Platform operations *)

(** [DOMTokenList.toggle(token, force)] on an ordered set of tokens. *)
Definition toggle (token : string) (force : bool) (l : list string) : list string :=
  if force
  then (if bool_decide (token ∈ l) then l else l ++ [token])
  else filter (λ c, c ≠ token) l.

Definition tokens (cl : gmap nat (list string)) (n : nat) : list string :=
  default [] (cl !! n).

Definition classes (p : Page) (n : nat) : list string :=
  tokens (classList p) n.

Definition classList_toggle (n : nat) (token : string) (force : bool) : M unit :=
  update_page (λ p, with_classList (<[n := toggle token force (classes p n)]> (classList p)) p).

Definition classList_add (n : nat) (token : string) : M unit :=
  classList_toggle n token true.

Definition classList_remove (n : nat) (token : string) : M unit :=
  classList_toggle n token false.

Definition has_class (token : string) (s : State) (n : nat) : bool :=
  bool_decide (token ∈ classes (page s) n).

(** [setTimeout(cb, ms)]: a fresh id; a negative delay counts as zero. *)
Definition setTimeout (cb : TimerCallback) (ms : Z) : M positive :=
  λ s, let p := page s in
       let id := next_timer p in
       let t := {| timer_id := id; callback := cb; due := clock p + Z.max 0 ms |} in
       Normal id {| this := this s;
                    page := with_timers (pending p ++ [t]) (Pos.succ id) p |}.

(** [clearTimeout(h)]: nothing happens unless [h] is the id of a pending
    timer. *)
Definition clearTimeout (h : TimerHandle) : M unit :=
  match h with
  | HTimer id =>
      update_page (λ p, with_timers (filter (λ t, timer_id t ≠ id) (pending p))
                                    (next_timer p) p)
  | _ => mret tt
  end.

(** [el.matches(sel)]. *)
Definition matches (p : Page) (n : nat) (sel : string) : bool :=
  bool_decide (sel ∈ default [] (selectors p !! n)).

(** [rootNode.querySelectorAll(sel)] as an array. *)
Definition querySelectorAll (sel : string) : M (list nat) :=
  read (λ s, filter (λ n, matches (page s) n sel = true) (descendants (page s))).

Definition detach (n : nat) (p : Page) : Page :=
  with_tree (delete n (parentNode p)) (filter (λ m, m ≠ n) (descendants p)) p.

(** [parent.removeChild(child)]: a [NotFoundError] unless [child] is a child
    of [parent]. *)
Definition removeChild (parent child : nat) : M unit :=
  par ← read (λ s, parentNode (page s) !! child);
  if bool_decide (par = Some parent)
  then update_page (detach child)
  else throw NotFoundError.

(** [rootNode.appendChild(child)]: the child becomes the last node below the
    root. *)
Definition appendChild (root child : nat) : M unit :=
  update_page (λ p, let p' := detach child p in
                    with_tree (<[child := root]> (parentNode p'))
                              (descendants p' ++ [child]) p').

(** [document.createElement] and [Function.prototype.bind] make a new
    object; [fresh_identity] names it. *)
Definition fresh_identity : M nat :=
  n ← read (λ s, fresh (page s));
  update_page (with_fresh (S n)) ;;
  mret n.

#[global] Instance EventTarget_eq_dec : EqDecision EventTarget.
Proof. solve_decision. Defined.
#[global] Instance Listener_eq_dec : EqDecision Listener.
Proof. solve_decision. Defined.
#[global] Instance Handler_eq_dec : EqDecision Handler.
Proof. solve_decision. Defined.
#[global] Instance TimerCallback_eq_dec : EqDecision TimerCallback.
Proof. solve_decision. Defined.

Definition addEventListener (h : Handler) : M unit :=
  update_page (λ p, with_listeners (listeners p ++ [h]) p).

Definition removeEventListener (h : Handler) : M unit :=
  update_page (λ p, with_listeners (filter (λ h', h' ≠ h) (listeners p)) p).

Definition console_error (msg : string) : M unit :=
  update_page (λ p, with_console (console p ++ [msg]) p).

(** ** The class [Slideshow] *)

(** [constructor(rootNode, config)], where [cfg] is the merged config that
    the base class stores. *)
Definition new_Slideshow (root : nat) (cfg : Config) (p : Page) : State :=
  {| this := {| rootNode := root; config := cfg; _index := 0;
                eventHandlers := []; elements := None; indicators := None;
                isTransitioning := None; isInteracting := None;
                transitionTimeout := HUndefined;
                autoplayTimeout := HUndefined; styleNode := None |};
     page := p |}.

(** [get index()]. *)
Definition get_index : M Z := read (λ s, _index (this s)).

(** [this.elements] used as an array: before [layout] the field is
    [undefined] and reading [.length] or calling [.forEach] throws. *)
Definition this_elements : M (list nat) :=
  λ s, match elements (this s) with
       | Some l => Normal l s
       | None => Throw (TypeError "this.elements is undefined") s
       end.

Definition this_indicators : M (list nat) :=
  λ s, match indicators (this s) with
       | Some l => Normal l s
       | None => Throw (TypeError "this.indicators is null") s
       end.

(** [setActiveElement(index)]. *)
Definition setActiveElement (index : Z) : M unit :=
  els ← this_elements;
  forEach els (λ el i, classList_toggle el activeClassname (Z.of_nat i =? index)) ;;
  inds ← read (λ s, indicators (this s));
  match inds with
  | None => mret tt
  | Some l =>
      forEach l (λ el i, classList_toggle el activeClassname (Z.of_nat i =? index))
  end.

(** [stopAutoplay()]. *)
Definition stopAutoplay : M unit :=
  h ← read (λ s, autoplayTimeout (this s));
  clearTimeout h ;;
  update_this (with_autoplayTimeout HNull).

(** [this.config.autoplay && this.config.autoplay.enabled]. *)
Definition autoplay_enabled (c : Config) : bool :=
  match autoplay c with
  | Some a => Autoplay.enabled a
  | None => false
  end.

(** [this.config.autoplay.delay || 5000]. *)
Definition autoplay_delay (c : Config) : Z :=
  match autoplay c with
  | Some a => if truthy_number (Autoplay.delay a)
              then default 0 (Autoplay.delay a) else 5000
  | None => 5000
  end.

(** [startAutoplay()]. *)
Definition startAutoplay : M unit :=
  cfg ← read (λ s, config (this s));
  h ← read (λ s, autoplayTimeout (this s));
  if negb (autoplay_enabled cfg) || truthy_handle h
  then mret tt
  else id ← setTimeout AutoplayAdvance (autoplay_delay cfg);
       update_this (with_autoplayTimeout (HTimer id)).

(** [set index], lines 77-83 ("Transition delay"): the lock is set and a
    timer to clear it is scheduled; the handle of an earlier timer is
    overwritten. *)
Definition transition_delay : M unit :=
  cfg ← read (λ s, config (this s));
  if truthy_number (transitionDuration cfg)
  then update_this (with_isTransitioning (Some true)) ;;
       id ← setTimeout ClearTransition (default 0 (transitionDuration cfg));
       update_this (with_transitionTimeout (HTimer id))
  else mret tt.

(** [set index], lines 85-89 ("Autoplay"). *)
Definition restart_autoplay : M unit :=
  inter ← read (λ s, isInteracting (this s));
  if negb (truthy_flag inter)
  then stopAutoplay ;; startAutoplay
  else mret tt.

(** [set index] from line 75 on, once the new index is stored. *)
Definition index_changed : M unit :=
  i ← read (λ s, _index (this s));
  setActiveElement i ;;
  transition_delay ;;
  restart_autoplay.

(** [set index(newIndex)]. *)
Definition set_index (newIndex : Z) : M unit :=
  els ← this_elements;
  cfg ← read (λ s, config (this s));
  let len := Z.of_nat (length els) in
  if newIndex >? len - 1 then
    if negb (loop cfg) then mret tt
    else update_this (with__index 0) ;; index_changed
  else if newIndex <? 0 then
    if negb (loop cfg) then mret tt
    else update_this (with__index (len - 1)) ;; index_changed
  else update_this (with__index newIndex) ;; index_changed.

(** [this.index++] and [this.index--]: the value is the old index. *)
Definition index_increment : M Z :=
  old ← get_index; set_index (old + 1) ;; mret old.

Definition index_decrement : M Z :=
  old ← get_index; set_index (old - 1) ;; mret old.

(** [on(node, event, callback)]. *)
Definition on (target : EventTarget) (ev : string) (cb : Listener) : M unit :=
  b ← fresh_identity;
  let h := {| node := target; event := ev; boundCallback := cb; bound := b |} in
  update_this (λ o, with_eventHandlers (eventHandlers o ++ [h]) o) ;;
  addEventListener h.

(** [setStyles()].  The text of the style node plays no part in the state
    machine and is not recorded. *)
Definition setStyles : M unit :=
  root ← read (λ s, rootNode (this s));
  classList_add root "gallery-root" ;;
  old ← read (λ s, styleNode (this s));
  match old with
  | Some n => removeChild root n
  | None => mret tt
  end ;;
  n ← fresh_identity;
  update_this (with_styleNode (Some n)) ;;
  appendChild root n.

(** [executeCallback(fn)]: [fn] is a function of the page's author, or not a
    function at all. *)
Definition executeCallback (fn : option (M unit)) : M unit :=
  match fn with
  | None => console_error "Callback is not a function"
  | Some f => f
  end.

(** [getElements()]. *)
Definition getElements : M (list nat) :=
  cfg ← read (λ s, config (this s));
  querySelectorAll (elementSelector cfg).

Definition truthy_string (o : option string) : bool :=
  match o with
  | Some s => negb (bool_decide (s = ""))
  | None => false
  end.

(** [getIndicators()]. *)
Definition getIndicators : M (option (list nat)) :=
  cfg ← read (λ s, config (this s));
  match controls cfg with
  | None => mret None
  | Some c =>
      if negb (truthy_string (Controls.indicators c)) then mret None
      else l ← querySelectorAll (default "" (Controls.indicators c)); mret (Some l)
  end.

(** [loadImages()]: the image loader is a collaborator outside the class and
    leaves the controller's state alone. *)
Definition loadImages : M unit :=
  els ← this_elements;
  forEach els (λ _ _, mret tt).

(** The two listeners of [setupAutoplay()]. *)
Definition handleMouseover : M unit :=
  update_this (with_isInteracting (Some true)) ;;
  root ← read (λ s, rootNode (this s));
  classList_add root "interacting" ;;
  stopAutoplay.

Definition handleMouseout (afterInteractionEnd : option (M unit)) : M unit :=
  update_this (with_isInteracting (Some false)) ;;
  root ← read (λ s, rootNode (this s));
  classList_remove root "interacting" ;;
  executeCallback afterInteractionEnd ;;
  startAutoplay.

(** [setupAutoplay()]. *)
Definition setupAutoplay : M unit :=
  cfg ← read (λ s, config (this s));
  if negb (autoplay_enabled cfg) then mret tt
  else
    startAutoplay ;;
    t ← read (λ s, touch (page s));
    if (t : bool) then mret tt
    else
      root ← read (λ s, rootNode (this s));
      on (Node root) "mouseover" OnMouseover ;;
      on (Node root) "mouseout" OnMouseout.

(** ** Events *)

(** A click: its target and the chain of [parentElement]s above the target,
    nearest first; above the last one [parentElement] is [null]. *)
Module MouseEvent.
Record t := { target : nat; above : list nat; defaultPrevented : bool }.
Definition preventDefault (e : t) : t :=
  {| target := target e; above := above e; defaultPrevented := true |}.
End MouseEvent.

Module KeyboardEvent.
Record t := {
  keyCode : Z;
  defaultPrevented : bool;
  propagationStopped : bool
}.
Definition preventDefault (e : t) : t :=
  {| keyCode := keyCode e; defaultPrevented := true;
     propagationStopped := propagationStopped e |}.
Definition stopImmediatePropagation (e : t) : t :=
  {| keyCode := keyCode e; defaultPrevented := defaultPrevented e;
     propagationStopped := true |}.
End KeyboardEvent.

(** [selectors.some((sel) => el.matches(sel))]. *)
Definition match_some (p : Page) (sels : list string) (el : nat) : bool :=
  existsb (matches p el) sels.

(** The loop of [findAncestor]: walk up while the target matches no selector
    and is not the root.  Walking above the last ancestor makes the target
    [null], and matching [null] throws. *)
Fixpoint findAncestor_walk (sels : list string) (target : nat) (above : list nat)
  : M nat :=
  p ← read page;
  root ← read (λ s, rootNode (this s));
  if negb (match_some p sels target) && negb (bool_decide (target = root))
  then match above with
       | [] => throw (TypeError "el is null")
       | parent :: above' => findAncestor_walk sels parent above'
       end
  else mret target.

(** [findAncestor(initialTarget, selectors)]. *)
Definition findAncestor (initialTarget : nat) (above : list nat) (sels : list string)
  : M (option nat) :=
  target ← findAncestor_walk sels initialTarget above;
  root ← read (λ s, rootNode (this s));
  if bool_decide (target = root) then mret None else mret (Some target).

(** [Object.values(this.config.controls)]. *)
Definition Object_values (c : Controls.t) : list string :=
  omap id [Controls.previous c; Controls.next c; Controls.indicators c].

(** [target.matches(sel)] where [sel] may be a missing key: [undefined]
    is read as the selector of that name. *)
Definition matches_key (p : Page) (el : nat) (sel : option string) : bool :=
  matches p el (default "undefined" sel).

(** [handleControlsClick(e)]. *)
Definition handleControlsClick (e : MouseEvent.t) : M MouseEvent.t :=
  lock ← read (λ s, isTransitioning (this s));
  if truthy_flag lock then mret e
  else
    cfg ← read (λ s, config (this s));
    match controls cfg with
    | None => throw (TypeError "Object.values of undefined")
    | Some c =>
        found ← findAncestor (MouseEvent.target e) (MouseEvent.above e) (Object_values c);
        match found with
        | None => mret e
        | Some target =>
            let e' := MouseEvent.preventDefault e in
            p ← read page;
            if matches_key p target (Controls.previous c) then
              index_decrement ;; mret e'
            else if matches_key p target (Controls.next c) then
              index_increment ;; mret e'
            else if matches_key p target (Controls.indicators c) then
              inds ← this_indicators;
              forEach inds (λ el i, if bool_decide (target = el)
                                    then set_index (Z.of_nat i)
                                    else mret tt) ;;
              mret e'
            else mret e'
        end
    end.

(** [setupControls()]. *)
Definition setupControls : M unit :=
  cfg ← read (λ s, config (this s));
  match controls cfg with
  | None => mret tt
  | Some _ =>
      inds ← getIndicators;
      update_this (with_indicators inds) ;;
      root ← read (λ s, rootNode (this s));
      on (Node root) "click" OnClick
  end.

(** [isInView()]. *)
Definition isInView : M bool :=
  p ← read page;
  if (boundingTop p >=? innerHeight p) || (boundingTop p + boundingHeight p <=? 0)
  then mret false
  else mret true.

(** [handleKeydown(e)]: the event as the handler leaves it, and the value
    returned ([None] for [undefined]). *)
Definition handleKeydown (e : KeyboardEvent.t) : M (KeyboardEvent.t * option Z) :=
  lock ← read (λ s, isTransitioning (this s));
  if truthy_flag lock then mret (e, None)
  else
    visible ← isInView;
    if negb visible then mret (e, None)
    else
      let isLeftArrow := KeyboardEvent.keyCode e =? 37 in
      let isRightArrow := KeyboardEvent.keyCode e =? 39 in
      if negb isLeftArrow && negb isRightArrow then mret (e, None)
      else
        let e' := KeyboardEvent.stopImmediatePropagation
                    (KeyboardEvent.preventDefault e) in
        if isRightArrow
        then old ← index_increment; mret (e', Some old)
        else old ← index_decrement; mret (e', Some old).

(** [setupKeydown()]. *)
Definition setupKeydown : M unit := on Window "keydown" OnKeydown.

(** [handleResize()]: reloads the images, then runs [config.afterResize] if
    it is a function. *)
Definition handleResize (afterResize : option (M unit)) : M unit :=
  loadImages ;;
  match afterResize with
  | Some f => f
  | None => mret tt
  end.

(** Modelled from the spec: [beforeLayout], [afterLayout], [beforeDestroy]
    and [afterDestroy] are inherited from the base class of the package
    [@squarespace/layout-base], which is not part of the sources; the
    specification describes them as extension hooks that are no-ops by
    default. *)
Definition beforeLayout : M unit := mret tt.
Definition afterLayout : M unit := mret tt.
Definition beforeDestroy : M unit := mret tt.
Definition afterDestroy : M unit := mret tt.

(** [layout(config)]. *)
Definition layout : M unit :=
  beforeLayout ;;
  setStyles ;;
  els ← getElements;
  update_this (with_elements (Some els)) ;;
  setActiveElement 0 ;;
  loadImages ;;
  setupAutoplay ;;
  setupControls ;;
  setupKeydown ;;
  on Window "resize" OnResize ;;
  afterLayout.

(** [this.styleNode.parentNode.removeChild(this.styleNode)]: reading
    [.parentNode] of [undefined], or [.removeChild] of [null], throws. *)
Definition remove_styleNode : M unit :=
  sn ← read (λ s, styleNode (this s));
  match sn with
  | None => throw (TypeError "this.styleNode is undefined")
  | Some n =>
      par ← read (λ s, parentNode (page s) !! n);
      match par with
      | None => throw (TypeError "this.styleNode.parentNode is null")
      | Some parent => removeChild parent n
      end
  end.

(** [destroy(config)]. *)
Definition destroy : M unit :=
  beforeDestroy ;;
  stopAutoplay ;;
  h ← read (λ s, transitionTimeout (this s));
  clearTimeout h ;;
  hs ← read (λ s, eventHandlers (this s));
  forEach hs (λ handler _, removeEventListener handler) ;;
  update_this (with_eventHandlers []) ;;
  remove_styleNode ;;
  afterDestroy.

(** ** The event loop: time passes, due timers fire *)

Definition elapse (ms : Z) (s : State) : State :=
  {| this := this s;
     page := with_clock (clock (page s) + Z.max 0 ms) (page s) |}.

(** What a timer's closure does when it runs. *)
Definition run_callback (cb : TimerCallback) : M unit :=
  match cb with
  | ClearTransition => update_this (with_isTransitioning (Some false))
  | AutoplayAdvance => index_increment ;; mret tt
  end.

(** The pending timer [id] fires: it leaves the pending set and its closure
    runs.  [None] when no such timer is pending or it is not yet due. *)
Definition fire (id : positive) (s : State) : option (Completion unit) :=
  match list_find (λ t, timer_id t = id) (pending (page s)) with
  | Some (_, t) =>
      if due t <=? clock (page s)
      then Some ((clearTimeout (HTimer id) ;; run_callback (callback t)) s)
      else None
  | None => None
  end.

(** Pending timers of one kind. *)
Definition pending_of (cb : TimerCallback) (s : State) : list Timer :=
  filter (λ t, callback t = cb) (pending (page s)).

(** ** The contract in the words of the specification *)

Inductive Next :=
| REJECT
| Accept (i : Z).

(** "if R > N-1: next = loop ? 0 : REJECT; if R < 0: next = loop ? N-1 :
    REJECT; else: next = R". *)
Definition spec_next (N : Z) (loop_enabled : bool) (R : Z) : Next :=
  if R >? N - 1 then (if loop_enabled then Accept 0 else REJECT)
  else if R <? 0 then (if loop_enabled then Accept (N - 1) else REJECT)
  else Accept R.

(** The wrap-around law: "((R mod N) + N) mod N", with the remainder of
    JavaScript's [%], which takes the sign of the dividend. *)
Definition spec_wrap (N R : Z) : Z := Z.rem (Z.rem R N + N) N.

(** The number of slides. *)
Definition slide_count (s : State) : Z :=
  Z.of_nat (length (default [] (elements (this s)))).

(** The slides, respectively nodes of a list, that carry the active marker. *)
Definition active (s : State) (n : nat) : bool := has_class activeClassname s n.

Definition active_among (s : State) (l : list nat) : list nat :=
  filter (λ n, active s n = true) l.

(** The handles the data model speaks of: no node occurs twice among the
    slides or among the indicators (both arrays come from
    [querySelectorAll]), and slides and indicators are different elements;
    a node that is nevertheless both must have the same position in both
    arrays. *)
Definition distinct_handles (s : State) : Prop :=
  ∀ els, elements (this s) = Some els →
    NoDup els ∧
    ∀ inds, indicators (this s) = Some inds →
      NoDup inds ∧
      ∀ i j n, els !! i = Some n → inds !! j = Some n → i = j.

(** Timer ids are handed out in increasing order: every pending timer and
    every handle the object holds is older than the next id, and no two
    pending timers share an id. *)
Definition allocated (h : TimerHandle) (nxt : positive) : Prop :=
  match h with
  | HTimer id => (id < nxt)%positive
  | _ => True
  end.

Definition timers_allocated (s : State) : Prop :=
  NoDup (timer_id <$> pending (page s)) ∧
  Forall (λ t, (timer_id t < next_timer (page s))%positive) (pending (page s)) ∧
  allocated (autoplayTimeout (this s)) (next_timer (page s)) ∧
  allocated (transitionTimeout (this s)) (next_timer (page s)).

(** Every pending autoplay timer is the one [this.autoplayTimeout] names. *)
Definition autoplay_tracked (s : State) : Prop :=
  Forall (λ t, callback t = AutoplayAdvance →
               autoplayTimeout (this s) = HTimer (timer_id t))
         (pending (page s)).

#[global] Instance TimerHandle_eq_dec : EqDecision TimerHandle.
Proof. solve_decision. Defined.
#[global] Instance allocated_dec h nxt : Decision (allocated h nxt).
Proof. destruct h; simpl; apply _. Defined.
#[global] Instance timers_allocated_dec s : Decision (timers_allocated s).
Proof. unfold timers_allocated. apply _. Defined.
#[global] Instance autoplay_tracked_dec s : Decision (autoplay_tracked s).
Proof. unfold autoplay_tracked. apply _. Defined.

(** ** The effects of the methods as functions on states

    Each method below completes normally and leaves the state given here;
    the lemmas [*_run] say so. *)

Definition put_classList (cl : gmap nat (list string)) (s : State) : State :=
  {| this := this s; page := with_classList cl (page s) |}.

(** One [forEach] pass of [setActiveElement] over [l], whose first element
    has position [k]. *)
Fixpoint mark_from (k : nat) (l : list nat) (index : Z)
    (cl : gmap nat (list string)) : gmap nat (list string) :=
  match l with
  | [] => cl
  | el :: l' =>
      mark_from (S k) l' index
        (<[el := toggle activeClassname (Z.of_nat k =? index) (tokens cl el)]> cl)
  end.

Definition marked (index : Z) (s : State) : State :=
  let cl := mark_from 0 (default [] (elements (this s))) index
                      (classList (page s)) in
  put_classList (match indicators (this s) with
                 | Some l => mark_from 0 l index cl
                 | None => cl
                 end) s.

Definition locked (s : State) : State :=
  let d := transitionDuration (config (this s)) in
  let p := page s in
  if truthy_number d then
    {| this := with_transitionTimeout (HTimer (next_timer p))
                 (with_isTransitioning (Some true) (this s));
       page := with_timers
                 (pending p ++ [{| timer_id := next_timer p;
                                   callback := ClearTransition;
                                   due := clock p + Z.max 0 (default 0 d) |}])
                 (Pos.succ (next_timer p)) p |}
  else s.

(** The pending timers once the timer that [h] names, if any, is
    cancelled. *)
Definition cancel (h : TimerHandle) (p : Page) : Page :=
  match h with
  | HTimer id =>
      with_timers (filter (λ t, timer_id t ≠ id) (pending p)) (next_timer p) p
  | _ => p
  end.

Definition stopped (s : State) : State :=
  {| this := with_autoplayTimeout HNull (this s);
     page := cancel (autoplayTimeout (this s)) (page s) |}.

Definition started (s : State) : State :=
  let c := config (this s) in
  let p := page s in
  if negb (autoplay_enabled c) || truthy_handle (autoplayTimeout (this s)) then s
  else
    {| this := with_autoplayTimeout (HTimer (next_timer p)) (this s);
       page := with_timers
                 (pending p ++ [{| timer_id := next_timer p;
                                   callback := AutoplayAdvance;
                                   due := clock p + Z.max 0 (autoplay_delay c) |}])
                 (Pos.succ (next_timer p)) p |}.

Definition restarted (s : State) : State :=
  if negb (truthy_flag (isInteracting (this s))) then started (stopped s) else s.

Definition stored (i : Z) (s : State) : State :=
  {| this := with__index i (this s); page := page s |}.

(** An accepted request that stores [i]. *)
Definition accepted (i : Z) (s : State) : State :=
  restarted (locked (marked i (stored i s))).

(** The listeners left after the [forEach] of [destroy]. *)
Definition unlisten (hs : list Handler) (s : State) : State :=
  {| this := this s;
     page := with_listeners
               (foldl (λ ls h, filter (λ h', h' ≠ h) ls) (listeners (page s)) hs)
               (page s) |}.

(** What [destroy()] leaves of a controller whose style node is [n]. *)
Definition destroyed (n : nat) (s : State) : State :=
  let o := this s in
  let p := cancel (transitionTimeout o) (cancel (autoplayTimeout o) (page s)) in
  {| this := with_eventHandlers [] (with_autoplayTimeout HNull o);
     page := detach n (page (unlisten (eventHandlers o)
                                      {| this := o; page := p |})) |}.

(** ** Galleries for the scenarios

    The root is node 0; the slides are the nodes 1..n and match [.slide];
    the indicators are the nodes 101..100+n and match [.dot]; the previous
    and next controls are the nodes 201 and 202. *)

Definition gallery_page (n : nat) : Page :=
  {| classList := ∅;
     parentNode := ∅;
     descendants := seq 1 n ++ seq 101 n ++ [201; 202]%nat;
     selectors :=
       list_to_map (((λ i, (i, [".slide"])) <$> seq 1 n)
                    ++ ((λ i, (i, [".dot"])) <$> seq 101 n)
                    ++ [(201, [".prev"]); (202, [".next"])]%nat);
     pending := [];
     next_timer := 1%positive;
     clock := 0;
     listeners := [];
     fresh := 300%nat;
     innerHeight := 800;
     boundingTop := 100;
     boundingHeight := 400;
     touch := false;
     console := [] |}.

Definition gallery_controls : Controls.t :=
  {| Controls.previous := Some ".prev";
     Controls.next := Some ".next";
     Controls.indicators := Some ".dot" |}.

Definition gallery_config (looping : bool) (duration : option Z)
    (auto : bool) : Config :=
  {| elementSelector := ".slide";
     transitionDuration := duration;
     loop := looping;
     controls := Some gallery_controls;
     autoplay := Some {| Autoplay.enabled := auto;
                         Autoplay.delay := Some 1000 |} |}.

(** A controller that was constructed but never laid out. *)
Definition fresh_gallery (n : nat) (cfg : Config) : State :=
  new_Slideshow 0 cfg (gallery_page n).

(** The controller after [layout()]. *)
Definition gallery (n : nat) (cfg : Config) : State :=
  final (layout (fresh_gallery n cfg)).

(** A sufficient check for [distinct_handles]: no repetition, and no slide
    among the indicators. *)
Definition distinct_handlesb (s : State) : bool :=
  match elements (this s) with
  | None => true
  | Some els =>
      bool_decide (NoDup els) &&
      match indicators (this s) with
      | None => true
      | Some inds =>
          bool_decide (NoDup inds) &&
          forallb (λ n, negb (bool_decide (n ∈ inds))) els
      end
  end.

(** ** The life of a controller

    What can happen to a controller, from the page's side: its methods are
    called, the listeners it registered receive events, time passes and due
    timers fire.  The callbacks of the page's author ([afterInteractionEnd],
    [afterResize]) are left out. *)
Inductive Call :=
| CallLayout
| CallDestroy
| CallSetIndex (newIndex : Z)
| CallStartAutoplay
| CallStopAutoplay
| Click (e : MouseEvent.t)
| Keydown (e : KeyboardEvent.t)
| Mouseover
| Mouseout
| Resize
| Fire (id : positive)
| Elapse (ms : Z).

Definition perform (c : Call) (s : State) : State :=
  match c with
  | CallLayout => final (layout s)
  | CallDestroy => final (destroy s)
  | CallSetIndex newIndex => final (set_index newIndex s)
  | CallStartAutoplay => final (startAutoplay s)
  | CallStopAutoplay => final (stopAutoplay s)
  | Click e => final (handleControlsClick e s)
  | Keydown e => final (handleKeydown e s)
  | Mouseover => final (handleMouseover s)
  | Mouseout => final (handleMouseout None s)
  | Resize => final (handleResize None s)
  | Fire id => from_option final s (fire id s)
  | Elapse ms => elapse ms s
  end.

(** The states a controller can be in, starting from its construction in a
    page where no timer is pending. *)
Inductive reachable : State → Prop :=
| reachable_new root cfg p :
    pending p = [] → reachable (new_Slideshow root cfg p)
| reachable_step s c :
    reachable s → reachable (perform c s).

(** The invariant of the timers. *)
Definition timer_inv (s : State) : Prop :=
  timers_allocated s ∧ autoplay_tracked s.

(** The style node [n] is attached below [parent]. *)
Definition styled (n parent : nat) (s : State) : Prop :=
  styleNode (this s) = Some n ∧ parentNode (page s) !! n = Some parent.

(** A computation preserves an invariant, whether it completes or throws. *)
Definition preserves (I : State → Prop) {A} (m : M A) : Prop :=
  ∀ s, I s → I (final (m s)).

(** The stored index names one of the slides [els]. *)
Definition in_bounds (els : list nat) (s : State) : Prop :=
  elements (this s) = Some els ∧
  0 ≤ _index (this s) ≤ Z.of_nat (length els) - 1.

(** What [destroy()] has done when it reaches its last statement, the
    removal of the style node. *)
Definition cleaned (s : State) : State :=
  let o := this s in
  let p := cancel (transitionTimeout o) (cancel (autoplayTimeout o) (page s)) in
  {| this := with_eventHandlers [] (with_autoplayTimeout HNull o);
     page := page (unlisten (eventHandlers o) {| this := o; page := p |}) |}.

(** A listener as the page sees it: where it is registered, for which
    event, and which function of the class it is. *)
Definition signature (h : Handler) : EventTarget * string * Listener :=
  (node h, event h, boundCallback h).

(** The listeners one run of [layout()] registers, in order: the two hover
    listeners of [setupAutoplay()] when autoplay is enabled and the device
    has no touch events, the click listener of [setupControls()] when
    controls are configured, then the keydown and resize listeners. *)
Definition layout_listeners (cfg : Config) (tch : bool) (root : nat)
  : list (EventTarget * string * Listener) :=
  (if autoplay_enabled cfg && negb tch
   then [(Node root, "mouseover", OnMouseover);
         (Node root, "mouseout", OnMouseout)]
   else []) ++
  match controls cfg with
  | Some _ => [(Node root, "click", OnClick)]
  | None => []
  end ++
  [(Window, "keydown", OnKeydown); (Window, "resize", OnResize)].

(** [setStyles()] can replace the style node: there is none yet, or it is
    still a child of the root. *)
Definition style_ok (s : State) : Prop :=
  styleNode (this s) = None ∨ ∃ n, styled n (rootNode (this s)) s.

(** A computation that completes from every state satisfying [P], in a
    state satisfying [Q]. *)
Definition hoare {A} (P : State → Prop) (m : M A) (Q : A → State → Prop)
  : Prop :=
  ∀ s, P s → ∃ a s', m s = Normal a s' ∧ Q a s'.

(** While [layout()] runs: the fields it only reads, and the listeners
    [new] registered so far, with signatures [sigs], after those that were
    there before. *)
Definition registering (cfg : Config) (tch : bool) (root : nat) (i : Z)
    (hs ls : list Handler) (sigs : list (EventTarget * string * Listener))
    (s : State) : Prop :=
  config (this s) = cfg ∧ touch (page s) = tch ∧ rootNode (this s) = root ∧
  _index (this s) = i ∧
  ∃ new, eventHandlers (this s) = hs ++ new ∧
         listeners (page s) = ls ++ new ∧
         signature <$> new = sigs.

(** While the listeners are set up at the end of [layout()]: the class
    lists, the slides and the tree are settled. *)
Definition settled (cl : gmap nat (list string)) (els ds : list nat)
    (sel : gmap nat (list string)) (s : State) : Prop :=
  classList (page s) = cl ∧ elements (this s) = Some els ∧
  descendants (page s) = ds ∧ selectors (page s) = sel.

(** ** [createStyleNode] and the styles of the gallery

    An object with string keys is kept as the list of its properties in the
    order in which they were created; the values that [createStyleNode]
    prints are kept as the strings that a template literal makes of them
    (the numbers 0 and 1 of [setStyles] as "0" and "1"). *)

(** [o[k]]. *)
Fixpoint obj_get {V} (o : list (string * V)) (k : string) : option V :=
  match o with
  | [] => None
  | (k', v) :: o' => if decide (k' = k) then Some v else obj_get o' k
  end.

(** A property definition of an object literal: a key that is already there
    keeps its place and takes the new value. *)
Fixpoint obj_set {V} (k : string) (v : V) (o : list (string * V))
  : list (string * V) :=
  match o with
  | [] => [(k, v)]
  | (k', v') :: o' =>
      if decide (k' = k) then (k, v) :: o' else (k', v') :: obj_set k v o'
  end.

Fixpoint digits_value (s : string) (acc : N) : option N :=
  match s with
  | EmptyString => Some acc
  | String a s' =>
      match Ascii.is_nat a with
      | Some d => digits_value s' (10 * acc + N.of_nat d)%N
      | None => None
      end
  end.

(** The keys that an object enumerates first and in numeric order: the
    canonical decimal numerals below 2^32 - 1. *)
Definition array_index (k : string) : option N :=
  match k with
  | EmptyString => None
  | String a (String _ _) =>
      if decide (Ascii.is_nat a = Some 0%nat) then None
      else match digits_value k 0 with
           | Some n => if (n <? 2 ^ 32 - 1)%N then Some n else None
           | None => None
           end
  | _ => match digits_value k 0 with
         | Some n => if (n <? 2 ^ 32 - 1)%N then Some n else None
         | None => None
         end
  end.

Fixpoint insert_index (n : N) (k : string) (l : list (N * string))
  : list (N * string) :=
  match l with
  | [] => [(n, k)]
  | (m, k') :: l' =>
      if (n <=? m)%N then (n, k) :: l else (m, k') :: insert_index n k l'
  end.

(** [Object.keys(o)]: the array indices in ascending order, then the other
    keys in the order of creation. *)
Definition Object_keys {V} (o : list (string * V)) : list string :=
  let indexed := omap (λ k, (λ n, (n, k)) <$> array_index k) o.*1 in
  (foldr (λ nk, insert_index nk.1 nk.2) [] indexed).*2
  ++ filter (λ k, array_index k = None) o.*1.

(** [createStyleNode(style)]: the text that becomes the [innerText] of the
    style node (the node itself is made by [fresh_identity] in
    [setStyles]). *)
Definition createStyleNode (style : list (string * list (string * string)))
  : string :=
  foldl (λ acc sel,
           let acc := acc +:+ (sel +:+ "{") in
           let block := default [] (obj_get style sel) in
           let acc :=
             foldl (λ acc prop,
                      acc +:+ (prop +:+ ":"
                               +:+ default "undefined" (obj_get block prop)
                               +:+ ";"))
                   acc (Object_keys block) in
           acc +:+ "}")
        "" (Object_keys style).

(** The object [styleText] of [setStyles()]. *)
Definition styleText (elementSelector : string)
  : list (string * list (string * string)) :=
  obj_set (elementSelector +:+ ".active")
          [("opacity", "1"); ("z-index", "1")]
    (obj_set (elementSelector +:+ ":not(.active)")
             [("opacity", "0"); ("z-index", "0")]
       (obj_set elementSelector
                [("position", "absolute"); ("top", "0"); ("left", "0");
                 ("width", "100%"); ("height", "100%")]
          (obj_set ".gallery-root" [("position", "relative")] []))).

(** One declaration and one rule of a style sheet, as text. *)
Definition declaration_text (d : string * string) : string :=
  d.1 +:+ ":" +:+ d.2 +:+ ";".

Definition rule_text (r : string * list (string * string)) : string :=
  r.1 +:+ "{" +:+ foldr String.append "" (declaration_text <$> r.2) +:+ "}".

(** An object none of whose keys is an array index; its keys are distinct,
    as the keys of an object are. *)
Definition plain_keys {V} (o : list (string * V)) : Prop :=
  NoDup o.*1 ∧ Forall (λ k, array_index k = None) o.*1.

(** ** The timers across [layout()]

    [same_timers r s]: the state [s] has the timers, the handles, the lock
    and the config of the state [r]. *)
Definition same_timers (r s : State) : Prop :=
  pending (page s) = pending (page r) ∧
  next_timer (page s) = next_timer (page r) ∧
  clock (page s) = clock (page r) ∧
  autoplayTimeout (this s) = autoplayTimeout (this r) ∧
  transitionTimeout (this s) = transitionTimeout (this r) ∧
  isTransitioning (this s) = isTransitioning (this r) ∧
  config (this s) = config (this r).

(** * Properties *)

(** ** Running the methods *)

Ltac unfold_monad :=
  unfold mbind, M_bind, mret, M_ret, read, update_this, update_page, throw.

Lemma forEach_from_mark k l index s :
  forEach_from k l
    (λ el i, classList_toggle el activeClassname (Z.of_nat i =? index)) s
  = Normal tt (put_classList (mark_from k l index (classList (page s))) s).
Proof.
  revert k s. induction l as [|el l IH]; intros k s.
  - destruct s as [o p], p; reflexivity.
  - cbn [forEach_from mark_from]. unfold mbind, M_bind at 1.
    unfold classList_toggle at 1, update_page.
    rewrite IH. destruct s as [o p], p; reflexivity.
Qed.

Lemma setActiveElement_run s els index :
  elements (this s) = Some els →
  setActiveElement index s = Normal tt (marked index s).
Proof.
  intros Hels. unfold setActiveElement, this_elements, forEach, marked.
  unfold mbind, M_bind at 1. rewrite Hels. cbn [default].
  unfold mbind, M_bind at 1. rewrite forEach_from_mark.
  unfold mbind, M_bind, read. cbn [this put_classList].
  destruct (indicators (this s)) as [inds|]; [|done].
  rewrite forEach_from_mark. destruct s as [o p], p; reflexivity.
Qed.

Lemma transition_delay_run s : transition_delay s = Normal tt (locked s).
Proof.
  unfold transition_delay, locked, setTimeout. unfold_monad.
  destruct (truthy_number _); [|done]. by destruct s as [[] []].
Qed.

Lemma clearTimeout_run h s :
  clearTimeout h s = Normal tt {| this := this s; page := cancel h (page s) |}.
Proof. destruct h; by destruct s. Qed.

Lemma stopAutoplay_run s : stopAutoplay s = Normal tt (stopped s).
Proof.
  unfold stopAutoplay, stopped. unfold mbind, M_bind, read.
  by rewrite clearTimeout_run.
Qed.

Lemma bind_normal {A B} (m : M A) (f : A → M B) s a s1 :
  m s = Normal a s1 → (m ≫= f) s = f a s1.
Proof. intros H. unfold mbind, M_bind. by rewrite H. Qed.

Lemma bind_inv {A B} (m : M A) (f : A → M B) s b s' :
  (m ≫= f) s = Normal b s' → ∃ a s1, m s = Normal a s1 ∧ f a s1 = Normal b s'.
Proof.
  unfold mbind, M_bind. destruct (m s) as [a s1|]; [|done]. by exists a, s1.
Qed.

(** One step of a computation whose first action is known to complete. *)
Ltac run_step tac := erewrite bind_normal; [| tac].

Lemma startAutoplay_run s : startAutoplay s = Normal tt (started s).
Proof.
  unfold startAutoplay, started, setTimeout. unfold_monad.
  by destruct (_ || _).
Qed.

Lemma restart_autoplay_run s : restart_autoplay s = Normal tt (restarted s).
Proof.
  unfold restart_autoplay, restarted. unfold mbind, M_bind at 1. unfold read.
  destruct (negb _); [|done].
  unfold mbind, M_bind. by rewrite stopAutoplay_run, startAutoplay_run.
Qed.

Lemma index_changed_run s els :
  elements (this s) = Some els →
  index_changed s = Normal tt (restarted (locked (marked (_index (this s)) s))).
Proof.
  intros Hels. unfold index_changed. unfold mbind, M_bind, read.
  rewrite (setActiveElement_run _ els) by done.
  by rewrite transition_delay_run, restart_autoplay_run.
Qed.

Lemma store_and_change_run i s els :
  elements (this s) = Some els →
  (update_this (with__index i) ;; index_changed) s = Normal tt (accepted i s).
Proof.
  intros Hels. unfold mbind, M_bind, update_this.
  by rewrite (index_changed_run _ els).
Qed.

(** The setter refines the contract of the specification: a rejected
    request leaves the state alone, an accepted one stores the next index and
    goes through the three steps. *)
Lemma set_index_run R s els :
  elements (this s) = Some els →
  set_index R s =
    Normal tt match spec_next (Z.of_nat (length els)) (loop (config (this s))) R with
              | REJECT => s
              | Accept i => accepted i s
              end.
Proof.
  intros Hels. unfold set_index, spec_next, this_elements.
  unfold mbind, M_bind at 1. rewrite Hels.
  unfold mbind, M_bind at 1. unfold read at 1.
  destruct (R >? _); [|destruct (R <? 0)]; try destruct (loop _); cbn [negb];
    try done; by apply (store_and_change_run _ _ els).
Qed.

(** ** What an accepted request leaves unchanged *)

Lemma restarted_this_frame s :
  _index (this (restarted s)) = _index (this s) ∧
  elements (this (restarted s)) = elements (this s) ∧
  indicators (this (restarted s)) = indicators (this s) ∧
  isTransitioning (this (restarted s)) = isTransitioning (this s) ∧
  transitionTimeout (this (restarted s)) = transitionTimeout (this s) ∧
  classList (page (restarted s)) = classList (page s).
Proof.
  unfold restarted, started, stopped, cancel.
  destruct (negb (truthy_flag _)); [|done]. cbn.
  destruct (_ || _); cbn; by destruct (autoplayTimeout (this s)).
Qed.

Lemma locked_this_frame s :
  _index (this (locked s)) = _index (this s) ∧
  elements (this (locked s)) = elements (this s) ∧
  indicators (this (locked s)) = indicators (this s) ∧
  isInteracting (this (locked s)) = isInteracting (this s) ∧
  autoplayTimeout (this (locked s)) = autoplayTimeout (this s) ∧
  config (this (locked s)) = config (this s) ∧
  classList (page (locked s)) = classList (page s).
Proof. unfold locked. by destruct (truthy_number _). Qed.

Lemma accepted_index i s : _index (this (accepted i s)) = i.
Proof.
  unfold accepted.
  destruct (restarted_this_frame (locked (marked i (stored i s)))) as (-> & _).
  by destruct (locked_this_frame (marked i (stored i s))) as (-> & _).
Qed.

Lemma accepted_classList i s :
  classList (page (accepted i s)) = classList (page (marked i s)).
Proof.
  unfold accepted.
  destruct (restarted_this_frame (locked (marked i (stored i s))))
    as (_ & _ & _ & _ & _ & ->).
  by destruct (locked_this_frame (marked i (stored i s)))
    as (_ & _ & _ & _ & _ & _ & ->).
Qed.

(** ** The active marker *)

Lemma toggle_elem tok force l : tok ∈ toggle tok force l ↔ force = true.
Proof.
  unfold toggle. destruct force.
  - case_bool_decide; set_solver.
  - rewrite list_elem_of_filter. split; [tauto | done].
Qed.

Lemma mark_from_other k l index cl n :
  n ∉ l → tokens (mark_from k l index cl) n = tokens cl n.
Proof.
  revert k cl. induction l as [|el l IH]; intros k cl Hn; [done|].
  cbn [mark_from]. rewrite IH by set_solver.
  unfold tokens. rewrite lookup_insert_ne; [done | set_solver].
Qed.

Lemma mark_from_at k l index cl j n :
  NoDup l → l !! j = Some n →
  tokens (mark_from k l index cl) n
  = toggle activeClassname (Z.of_nat (k + j) =? index) (tokens cl n).
Proof.
  revert k cl j. induction l as [|el l IH]; intros k cl j Hnd Hj; [done|].
  apply NoDup_cons in Hnd as [Hel Hnd]. cbn [mark_from]. destruct j as [|j].
  - injection Hj as ->. rewrite mark_from_other by done.
    unfold tokens at 1. rewrite lookup_insert_eq. simpl.
    by rewrite Nat.add_0_r.
  - simpl in Hj. rewrite (IH _ _ j) by done.
    assert (el ≠ n) by (intros ->; apply Hel; by eapply list_elem_of_lookup_2).
    unfold tokens at 1. rewrite lookup_insert_ne by done.
    by replace (S k + j)%nat with (k + S j)%nat by lia.
Qed.

Lemma active_tokens s n :
  active s n = true ↔ activeClassname ∈ tokens (classList (page s)) n.
Proof. unfold active, has_class, classes. apply bool_decide_eq_true. Qed.

(** After [setActiveElement(index)] the indicator at position [j] is marked
    exactly when [j] is the index. *)
Lemma marked_indicator index s inds j n :
  indicators (this s) = Some inds → NoDup inds → inds !! j = Some n →
  active (marked index s) n = true ↔ Z.of_nat j = index.
Proof.
  intros Hinds Hnd Hj. rewrite active_tokens. unfold marked. rewrite Hinds.
  cbn [put_classList page classList with_classList].
  rewrite (mark_from_at _ _ _ _ j) by done.
  rewrite toggle_elem. cbn [Nat.add]. apply Z.eqb_eq.
Qed.

(** Likewise for the slide at position [k], the indicators being different
    nodes or aligned with the slides. *)
Lemma marked_slide index s els k n :
  elements (this s) = Some els → distinct_handles s → els !! k = Some n →
  active (marked index s) n = true ↔ Z.of_nat k = index.
Proof.
  intros Hels Hdist Hk. destruct (Hdist els Hels) as [Hnd Hinds].
  rewrite active_tokens. unfold marked. rewrite Hels. cbn [default].
  cbn [put_classList page classList with_classList].
  destruct (indicators (this s)) as [inds|] eqn:Ei.
  - destruct (Hinds inds eq_refl) as [Hndi Halign].
    destruct (decide (n ∈ inds)) as [Hin|Hout].
    + apply list_elem_of_lookup in Hin as [j Hj].
      rewrite (mark_from_at _ _ _ _ j) by done.
      rewrite toggle_elem. cbn [Nat.add].
      rewrite (Halign k j n Hk Hj). apply Z.eqb_eq.
    + rewrite mark_from_other by done.
      rewrite (mark_from_at _ _ _ _ k) by done.
      rewrite toggle_elem. cbn [Nat.add]. apply Z.eqb_eq.
  - rewrite (mark_from_at _ _ _ _ k) by done.
    rewrite toggle_elem. cbn [Nat.add]. apply Z.eqb_eq.
Qed.

Lemma filter_none {A} (P : A → Prop) `{∀ x, Decision (P x)} (l : list A) :
  (∀ m, m ∈ l → ¬ P m) → filter P l = [].
Proof.
  induction l as [|a l IH]; intros HP; [done|].
  rewrite filter_cons_False by (apply HP; set_solver).
  apply IH. intros m Hm. apply HP. set_solver.
Qed.

(** In a list without repetition, a property that singles out the element
    at one position selects exactly that element. *)
Lemma filter_single {A} (P : A → Prop) `{∀ x, Decision (P x)} (l : list A) k x :
  NoDup l → l !! k = Some x →
  (∀ j m, l !! j = Some m → P m ↔ j = k) →
  filter P l = [x].
Proof.
  revert k. induction l as [|a l IH]; intros k Hnd Hk HP; [done|].
  apply NoDup_cons in Hnd as [Ha Hnd]. destruct k as [|k].
  - injection Hk as ->. rewrite filter_cons_True by (by apply (HP 0%nat)).
    f_equal. apply filter_none. intros m Hm Pm.
    apply list_elem_of_lookup in Hm as [j Hj].
    by apply (HP (S j)) in Pm.
  - rewrite filter_cons_False.
    + apply (IH k); [done..|]. intros j m Hj.
      rewrite (HP (S j) m Hj). lia.
    + intros Pa. by apply (HP 0%nat) in Pa.
Qed.

Lemma active_ext s1 s2 n :
  classList (page s1) = classList (page s2) → active s1 n = active s2 n.
Proof. unfold active, has_class, classes. by intros ->. Qed.

Lemma distinct_handlesb_sound s :
  distinct_handlesb s = true → distinct_handles s.
Proof.
  unfold distinct_handlesb, distinct_handles. intros Hb els Hels.
  rewrite Hels in Hb. apply andb_prop in Hb as [Hnd Hb].
  apply bool_decide_eq_true in Hnd. split; [done|]. intros inds Hinds.
  rewrite Hinds in Hb. apply andb_prop in Hb as [Hndi Hb].
  apply bool_decide_eq_true in Hndi. split; [done|]. intros i j n Hi Hj.
  rewrite forallb_forall in Hb.
  apply list_elem_of_lookup_2, list_elem_of_In, Hb in Hi.
  apply negb_true_iff, bool_decide_eq_false in Hi.
  destruct Hi. by eapply list_elem_of_lookup_2.
Qed.

(** ** The contract of the setter *)

(** C1. Setting the index to [R] follows the contract of the specification,
    for every slide count (so for every [N >= 1]): above [N-1] the request
    wraps to [0] when [loop] is set and is rejected otherwise; below [0] it
    wraps to [N-1] or is rejected; otherwise [R] itself is stored.  A rejected
    request leaves the whole state as it was; after an accepted one the
    marked slides are exactly the one at the stored index. *)
Theorem set_index_contract s els R :
  elements (this s) = Some els →
  match spec_next (Z.of_nat (length els)) (loop (config (this s))) R with
  | REJECT => set_index R s = Normal tt s
  | Accept i =>
      ∃ s', set_index R s = Normal tt s' ∧ _index (this s') = i ∧
            (distinct_handles s →
             ∀ k n, els !! k = Some n → active s' n = true ↔ Z.of_nat k = i)
  end.
Proof.
  intros Hels. rewrite (set_index_run R s els Hels).
  destruct (spec_next _ _ R) as [|i]; [done|].
  exists (accepted i s). split; [done|]. split; [apply accepted_index|].
  intros Hdist k n Hk.
  rewrite (active_ext _ (marked i s)) by apply accepted_classList.
  by apply (marked_slide i s els).
Qed.

(** The scenario of C1: five slides, [loop] set, index 0, request -1. *)
Lemma set_index_contract_scenario :
  let g := gallery 5 (gallery_config true None false) in
  elements (this g) = Some [1; 2; 3; 4; 5]%nat ∧
  _index (this g) = 0 ∧ active g 1%nat = true ∧
  ∃ s', set_index (-1) g = Normal tt s' ∧ _index (this s') = 4 ∧
        active s' 5%nat = true ∧ active s' 1%nat = false.
Proof.
  intros g.
  assert (Hels : elements (this g) = Some [1; 2; 3; 4; 5]%nat)
    by (vm_compute; reflexivity).
  assert (Hdist : distinct_handles g)
    by (apply distinct_handlesb_sound; vm_compute; reflexivity).
  split; [exact Hels|]. split; [vm_compute; reflexivity|].
  split; [vm_compute; reflexivity|].
  assert (Hloop : loop (config (this g)) = true) by (vm_compute; reflexivity).
  pose proof (set_index_contract g [1; 2; 3; 4; 5]%nat (-1) Hels) as H.
  rewrite Hloop in H. change (spec_next _ true (-1)) with (Accept 4) in H.
  destruct H as (s' & Hrun & Hi & Hact).
  exists s'. split; [exact Hrun|]. split; [exact Hi|].
  specialize (Hact Hdist). split.
  - apply (Hact 4%nat 5%nat); reflexivity.
  - destruct (active s' 1%nat) eqn:E; [|reflexivity].
    apply (Hact 0%nat 1%nat) in E; [discriminate E | reflexivity].
Defined.

(** C3. With [loop] off, a request outside [0, N-1] is a complete no-op:
    the setter returns the very state it was given, so the stored index, the
    class lists of all slides and indicators, the lock and both timers are
    as before. *)
Theorem set_index_rejected_noop s els R :
  elements (this s) = Some els → (1 ≤ length els)%nat →
  loop (config (this s)) = false →
  R < 0 ∨ R > Z.of_nat (length els) - 1 →
  set_index R s = Normal tt s.
Proof.
  intros Hels HN Hloop HR. rewrite (set_index_run R s els Hels).
  unfold spec_next. rewrite Hloop.
  destruct (Z.gtb_spec R (Z.of_nat (length els) - 1)); [done|].
  destruct (Z.ltb_spec R 0); [done | lia].
Qed.

(** The scenario of C3: three slides, [loop] off, index 2, request 3. *)
Lemma set_index_rejected_noop_scenario :
  let g := final (set_index 2 (gallery 3 (gallery_config false (Some 500) true))) in
  _index (this g) = 2 ∧ set_index 3 g = Normal tt g.
Proof.
  intros g. split; [vm_compute; reflexivity|].
  apply (set_index_rejected_noop g [1; 2; 3]%nat 3).
  - vm_compute; reflexivity.
  - simpl; lia.
  - vm_compute; reflexivity.
  - right. simpl. lia.
Defined.

(** ** The wrap-around law *)

Lemma spec_wrap_mod N R : 0 < N → spec_wrap N R = R mod N.
Proof.
  intros HN. unfold spec_wrap.
  assert (Hb : Z.abs (Z.rem R N) < Z.abs N) by (apply Z.rem_bound_abs; lia).
  assert (Hq : R = Z.rem R N + (R ÷ N) * N)
    by (pose proof (Z.quot_rem' R N); lia).
  rewrite Z.rem_mod_nonneg by lia.
  replace (Z.rem R N + N) with (Z.rem R N + 1 * N) by lia.
  rewrite Z.mod_add by lia.
  transitivity ((Z.rem R N + (R ÷ N) * N) mod N).
  - by rewrite Z.mod_add by lia.
  - f_equal. lia.
Qed.

(** C2, as the code has it.  With [loop] set the setter clamps: any request
    above [N-1] goes to the first slide and any request below [0] to the last
    one.  This agrees with the wrap-around law for requests at most one step
    out of range, [-1 <= R <= N]. *)
Theorem set_index_wraps_one_step s els R :
  elements (this s) = Some els → (1 ≤ length els)%nat →
  loop (config (this s)) = true →
  ∃ s', set_index R s = Normal tt s' ∧
        _index (this s') =
          (if R >? Z.of_nat (length els) - 1 then 0
           else if R <? 0 then Z.of_nat (length els) - 1 else R) ∧
        (-1 ≤ R ≤ Z.of_nat (length els) →
         _index (this s') = spec_wrap (Z.of_nat (length els)) R).
Proof.
  intros Hels HN Hloop. rewrite (set_index_run R s els Hels).
  unfold spec_next. rewrite Hloop.
  set (N := Z.of_nat (length els)). assert (1 ≤ N) by lia.
  eexists. split; [done|].
  destruct (Z.gtb_spec R (N - 1)); [|destruct (Z.ltb_spec R 0)];
    rewrite accepted_index; (split; [done|]); intros HR;
    rewrite spec_wrap_mod by lia.
  - replace R with N by lia. by rewrite Z.mod_same by lia.
  - replace R with (-1) by lia. apply Z.mod_unique with (-1); lia.
  - by rewrite Z.mod_small by lia.
Qed.

Lemma set_index_wraps_one_step_witness :
  let g := gallery 5 (gallery_config true None false) in
  ∃ s', set_index 5 g = Normal tt s' ∧ _index (this s') = 0 ∧
        _index (this s') = spec_wrap 5 5.
Proof.
  intros g.
  destruct (set_index_wraps_one_step g [1; 2; 3; 4; 5]%nat 5)
    as (s' & Hrun & Hi & Hw).
  - vm_compute; reflexivity.
  - simpl; lia.
  - vm_compute; reflexivity.
  - exists s'. split; [exact Hrun|]. split; [exact Hi|].
    apply Hw. simpl. lia.
Defined.

(** C2 as stated fails two steps out of range: with five slides and [loop]
    set, the request 7 stores 0 where the law gives 2, and the request -2
    stores 4 where the law gives 3. *)
Lemma wrap_law_fails_two_steps_out :
  let g := gallery 5 (gallery_config true None false) in
  slide_count g = 5 ∧ loop (config (this g)) = true ∧
  (∃ s', set_index 7 g = Normal tt s' ∧ _index (this s') = 0 ∧
         spec_wrap 5 7 = 2) ∧
  (∃ s', set_index (-2) g = Normal tt s' ∧ _index (this s') = 4 ∧
         spec_wrap 5 (-2) = 3).
Proof.
  intros g. split; [vm_compute; reflexivity|]. split; [vm_compute; reflexivity|].
  split; eexists; (split; [vm_compute; reflexivity|]);
    split; vm_compute; reflexivity.
Qed.

(** ** Mutual exclusion of the active marker *)

(** C7. After an accepted request on a gallery of [N >= 1] slides exactly
    one slide is marked, the one at the new index; and when there are as many
    indicators as slides, exactly one indicator is marked, at the same
    position. *)
Theorem exactly_one_active s els R :
  elements (this s) = Some els → (1 ≤ length els)%nat →
  distinct_handles s →
  loop (config (this s)) = true ∨ 0 ≤ R ≤ Z.of_nat (length els) - 1 →
  ∃ s' k slide,
    set_index R s = Normal tt s' ∧
    _index (this s') = Z.of_nat k ∧ els !! k = Some slide ∧
    active_among s' els = [slide] ∧
    ∀ inds, indicators (this s) = Some inds → length inds = length els →
      ∃ dot, inds !! k = Some dot ∧ active_among s' inds = [dot].
Proof.
  intros Hels HN Hdist Hacc. rewrite (set_index_run R s els Hels).
  set (N := Z.of_nat (length els)) in *.
  assert (∃ i, spec_next N (loop (config (this s))) R = Accept i ∧ 0 ≤ i < N)
    as (i & -> & Hi).
  { unfold spec_next.
    destruct (Z.gtb_spec R (N - 1)); [|destruct (Z.ltb_spec R 0)].
    - destruct Hacc as [-> | ?]; [|lia]. exists 0. split; [done | lia].
    - destruct Hacc as [-> | ?]; [|lia]. exists (N - 1). split; [done | lia].
    - exists R. split; [done | lia]. }
  destruct (lookup_lt_is_Some_2 els (Z.to_nat i)) as [slide Hk]; [lia|].
  exists (accepted i s), (Z.to_nat i), slide.
  split; [done|]. split; [rewrite accepted_index; lia|]. split; [done|].
  destruct (Hdist els Hels) as [Hnd Hinds]. split.
  - apply (filter_single _ _ (Z.to_nat i)); [done..|]. intros j m Hj.
    rewrite (active_ext _ (marked i s)) by apply accepted_classList.
    rewrite (marked_slide i s els j m) by done. lia.
  - intros inds Hi' Hlen. destruct (Hinds inds Hi') as [Hndi _].
    destruct (lookup_lt_is_Some_2 inds (Z.to_nat i)) as [dot Hd]; [lia|].
    exists dot. split; [done|].
    apply (filter_single _ _ (Z.to_nat i)); [done..|]. intros j m Hj.
    rewrite (active_ext _ (marked i s)) by apply accepted_classList.
    rewrite (marked_indicator i s inds j m) by done. lia.
Qed.

Lemma exactly_one_active_witness :
  let g := gallery 3 (gallery_config true (Some 500) true) in
  ∃ s', set_index 3 g = Normal tt s' ∧ _index (this s') = 0 ∧
        active_among s' [1; 2; 3]%nat = [1%nat] ∧
        active_among s' [101; 102; 103]%nat = [101%nat].
Proof.
  intros g.
  destruct (exactly_one_active g [1; 2; 3]%nat 3)
    as (s' & k & slide & Hrun & Hi & Hk & Hone & Hdots).
  - vm_compute; reflexivity.
  - simpl; lia.
  - apply distinct_handlesb_sound; vm_compute; reflexivity.
  - left. vm_compute; reflexivity.
  - exists s'. split; [exact Hrun|].
    assert (Hs' : s' = final (set_index 3 g)) by (rewrite Hrun; reflexivity).
    rewrite Hs'. vm_compute. repeat split; reflexivity.
Defined.

(** ** The timers: allocation and tracking *)

Lemma NoDup_fmap_filter {A B} (f : A → B) (P : A → Prop)
    `{∀ x, Decision (P x)} (l : list A) :
  NoDup (f <$> l) → NoDup (f <$> filter P l).
Proof.
  induction l as [|a l IH]; [done|]. rewrite fmap_cons, NoDup_cons.
  intros [Ha Hnd]. destruct (decide (P a)).
  - rewrite filter_cons_True by done. rewrite fmap_cons, NoDup_cons.
    split; [|by apply IH]. intros Hin. apply Ha.
    apply list_elem_of_fmap in Hin as (x & -> & Hx).
    apply list_elem_of_filter in Hx as [_ Hx]. by apply list_elem_of_fmap_2.
  - rewrite filter_cons_False by done. by apply IH.
Qed.

(** Elements with distinct keys that all carry the same key are at most
    one. *)
Lemma at_most_one_key {A B} (f : A → B) (P : A → Prop)
    `{∀ x, Decision (P x)} (l : list A) (c : B) :
  NoDup (f <$> l) → (∀ x, x ∈ l → P x → f x = c) →
  (length (filter P l) ≤ 1)%nat.
Proof.
  induction l as [|a l IH]; [simpl; lia|]. rewrite fmap_cons, NoDup_cons.
  intros [Ha Hnd] Hc. destruct (decide (P a)).
  - rewrite filter_cons_True by done.
    rewrite (filter_none P l); [simpl; lia|]. intros m Hm Pm. apply Ha.
    rewrite (Hc a) by (done || set_solver).
    rewrite <- (Hc m) by (done || set_solver). by apply list_elem_of_fmap_2.
  - rewrite filter_cons_False by done. apply IH; [done|].
    intros x Hx. apply Hc. set_solver.
Qed.

Lemma tracked_at_most_one s :
  timers_allocated s → autoplay_tracked s →
  (length (pending_of AutoplayAdvance s) ≤ 1)%nat.
Proof.
  intros (Hnd & _) Htr. unfold pending_of.
  destruct (autoplayTimeout (this s)) as [| |id] eqn:E.
  1,2: rewrite filter_none; [simpl; lia|]; intros t Ht Hcb;
       unfold autoplay_tracked in Htr; rewrite Forall_forall in Htr;
       specialize (Htr t Ht Hcb); congruence.
  apply (at_most_one_key timer_id _ _ id); [done|]. intros t Ht Hcb.
  unfold autoplay_tracked in Htr. rewrite Forall_forall in Htr.
  specialize (Htr t Ht Hcb). congruence.
Qed.

Lemma tracked_scheduled_truthy s t :
  autoplay_tracked s → t ∈ pending_of AutoplayAdvance s →
  truthy_handle (autoplayTimeout (this s)) = true.
Proof.
  intros Htr Ht. apply list_elem_of_filter in Ht as [Hcb Ht].
  unfold autoplay_tracked in Htr. rewrite Forall_forall in Htr.
  by rewrite (Htr t Ht Hcb).
Qed.

Lemma started_idempotent s : started (started s) = started s.
Proof.
  unfold started at 2 3.
  destruct (negb _ || truthy_handle _) eqn:E; unfold started.
  - by rewrite E.
  - cbn. by rewrite orb_true_r.
Qed.

Lemma stopped_idempotent s : stopped (stopped s) = stopped s.
Proof. by destruct s as [[] p]. Qed.

Lemma allocated_succ h n : allocated h n → allocated h (Pos.succ n).
Proof. destruct h; simpl; lia. Qed.

(** Scheduling a timer under the next id keeps the timers allocated. *)
Lemma allocated_snoc (ts : list Timer) (n : positive) cb d :
  NoDup (timer_id <$> ts) → Forall (λ t, (timer_id t < n)%positive) ts →
  NoDup (timer_id <$> ts ++ [{| timer_id := n; callback := cb; due := d |}]) ∧
  Forall (λ t, (timer_id t < Pos.succ n)%positive)
         (ts ++ [{| timer_id := n; callback := cb; due := d |}]).
Proof.
  intros Hnd Hlt. split.
  - rewrite fmap_app. apply NoDup_app. split; [done|]. split.
    + intros id Hid Hn. apply list_elem_of_fmap in Hid as (t & -> & Ht).
      rewrite Forall_forall in Hlt. specialize (Hlt t Ht).
      apply list_elem_of_singleton in Hn. simpl in Hn. lia.
    + apply NoDup_singleton.
  - apply Forall_app. split.
    + eapply Forall_impl; [done|]. intros t. simpl. lia.
    + apply Forall_singleton. simpl. lia.
Qed.

Lemma started_allocated s :
  timers_allocated s → autoplay_tracked s →
  timers_allocated (started s) ∧ autoplay_tracked (started s).
Proof.
  intros Hal Htr. unfold started.
  destruct (negb _ || truthy_handle _) eqn:E; [done|].
  apply orb_false_elim in E as [_ Hh].
  destruct Hal as (Hnd & Hlt & Ha & Ht).
  destruct (allocated_snoc (pending (page s)) (next_timer (page s))
              AutoplayAdvance
              (clock (page s) + Z.max 0 (autoplay_delay (config (this s))))
              Hnd Hlt) as [Hnd' Hlt'].
  split.
  - unfold timers_allocated. cbn.
    split_and!; [done | done | lia | by apply allocated_succ].
  - unfold autoplay_tracked. cbn. apply Forall_app. split.
    + unfold autoplay_tracked in Htr. eapply Forall_impl; [exact Htr|].
      intros t Hcb Hauto. specialize (Hcb Hauto).
      rewrite Hcb in Hh. discriminate.
    + by apply Forall_singleton.
Qed.

Lemma stopped_allocated s :
  timers_allocated s → autoplay_tracked s →
  timers_allocated (stopped s) ∧ autoplay_tracked (stopped s).
Proof.
  intros (Hnd & Hlt & Ha & Ht) Htr. unfold autoplay_tracked in Htr.
  rewrite Forall_forall in Htr. rewrite Forall_forall in Hlt.
  unfold stopped, cancel.
  destruct (autoplayTimeout (this s)) as [| |id] eqn:E.
  1,2: split; [unfold timers_allocated; cbn;
                split_and!; try done; by apply Forall_forall|];
       unfold autoplay_tracked; cbn; apply Forall_forall; intros t Hin Hcb;
       specialize (Htr t Hin Hcb); congruence.
  split.
  - unfold timers_allocated. cbn.
    split_and!; [by apply NoDup_fmap_filter | | done | done].
    apply Forall_forall. intros t Hin.
    apply list_elem_of_filter in Hin as [_ Hin]. by apply Hlt.
  - unfold autoplay_tracked. cbn. apply Forall_forall. intros t Hin Hcb.
    apply list_elem_of_filter in Hin as [Hne Hin].
    specialize (Htr t Hin Hcb). congruence.
Qed.


Lemma locked_allocated s :
  timers_allocated s → autoplay_tracked s →
  timers_allocated (locked s) ∧ autoplay_tracked (locked s).
Proof.
  intros Hal Htr. unfold locked. destruct (truthy_number _); [|done].
  destruct Hal as (Hnd & Hlt & Ha & Ht).
  destruct (allocated_snoc (pending (page s)) (next_timer (page s))
              ClearTransition
              (clock (page s)
               + Z.max 0 (default 0 (transitionDuration (config (this s)))))
              Hnd Hlt) as [Hnd' Hlt'].
  split.
  - unfold timers_allocated. cbn.
    split_and!; [done | done | by apply allocated_succ | lia].
  - unfold autoplay_tracked. cbn. apply Forall_app. split.
    + exact Htr.
    + by apply Forall_singleton.
Qed.


(** ** Invariants of the controller *)

Section Preservation.
Variable I : State → Prop.

Lemma preserves_ret {A} (a : A) : preserves I (mret a).
Proof. by intros s. Qed.

Lemma preserves_throw {A} e : preserves I (@throw A e).
Proof. by intros s. Qed.

Lemma preserves_read {A} (f : State → A) : preserves I (read f).
Proof. by intros s. Qed.

Lemma preserves_bind {A B} (m : M A) (f : A → M B) :
  preserves I m → (∀ a, preserves I (f a)) → preserves I (m ≫= f).
Proof.
  intros Hm Hf s HI. specialize (Hm s HI). unfold mbind, M_bind.
  destruct (m s) as [a s1 | e s1]; [by apply Hf | done].
Qed.

Lemma preserves_forEach_from {A} k (l : list A) (f : A → nat → M unit) :
  (∀ x i, preserves I (f x i)) → preserves I (forEach_from k l f).
Proof.
  intros Hf. revert k. induction l as [|x l IH]; intros k.
  - apply preserves_ret.
  - cbn [forEach_from]. apply preserves_bind; [apply Hf | intros _; apply IH].
Qed.

Lemma preserves_forEach {A} (l : list A) (f : A → nat → M unit) :
  (∀ x i, preserves I (f x i)) → preserves I (forEach l f).
Proof. apply preserves_forEach_from. Qed.
End Preservation.

Create HintDb preserves.

(** *** The timers *)

Lemma timer_inv_frame s s' :
  pending (page s') = pending (page s) →
  next_timer (page s') = next_timer (page s) →
  autoplayTimeout (this s') = autoplayTimeout (this s) →
  transitionTimeout (this s') = transitionTimeout (this s) →
  timer_inv s → timer_inv s'.
Proof.
  unfold timer_inv, timers_allocated, autoplay_tracked.
  by intros -> -> -> ->.
Qed.

Ltac timer_frame :=
  let s := fresh "s" in
  intros s; apply timer_inv_frame; reflexivity.

Lemma timers_update_this f :
  (∀ o, autoplayTimeout (f o) = autoplayTimeout o) →
  (∀ o, transitionTimeout (f o) = transitionTimeout o) →
  preserves timer_inv (update_this f).
Proof. intros Ha Ht s. apply timer_inv_frame; cbn; by rewrite ?Ha, ?Ht. Qed.

Lemma timers_update_page f :
  (∀ p, pending (f p) = pending p) →
  (∀ p, next_timer (f p) = next_timer p) →
  preserves timer_inv (update_page f).
Proof. intros Hp Hn s. apply timer_inv_frame; cbn; by rewrite ?Hp, ?Hn. Qed.

Lemma timers_classList_toggle n tok force :
  preserves timer_inv (classList_toggle n tok force).
Proof. by apply timers_update_page. Qed.

Lemma timers_transition_delay : preserves timer_inv transition_delay.
Proof.
  intros s [Hal Htr]. rewrite transition_delay_run.
  by apply locked_allocated.
Qed.

Lemma timers_startAutoplay : preserves timer_inv startAutoplay.
Proof.
  intros s [Hal Htr]. rewrite startAutoplay_run. by apply started_allocated.
Qed.

Lemma timers_stopAutoplay : preserves timer_inv stopAutoplay.
Proof.
  intros s [Hal Htr]. rewrite stopAutoplay_run. by apply stopped_allocated.
Qed.

(** Removing a pending timer, by [clearTimeout] or because it fires. *)
Lemma timers_clearTimeout h : preserves timer_inv (clearTimeout h).
Proof.
  intros s [(Hnd & Hlt & Ha & Ht) Htr]. rewrite clearTimeout_run.
  destruct h as [| |id]; cbn; try (by destruct s as [o []]).
  unfold autoplay_tracked in Htr.
  rewrite Forall_forall in Hlt. rewrite Forall_forall in Htr.
  split.
  - unfold timers_allocated. cbn.
    split_and!; [by apply NoDup_fmap_filter | | done | done].
    apply Forall_forall. intros t Hin.
    apply list_elem_of_filter in Hin as [_ Hin]. by apply Hlt.
  - unfold autoplay_tracked. cbn. apply Forall_forall. intros t Hin.
    apply list_elem_of_filter in Hin as [_ Hin]. by apply Htr.
Qed.

#[global] Hint Resolve timers_classList_toggle timers_transition_delay
  timers_startAutoplay timers_stopAutoplay timers_clearTimeout : preserves.

Ltac timers_go :=
  repeat first
    [ solve [eauto with preserves]
    | apply preserves_bind; [| intros ?]
    | apply preserves_ret
    | apply preserves_read
    | apply preserves_throw
    | apply preserves_forEach; intros ? ?
    | solve [apply timers_update_this; intros []; reflexivity]
    | solve [apply timers_update_page; intros []; reflexivity]
    | match goal with
      | |- preserves _ (if ?b then _ else _) => destruct b
      | |- preserves _ (match ?x with _ => _ end) => destruct x
      end ].

Lemma timers_this_elements : preserves timer_inv this_elements.
Proof. intros s H. unfold this_elements. by destruct (elements (this s)). Qed.

Lemma timers_this_indicators : preserves timer_inv this_indicators.
Proof. intros s H. unfold this_indicators. by destruct (indicators (this s)). Qed.

#[global] Hint Resolve timers_this_elements timers_this_indicators : preserves.

Lemma timers_setActiveElement i : preserves timer_inv (setActiveElement i).
Proof. unfold setActiveElement. timers_go. Qed.
#[global] Hint Resolve timers_setActiveElement : preserves.

Lemma timers_restart_autoplay : preserves timer_inv restart_autoplay.
Proof. unfold restart_autoplay. timers_go. Qed.
#[global] Hint Resolve timers_restart_autoplay : preserves.

Lemma timers_index_changed : preserves timer_inv index_changed.
Proof. unfold index_changed. timers_go. Qed.
#[global] Hint Resolve timers_index_changed : preserves.

Lemma timers_set_index R : preserves timer_inv (set_index R).
Proof. unfold set_index. timers_go. Qed.
#[global] Hint Resolve timers_set_index : preserves.

Lemma timers_index_increment : preserves timer_inv index_increment.
Proof. unfold index_increment, get_index. timers_go. Qed.

Lemma timers_index_decrement : preserves timer_inv index_decrement.
Proof. unfold index_decrement, get_index. timers_go. Qed.
#[global] Hint Resolve timers_index_increment timers_index_decrement : preserves.

Lemma timers_handleKeydown e : preserves timer_inv (handleKeydown e).
Proof. unfold handleKeydown, isInView. timers_go. Qed.

Lemma timers_findAncestor_walk sels target above :
  preserves timer_inv (findAncestor_walk sels target above).
Proof.
  revert target. induction above as [|parent above IH]; intros target;
    cbn [findAncestor_walk]; timers_go.
Qed.
#[global] Hint Resolve timers_findAncestor_walk : preserves.

Lemma timers_handleControlsClick e : preserves timer_inv (handleControlsClick e).
Proof. unfold handleControlsClick, findAncestor. timers_go. Qed.

Lemma timers_on target ev cb : preserves timer_inv (on target ev cb).
Proof. unfold on, fresh_identity, addEventListener. timers_go. Qed.
#[global] Hint Resolve timers_on : preserves.

Lemma timers_querySelectorAll sel : preserves timer_inv (querySelectorAll sel).
Proof. unfold querySelectorAll. timers_go. Qed.
#[global] Hint Resolve timers_querySelectorAll : preserves.

Lemma timers_removeChild parent child :
  preserves timer_inv (removeChild parent child).
Proof. unfold removeChild, detach. timers_go. Qed.
#[global] Hint Resolve timers_removeChild : preserves.

Lemma timers_layout : preserves timer_inv layout.
Proof.
  unfold layout, beforeLayout, afterLayout, setStyles, classList_add,
    fresh_identity, appendChild, detach, getElements, loadImages,
    setupAutoplay, setupControls, getIndicators, setupKeydown.
  timers_go.
Qed.

Lemma timers_destroy : preserves timer_inv destroy.
Proof.
  unfold destroy, beforeDestroy, afterDestroy, remove_styleNode,
    removeEventListener.
  timers_go.
Qed.

Lemma timers_handleMouseover : preserves timer_inv handleMouseover.
Proof. unfold handleMouseover, classList_add. timers_go. Qed.

Lemma timers_handleMouseout : preserves timer_inv (handleMouseout None).
Proof.
  unfold handleMouseout, classList_remove, executeCallback, console_error.
  timers_go.
Qed.

Lemma timers_handleResize : preserves timer_inv (handleResize None).
Proof. unfold handleResize, loadImages. timers_go. Qed.

Lemma timers_run_callback cb : preserves timer_inv (run_callback cb).
Proof. unfold run_callback. timers_go. Qed.
#[global] Hint Resolve timers_run_callback : preserves.

Lemma timers_fire id s :
  timer_inv s → timer_inv (from_option final s (fire id s)).
Proof.
  intros H. unfold fire. destruct (list_find _ _) as [[? t]|]; [|done].
  destruct (_ <=? _); [|done]. cbn.
  assert (preserves timer_inv
            (clearTimeout (HTimer id) ;; run_callback (callback t))) as Hp
    by timers_go.
  by apply Hp.
Qed.

Lemma timers_elapse ms s : timer_inv s → timer_inv (elapse ms s).
Proof. by apply timer_inv_frame. Qed.

(** The timers of every reachable state are allocated in order and the
    pending autoplay timer is the one the object knows. *)
Lemma reachable_timer_inv s : reachable s → timer_inv s.
Proof.
  induction 1 as [root cfg p Hp | s c _ IH].
  - unfold timer_inv, timers_allocated, autoplay_tracked. cbn. rewrite Hp.
    split_and!; try done. apply NoDup_nil_2.
  - destruct c; cbn [perform].
    + by apply timers_layout.
    + by apply timers_destroy.
    + by apply timers_set_index.
    + by apply timers_startAutoplay.
    + by apply timers_stopAutoplay.
    + by apply timers_handleControlsClick.
    + by apply timers_handleKeydown.
    + by apply timers_handleMouseover.
    + by apply timers_handleMouseout.
    + by apply timers_handleResize.
    + by apply timers_fire.
    + by apply timers_elapse.
Qed.

Lemma perform_layout s : perform CallLayout s = final (layout s).
Proof. unfold perform. reflexivity. Qed.

Lemma gallery_reachable n cfg : reachable (gallery n cfg).
Proof.
  unfold gallery, fresh_gallery. rewrite <- perform_layout.
  apply reachable_step. by apply reachable_new.
Qed.

(** At every moment at most one autoplay timer is pending. *)
Lemma reachable_one_autoplay_timer s :
  reachable s → (length (pending_of AutoplayAdvance s) ≤ 1)%nat.
Proof.
  intros Hr. destruct (reachable_timer_inv s Hr). by apply tracked_at_most_one.
Qed.

(** *** The style node *)

Lemma styled_frame n parent s s' :
  styleNode (this s') = styleNode (this s) →
  parentNode (page s') = parentNode (page s) →
  styled n parent s → styled n parent s'.
Proof. unfold styled. by intros -> ->. Qed.

Lemma styled_update_this n parent f :
  (∀ o, styleNode (f o) = styleNode o) →
  preserves (styled n parent) (update_this f).
Proof. intros Hf s. apply styled_frame; cbn; by rewrite ?Hf. Qed.

Lemma styled_update_page n parent f :
  (∀ p, parentNode (f p) = parentNode p) →
  preserves (styled n parent) (update_page f).
Proof. intros Hf s. apply styled_frame; cbn; by rewrite ?Hf. Qed.

Lemma styled_setTimeout n parent cb ms :
  preserves (styled n parent) (setTimeout cb ms).
Proof. intros s. by apply styled_frame. Qed.

Lemma styled_this_elements n parent :
  preserves (styled n parent) this_elements.
Proof. intros s H. unfold this_elements. by destruct (elements (this s)). Qed.

#[global] Hint Resolve styled_setTimeout styled_this_elements : preserves.

Ltac styled_go :=
  repeat first
    [ solve [eauto with preserves]
    | apply preserves_bind; [| intros ?]
    | apply preserves_ret
    | apply preserves_read
    | apply preserves_throw
    | apply preserves_forEach; intros ? ?
    | solve [apply styled_update_this; intros []; reflexivity]
    | solve [apply styled_update_page; intros []; reflexivity]
    | match goal with
      | |- preserves _ (if ?b then _ else _) => destruct b
      | |- preserves _ (match ?x with _ => _ end) => destruct x
      end ].

Lemma styled_on n parent target ev cb :
  preserves (styled n parent) (on target ev cb).
Proof. unfold on, fresh_identity, addEventListener. styled_go. Qed.
#[global] Hint Resolve styled_on : preserves.

(** What [layout()] does once the styles are set. *)
Lemma styled_layout_rest n parent :
  preserves (styled n parent)
    (els ← getElements;
     update_this (with_elements (Some els)) ;;
     setActiveElement 0 ;;
     loadImages ;;
     setupAutoplay ;;
     setupControls ;;
     setupKeydown ;;
     on Window "resize" OnResize ;;
     afterLayout).
Proof.
  unfold afterLayout, getElements, querySelectorAll, setActiveElement,
    classList_toggle, loadImages, setupAutoplay, startAutoplay, setupControls,
    getIndicators, setupKeydown.
  styled_go.
Qed.

Lemma setStyles_styled s s1 :
  setStyles s = Normal tt s1 → ∃ n, styled n (rootNode (this s)) s1.
Proof.
  unfold setStyles, classList_add, classList_toggle, removeChild,
    fresh_identity, appendChild, detach.
  unfold_monad. cbn. destruct (styleNode (this s)) as [old|]; cbn.
  - destruct (bool_decide _); [|done]. cbn. intros [= <-].
    eexists. split; [done|]. cbn. apply lookup_insert_eq.
  - intros [= <-]. eexists. split; [done|]. cbn. apply lookup_insert_eq.
Qed.

(** When [layout()] completes the style node is attached, so that a
    [destroy()] that follows completes as well. *)
Lemma layout_styled s s1 :
  layout s = Normal tt s1 → ∃ n, styled n (rootNode (this s)) s1.
Proof.
  unfold layout, beforeLayout. intros H.
  apply bind_inv in H as ([] & s0 & [= <-] & H).
  apply bind_inv in H as ([] & sa & Hstyles & H).
  apply setStyles_styled in Hstyles as [n Hn]. exists n.
  pose proof (styled_layout_rest n (rootNode (this s)) sa Hn) as Hrest.
  by rewrite H in Hrest.
Qed.

(** ** Autoplay *)

(** C8. [startAutoplay] is idempotent: it never fails, starting twice is
    starting once, and it changes nothing when autoplay is disabled or the
    handle of an autoplay timer is held, which is the case whenever such a
    timer is pending.  Under the invariant of the timers, which holds in
    every reachable state ([reachable_timer_inv]), starting leaves at most
    one pending autoplay timer.  [stopAutoplay] is idempotent as well. *)
Theorem autoplay_idempotent s :
  (∃ s1, startAutoplay s = Normal tt s1 ∧ startAutoplay s1 = Normal tt s1) ∧
  (autoplay_enabled (config (this s)) = false ∨
   truthy_handle (autoplayTimeout (this s)) = true →
   startAutoplay s = Normal tt s) ∧
  (∃ s1, stopAutoplay s = Normal tt s1 ∧ stopAutoplay s1 = Normal tt s1) ∧
  (timer_inv s →
   (pending_of AutoplayAdvance s ≠ [] → startAutoplay s = Normal tt s) ∧
   ∃ s1, startAutoplay s = Normal tt s1 ∧ timer_inv s1 ∧
         (length (pending_of AutoplayAdvance s1) ≤ 1)%nat).
Proof.
  split; [|split; [|split]].
  - exists (started s). rewrite !startAutoplay_run.
    by rewrite started_idempotent.
  - intros Hc. rewrite startAutoplay_run. unfold started.
    destruct Hc as [-> | ->]; [done | by rewrite orb_true_r].
  - exists (stopped s). rewrite !stopAutoplay_run.
    by rewrite stopped_idempotent.
  - intros [Hal Htr]. split.
    + intros Hne. rewrite startAutoplay_run. unfold started.
      destruct (pending_of AutoplayAdvance s) as [|t ts] eqn:E; [done|].
      rewrite (tracked_scheduled_truthy s t Htr) by (rewrite E; set_solver).
      by rewrite orb_true_r.
    + exists (started s). rewrite startAutoplay_run. split; [done|].
      destruct (started_allocated s Hal Htr) as [Hal' Htr'].
      split; [done|]. by apply tracked_at_most_one.
Qed.

Lemma autoplay_idempotent_witness :
  let g := gallery 3 (gallery_config true None true) in
  pending_of AutoplayAdvance g ≠ [] ∧
  startAutoplay g = Normal tt g ∧
  (length (pending_of AutoplayAdvance (final (startAutoplay g))) ≤ 1)%nat.
Proof.
  intros g.
  assert (Hinv : timer_inv g).
  { apply reachable_timer_inv, gallery_reachable. }
  destruct (autoplay_idempotent g) as (_ & _ & _ & H).
  destruct (H Hinv) as (Hnoop & s1 & Hrun & _ & Hone).
  assert (Hne : pending_of AutoplayAdvance g ≠ [])
    by (vm_compute; discriminate).
  split; [exact Hne|]. split; [exact (Hnoop Hne)|].
  rewrite Hrun. exact Hone.
Defined.

(** ** Requesting the current index *)

Lemma locked_facts s :
  config (this (locked s)) = config (this s) ∧
  clock (page (locked s)) = clock (page s) ∧
  (next_timer (page s) ≤ next_timer (page (locked s)))%positive ∧
  (∀ t, t ∈ pending (page s) → t ∈ pending (page (locked s))).
Proof.
  unfold locked. destruct (truthy_number _); cbn; split_and!; try done;
    try lia.
  intros t Ht. set_solver.
Qed.

Lemma locked_truthy s d :
  transitionDuration (config (this s)) = Some d → d > 0 →
  isTransitioning (this (locked s)) = Some true ∧
  transitionTimeout (this (locked s)) = HTimer (next_timer (page s)) ∧
  {| timer_id := next_timer (page s); callback := ClearTransition;
     due := clock (page s) + d |} ∈ pending (page (locked s)).
Proof.
  intros Hd Hpos. unfold locked. rewrite Hd. cbn.
  replace (d =? 0) with false by (symmetry; apply Z.eqb_neq; lia). cbn.
  replace (Z.max 0 d) with d by lia. split_and!; [done..|]. set_solver.
Qed.

(** [stopAutoplay(); startAutoplay()] only removes the timer that
    [this.autoplayTimeout] names. *)
Lemma restarted_keeps s t :
  t ∈ pending (page s) →
  (∀ id, autoplayTimeout (this s) = HTimer id → timer_id t ≠ id) →
  t ∈ pending (page (restarted s)).
Proof.
  intros Ht Hne. unfold restarted. destruct (negb (truthy_flag _)); [|done].
  assert (t ∈ pending (page (stopped s))) as Hs.
  { unfold stopped, cancel. cbn.
    destruct (autoplayTimeout (this s)); [done..|].
    cbn. apply list_elem_of_filter. split; [by apply Hne | done]. }
  unfold started. destruct (_ || _); [done|]. cbn. set_solver.
Qed.

Lemma restarted_cancels s id :
  truthy_flag (isInteracting (this s)) = false →
  autoplayTimeout (this s) = HTimer id →
  (id < next_timer (page s))%positive →
  id ∉ timer_id <$> pending (page (restarted s)).
Proof.
  intros Hinter Ha Hlt Hin. unfold restarted in Hin. rewrite Hinter in Hin.
  cbn [negb] in Hin.
  assert (next_timer (page (stopped s)) = next_timer (page s)) as Hn
    by (unfold stopped, cancel; rewrite Ha; done).
  assert (id ∉ timer_id <$> pending (page (stopped s))) as Hs.
  { unfold stopped, cancel. rewrite Ha. cbn. intros Hid.
    apply list_elem_of_fmap in Hid as (t & Ht & Hid).
    apply list_elem_of_filter in Hid as [Hne _]. by apply Hne. }
  remember (stopped s) as s1 eqn:Es1. clear Es1.
  unfold started in Hin. destruct (_ || _); [done|]. cbn in Hin.
  rewrite fmap_app in Hin. apply elem_of_app in Hin as [Hin | Hin]; [done|].
  cbn in Hin. apply list_elem_of_singleton in Hin. lia.
Qed.

Lemma restarted_schedules s :
  truthy_flag (isInteracting (this s)) = false →
  autoplay_enabled (config (this s)) = true →
  autoplayTimeout (this (restarted s)) = HTimer (next_timer (page s)) ∧
  {| timer_id := next_timer (page s); callback := AutoplayAdvance;
     due := clock (page s) + Z.max 0 (autoplay_delay (config (this s))) |}
    ∈ pending (page (restarted s)).
Proof.
  intros Hinter Hen. unfold restarted. rewrite Hinter. cbn [negb].
  unfold started, stopped, cancel. cbn. rewrite Hen. cbn.
  split; [by destruct (autoplayTimeout (this s))|].
  destruct (autoplayTimeout (this s)); cbn; set_solver.
Qed.

(** The lock and the autoplay steps of an accepted assignment. *)
Lemma accepted_steps i s :
  timers_allocated s →
  let s' := accepted i s in
  (∀ d, transitionDuration (config (this s)) = Some d → d > 0 →
     isTransitioning (this s') = Some true ∧
     transitionTimeout (this s') = HTimer (next_timer (page s)) ∧
     {| timer_id := next_timer (page s); callback := ClearTransition;
        due := clock (page s) + d |} ∈ pending (page s')) ∧
  (truthy_flag (isInteracting (this s)) = false →
     (∀ id, autoplayTimeout (this s) = HTimer id →
            id ∉ timer_id <$> pending (page s')) ∧
     (autoplay_enabled (config (this s)) = true →
      ∃ id, autoplayTimeout (this s') = HTimer id ∧
            (next_timer (page s) ≤ id)%positive ∧
            {| timer_id := id; callback := AutoplayAdvance;
               due := clock (page s)
                      + Z.max 0 (autoplay_delay (config (this s))) |}
              ∈ pending (page s'))).
Proof.
  intros (Hnd & Hlt & Ha & Ht) s'. unfold s'.
  rewrite Forall_forall in Hlt. unfold accepted.
  set (m := marked i (stored i s)).
  destruct (locked_facts m) as (Hcfg & Hclk & Hnext & Hkeep).
  destruct (locked_this_frame m) as (_ & _ & _ & Hint & Hauto & _).
  destruct (restarted_this_frame (locked m)) as (_ & _ & _ & Hlock & Hth & _).
  split.
  - intros d Hd Hpos. rewrite Hlock, Hth.
    destruct (locked_truthy m d Hd Hpos) as (-> & -> & Hin).
    split; [done|]. split; [done|].
    apply restarted_keeps; [exact Hin|]. intros id Hid. cbn.
    rewrite Hauto in Hid. cbn in Hid. rewrite Hid in Ha. cbn in Ha. lia.
  - intros Hinter. split.
    + intros id Hid. apply restarted_cancels.
      * by rewrite Hint.
      * by rewrite Hauto.
      * rewrite Hid in Ha. cbn in Ha. cbn in Hnext. lia.
    + intros Hen.
      destruct (restarted_schedules (locked m)) as [Hh Hin].
      * by rewrite Hint.
      * by rewrite Hcfg.
      * exists (next_timer (page (locked m))). split; [done|].
        split; [exact Hnext|]. by rewrite Hclk, Hcfg in Hin.
Qed.

(** C10. Requesting the index that is already current is an accepted
    transition like any other.  The markers are applied again: whatever the
    class lists were before, afterwards the slide at the index and no other
    slide carries the marker, and likewise the indicator at that position.
    The lock is set and its timer scheduled when [transitionDuration] is
    positive, and unless the pointer is over the gallery the autoplay timer
    that was pending is cancelled and, autoplay being enabled, a fresh one
    is scheduled for a full delay from now. *)
Theorem same_index_is_accepted s els :
  elements (this s) = Some els → (1 ≤ length els)%nat →
  0 ≤ _index (this s) ≤ Z.of_nat (length els) - 1 →
  distinct_handles s →
  timers_allocated s →
  ∃ s' k slide, set_index (_index (this s)) s = Normal tt s' ∧
    _index (this s') = _index (this s) ∧
    _index (this s) = Z.of_nat k ∧ els !! k = Some slide ∧
    active_among s' els = [slide] ∧
    (∀ inds, indicators (this s) = Some inds → length inds = length els →
       ∃ dot, inds !! k = Some dot ∧ active_among s' inds = [dot]) ∧
    (∀ d, transitionDuration (config (this s)) = Some d → d > 0 →
       isTransitioning (this s') = Some true ∧
       transitionTimeout (this s') = HTimer (next_timer (page s)) ∧
       {| timer_id := next_timer (page s); callback := ClearTransition;
          due := clock (page s) + d |} ∈ pending (page s')) ∧
    (truthy_flag (isInteracting (this s)) = false →
       (∀ id, autoplayTimeout (this s) = HTimer id →
              id ∉ timer_id <$> pending (page s')) ∧
       (autoplay_enabled (config (this s)) = true →
        ∃ id, autoplayTimeout (this s') = HTimer id ∧
              (next_timer (page s) ≤ id)%positive ∧
              {| timer_id := id; callback := AutoplayAdvance;
                 due := clock (page s)
                        + Z.max 0 (autoplay_delay (config (this s))) |}
                ∈ pending (page s'))).
Proof.
  intros Hels HN Hi Hdist Hal.
  rewrite (set_index_run _ s els Hels).
  assert (spec_next (Z.of_nat (length els)) (loop (config (this s)))
            (_index (this s)) = Accept (_index (this s))) as ->.
  { unfold spec_next.
    destruct (Z.gtb_spec (_index (this s)) (Z.of_nat (length els) - 1)); [lia|].
    destruct (Z.ltb_spec (_index (this s)) 0); [lia | done]. }
  set (i := _index (this s)) in *.
  destruct (lookup_lt_is_Some_2 els (Z.to_nat i)) as [slide Hk]; [lia|].
  exists (accepted i s), (Z.to_nat i), slide.
  split; [done|]. split; [apply accepted_index|]. split; [lia|].
  split; [done|].
  destruct (Hdist els Hels) as [Hnd Hinds]. split.
  { apply (filter_single _ _ (Z.to_nat i)); [done..|]. intros j m Hj.
    rewrite (active_ext _ (marked i s)) by apply accepted_classList.
    rewrite (marked_slide i s els j m) by done. lia. }
  split.
  { intros inds Hi' Hlen. destruct (Hinds inds Hi') as [Hndi _].
    destruct (lookup_lt_is_Some_2 inds (Z.to_nat i)) as [dot Hd]; [lia|].
    exists dot. split; [done|].
    apply (filter_single _ _ (Z.to_nat i)); [done..|]. intros j m Hj.
    rewrite (active_ext _ (marked i s)) by apply accepted_classList.
    rewrite (marked_indicator i s inds j m) by done. lia. }
  exact (accepted_steps i s Hal).
Qed.

Lemma same_index_is_accepted_witness :
  let g0 := gallery 3 (gallery_config true (Some 500) true) in
  let g := put_classList (<[2%nat := [activeClassname]]> (classList (page g0)))
                         g0 in
  _index (this g) = 0 ∧ autoplayTimeout (this g) = HTimer 1 ∧
  active_among g [1; 2; 3]%nat = [1; 2]%nat ∧
  ∃ s', set_index 0 g = Normal tt s' ∧ _index (this s') = 0 ∧
        active_among s' [1; 2; 3]%nat = [1%nat] ∧
        active_among s' [101; 102; 103]%nat = [101%nat] ∧
        isTransitioning (this s') = Some true ∧
        transitionTimeout (this s') = HTimer 2 ∧
        (1%positive ∉ (timer_id <$> pending (page s'))) ∧
        ∃ id, autoplayTimeout (this s') = HTimer id ∧ (2 ≤ id)%positive.
Proof.
  intros g0 g. split; [vm_compute; reflexivity|].
  split; [vm_compute; reflexivity|].
  split; [vm_compute; reflexivity|].
  destruct (same_index_is_accepted g [1; 2; 3]%nat)
    as (s' & k & slide & Hrun & Hi & Hk & Hslide & Hone & Hdots & Hlock & Hauto).
  - vm_compute; reflexivity.
  - simpl; lia.
  - vm_compute. split; discriminate.
  - apply distinct_handlesb_sound; vm_compute; reflexivity.
  - apply (bool_decide_unpack _). vm_compute. exact I.
  - assert (_index (this g) = 0) as Hg by (vm_compute; reflexivity).
    rewrite Hg in Hk. assert (k = 0%nat) as -> by lia.
    injection Hslide as <-.
    destruct (Hdots [101; 102; 103]%nat) as (dot & Hdot & Hdots');
      [vm_compute; reflexivity | reflexivity |].
    injection Hdot as <-.
    exists s'. split; [exact Hrun|]. split; [exact Hi|].
    split; [exact Hone|]. split; [exact Hdots'|].
    destruct (Hlock 500) as (Ht & Hh & _); [vm_compute; reflexivity | lia |].
    split; [exact Ht|]. split; [exact Hh|].
    destruct Hauto as [Hcancel Hfresh]; [vm_compute; reflexivity|].
    split; [apply Hcancel; vm_compute; reflexivity|].
    destruct Hfresh as (id & Hid & Hge & _); [vm_compute; reflexivity|].
    exists id. split; [exact Hid | exact Hge].
Defined.

(** ** Clicks and keys *)

Lemma index_increment_run s els :
  elements (this s) = Some els →
  ∃ s', set_index (_index (this s) + 1) s = Normal tt s' ∧
        index_increment s = Normal (_index (this s)) s'.
Proof.
  intros Hels. unfold index_increment, get_index. unfold mbind, M_bind, read.
  rewrite (set_index_run _ s els Hels). eexists. split; reflexivity.
Qed.

Lemma index_decrement_run s els :
  elements (this s) = Some els →
  ∃ s', set_index (_index (this s) - 1) s = Normal tt s' ∧
        index_decrement s = Normal (_index (this s)) s'.
Proof.
  intros Hels. unfold index_decrement, get_index. unfold mbind, M_bind, read.
  rewrite (set_index_run _ s els Hels). eexists. split; reflexivity.
Qed.

(** C9. While the transition lock is set, a click and a key press return
    at once and leave the state alone.  With the lock clear and the gallery
    in view, the right arrow (39) requests the index plus one and the left
    arrow (37) the index minus one, through the setter and so under its
    loop and rejection rules; the handler returns the old index and marks
    the event as handled.  Any other key leaves the state alone. *)
Theorem input_locked_and_keys s :
  (isTransitioning (this s) = Some true →
   (∀ e, handleControlsClick e s = Normal e s) ∧
   (∀ e, handleKeydown e s = Normal (e, None) s)) ∧
  (truthy_flag (isTransitioning (this s)) = false →
   boundingTop (page s) < innerHeight (page s) →
   boundingTop (page s) + boundingHeight (page s) > 0 →
   ∀ e,
     let handled := KeyboardEvent.stopImmediatePropagation
                      (KeyboardEvent.preventDefault e) in
     let old := _index (this s) in
     (KeyboardEvent.keyCode e ≠ 37 → KeyboardEvent.keyCode e ≠ 39 →
      handleKeydown e s = Normal (e, None) s) ∧
     ∀ els, elements (this s) = Some els →
       let N := Z.of_nat (length els) in
       let lp := loop (config (this s)) in
       (KeyboardEvent.keyCode e = 39 →
        ∃ s', set_index (old + 1) s = Normal tt s' ∧
              handleKeydown e s = Normal (handled, Some old) s' ∧
              _index (this s') = match spec_next N lp (old + 1) with
                                 | REJECT => old
                                 | Accept i => i
                                 end) ∧
       (KeyboardEvent.keyCode e = 37 →
        ∃ s', set_index (old - 1) s = Normal tt s' ∧
              handleKeydown e s = Normal (handled, Some old) s' ∧
              _index (this s') = match spec_next N lp (old - 1) with
                                 | REJECT => old
                                 | Accept i => i
                                 end)).
Proof.
  split.
  - intros Hlock. split; intros e.
    + unfold handleControlsClick. unfold mbind, M_bind at 1. unfold read at 1.
      by rewrite Hlock.
    + unfold handleKeydown. unfold mbind, M_bind at 1. unfold read at 1.
      by rewrite Hlock.
  - intros Hlock Htop Hbottom e handled old.
    assert (handleKeydown e s
            = (if negb (KeyboardEvent.keyCode e =? 37)
                  && negb (KeyboardEvent.keyCode e =? 39)
               then mret (e, None)
               else if KeyboardEvent.keyCode e =? 39
                    then old' ← index_increment; mret (handled, Some old')
                    else old' ← index_decrement; mret (handled, Some old')) s)
      as Hrun.
    { unfold handleKeydown. unfold mbind, M_bind at 1.
      unfold read at 1. rewrite Hlock.
      unfold mbind, M_bind at 1. unfold isInView.
      unfold mbind, M_bind at 1. unfold read at 1.
      replace (boundingTop (page s) >=? innerHeight (page s)) with false
        by (symmetry; rewrite Z.geb_leb; apply Z.leb_gt; lia).
      replace (boundingTop (page s) + boundingHeight (page s) <=? 0) with false
        by (symmetry; apply Z.leb_gt; lia).
      reflexivity. }
    split.
    + intros H37 H39. rewrite Hrun.
      apply Z.eqb_neq in H37, H39. by rewrite H37, H39.
    + intros els Hels N lp. split; intros Hkey; rewrite Hrun, Hkey; cbn.
      * destruct (index_increment_run s els Hels) as (s' & Hset & Hinc).
        exists s'. split; [done|]. unfold mbind, M_bind. rewrite Hinc.
        split; [done|].
        rewrite (set_index_run _ s els Hels) in Hset. injection Hset as <-.
        subst N lp. destruct (spec_next _ _ _); [done | apply accepted_index].
      * destruct (index_decrement_run s els Hels) as (s' & Hset & Hdec).
        exists s'. split; [done|]. unfold mbind, M_bind. rewrite Hdec.
        split; [done|].
        rewrite (set_index_run _ s els Hels) in Hset. injection Hset as <-.
        subst N lp. destruct (spec_next _ _ _); [done | apply accepted_index].
Qed.

Lemma input_locked_and_keys_witness :
  let g := gallery 3 (gallery_config true (Some 500) false) in
  let right := {| KeyboardEvent.keyCode := 39;
                  KeyboardEvent.defaultPrevented := false;
                  KeyboardEvent.propagationStopped := false |} in
  (∃ s', handleKeydown right g
         = Normal (KeyboardEvent.stopImmediatePropagation
                     (KeyboardEvent.preventDefault right), Some 0) s' ∧
         _index (this s') = 1 ∧ isTransitioning (this s') = Some true ∧
         handleKeydown right s' = Normal (right, None) s').
Proof.
  intros g right.
  destruct (input_locked_and_keys g) as [_ Hkeys].
  destruct (Hkeys ltac:(vm_compute; reflexivity) ltac:(vm_compute; reflexivity)
              ltac:(vm_compute; reflexivity) right) as [_ Hlive].
  destruct (Hlive [1; 2; 3]%nat ltac:(vm_compute; reflexivity)) as [Hright _].
  destruct (Hright eq_refl) as (s' & Hset & Hrun & Hi).
  exists s'. split; [exact Hrun|]. split; [exact Hi|].
  assert (Hs' : s' = final (set_index 1 g)).
  { change (set_index 1 g = Normal tt s') in Hset. rewrite Hset. reflexivity. }
  assert (Hl : isTransitioning (this s') = Some true)
    by (rewrite Hs'; vm_compute; reflexivity).
  split; [exact Hl|].
  destruct (input_locked_and_keys s') as [Hlocked _].
  destruct (Hlocked Hl) as [_ Hkey]. apply Hkey.
Defined.

(** ** The transition-lock timer *)

(** C4 on the code: the setter schedules the timer that clears the lock
    without cancelling the one it scheduled before.  Three slides,
    [transitionDuration] 500: the index is set at time 0 and again at time
    300.  Two clearing timers are then pending; the first fires at time 500
    and clears the lock that the second transition should hold until 800, so
    that a click on the next control at time 500 changes the slide in the
    middle of that transition. *)
Theorem transition_timers_stack :
  let g := gallery 3 (gallery_config true (Some 500) false) in
  let s1 := final (set_index 1 g) in
  let s2 := final (set_index 2 (elapse 300 s1)) in
  let click_next := {| MouseEvent.target := 202; MouseEvent.above := [0%nat];
                       MouseEvent.defaultPrevented := false |} in
  pending_of ClearTransition s2
    = [ {| timer_id := 1; callback := ClearTransition; due := 500 |};
        {| timer_id := 2; callback := ClearTransition; due := 800 |} ] ∧
  transitionTimeout (this s2) = HTimer 2 ∧
  isTransitioning (this s2) = Some true ∧
  ∃ s3, fire 1 (elapse 200 s2) = Some (Normal tt s3) ∧
        clock (page s3) = 500 ∧
        isTransitioning (this s3) = Some false ∧
        pending_of ClearTransition s3
          = [ {| timer_id := 2; callback := ClearTransition; due := 800 |} ] ∧
        _index (this s3) = 2 ∧
        ∃ s4, handleControlsClick click_next s3
              = Normal (MouseEvent.preventDefault click_next) s4 ∧
              _index (this s4) = 0.
Proof.
  intros g s1 s2 click_next. split; [vm_compute; reflexivity|].
  split; [vm_compute; reflexivity|]. split; [vm_compute; reflexivity|].
  eexists. split; [vm_compute; reflexivity|].
  split_and!; try (vm_compute; reflexivity).
  eexists. split; vm_compute; reflexivity.
Qed.

(** ** The destructor *)

Lemma forEach_from_unlisten k hs s :
  forEach_from k hs (λ handler _, removeEventListener handler) s
  = Normal tt (unlisten hs s).
Proof.
  revert k s. induction hs as [|h hs IH]; intros k s.
  - by destruct s as [o []].
  - cbn [forEach_from]. unfold mbind, M_bind at 1.
    unfold removeEventListener at 1, update_page. rewrite IH.
    by destruct s as [o []].
Qed.

Lemma remove_styleNode_run s n parent :
  styleNode (this s) = Some n →
  parentNode (page s) !! n = Some parent →
  remove_styleNode s = Normal tt {| this := this s; page := detach n (page s) |}.
Proof.
  intros Hn Hp. unfold remove_styleNode, removeChild. unfold_monad.
  rewrite Hn, Hp. by rewrite bool_decide_eq_true_2.
Qed.

Lemma unlisten_subset (ls hs : list Handler) (x : Handler) :
  x ∈ foldl (λ ls h, filter (λ h', h' ≠ h) ls) ls hs → x ∈ ls.
Proof.
  revert ls. induction hs as [|h hs IH]; intros ls; [done|]. cbn.
  intros Hx. apply IH, list_elem_of_filter in Hx. tauto.
Qed.

Lemma unlisten_removes (ls hs : list Handler) (h : Handler) :
  h ∈ hs → h ∉ foldl (λ ls h, filter (λ h', h' ≠ h) ls) ls hs.
Proof.
  revert ls. induction hs as [|a hs IH]; intros ls Hh; [set_solver|].
  cbn. apply elem_of_cons in Hh as [-> | Hh]; [|by apply IH].
  intros Hin. apply unlisten_subset, list_elem_of_filter in Hin. tauto.
Qed.

Lemma cancel_removes h p id :
  h = HTimer id → id ∉ timer_id <$> pending (cancel h p).
Proof.
  intros -> Hin. cbn in Hin. apply list_elem_of_fmap in Hin as (t & -> & Hin).
  apply list_elem_of_filter in Hin. tauto.
Qed.

Lemma cancel_subset h p t : t ∈ pending (cancel h p) → t ∈ pending p.
Proof.
  destruct h; cbn; [done..|]. rewrite list_elem_of_filter. tauto.
Qed.

Lemma destroy_run s n parent :
  styled n parent s → destroy s = Normal tt (destroyed n s).
Proof.
  intros [Hn Hp]. unfold destroy.
  run_step ltac:(reflexivity).
  run_step ltac:(apply stopAutoplay_run).
  run_step ltac:(reflexivity).
  run_step ltac:(apply clearTimeout_run).
  run_step ltac:(reflexivity).
  run_step ltac:(apply forEach_from_unlisten).
  run_step ltac:(reflexivity).
  run_step ltac:(apply (remove_styleNode_run _ n parent)).
  - reflexivity.
  - exact Hn.
  - cbn. unfold cancel.
    by destruct (transitionTimeout _), (autoplayTimeout (this s)).
Qed.

(** C5, as the code has it.  On a live controller, one whose style node is
    attached to a parent as [layout()] leaves it, [destroy()] completes: the
    autoplay handle is reset, the timers that the two handles name are no
    longer pending, the listeners that the controller registered are
    removed, [this.eventHandlers] is empty and the style node is detached. *)
Theorem destroy_live_completes s n parent :
  styled n parent s →
  ∃ s', destroy s = Normal tt s' ∧
        autoplayTimeout (this s') = HNull ∧
        (∀ id, autoplayTimeout (this s) = HTimer id ∨
               transitionTimeout (this s) = HTimer id →
               id ∉ timer_id <$> pending (page s')) ∧
        (∀ h, h ∈ eventHandlers (this s) → h ∉ listeners (page s')) ∧
        eventHandlers (this s') = [] ∧
        parentNode (page s') !! n = None.
Proof.
  intros Hlive. exists (destroyed n s).
  split; [by apply (destroy_run s n parent)|]. split; [done|].
  split; [|split; [|split]].
  - intros id Hid Hin. cbn in Hin.
    apply list_elem_of_fmap in Hin as (t & -> & Hin).
    destruct Hid as [Hid | Hid].
    + apply cancel_subset in Hin.
      apply (cancel_removes _ (page s) _ Hid). by apply list_elem_of_fmap_2.
    + apply (cancel_removes _ (cancel (autoplayTimeout (this s)) (page s)) _ Hid).
      by apply list_elem_of_fmap_2.
  - intros h Hh. cbn. by apply unlisten_removes.
  - done.
  - cbn. apply lookup_delete_eq.
Qed.

Lemma destroy_live_completes_witness :
  let g := gallery 3 (gallery_config true (Some 500) true) in
  layout (fresh_gallery 3 (gallery_config true (Some 500) true))
    = Normal tt g ∧
  ∃ s', destroy g = Normal tt s' ∧ eventHandlers (this s') = [] ∧
        pending (page s') = [] ∧ listeners (page s') = [].
Proof.
  intros g.
  assert (Hlayout : layout (fresh_gallery 3 (gallery_config true (Some 500) true))
                    = Normal tt g) by (vm_compute; reflexivity).
  split; [exact Hlayout|].
  destruct (layout_styled _ _ Hlayout) as [n Hn].
  destruct (destroy_live_completes g n _ Hn)
    as (s' & Hrun & _ & _ & _ & Hh & _).
  exists s'. split; [exact Hrun|]. split; [exact Hh|].
    assert (Hs' : s' = final (destroy g)) by (rewrite Hrun; reflexivity).
    rewrite Hs'. split; vm_compute; reflexivity.
Defined.

(** C5 as stated fails: on a controller that was never laid out
    [this.styleNode] is [undefined], and after a first [destroy()] the
    detached style node has no parent; in both cases [destroy()] throws a
    [TypeError] at its last statement. *)
Lemma destroy_throws_unless_live :
  let cfg := gallery_config true (Some 500) true in
  (∃ s1, destroy (gallery 3 cfg) = Normal tt s1 ∧
         ∃ s2, destroy s1
               = Throw (TypeError "this.styleNode.parentNode is null") s2) ∧
  (∃ s, destroy (fresh_gallery 3 cfg)
        = Throw (TypeError "this.styleNode is undefined") s).
Proof.
  intros cfg. split.
  - eexists. split; [vm_compute; reflexivity|].
    eexists. vm_compute. reflexivity.
  - eexists. vm_compute. reflexivity.
Qed.

(** ** The empty gallery *)

Lemma accepted_elements i s :
  elements (this (accepted i s)) = elements (this s).
Proof.
  unfold accepted.
  destruct (restarted_this_frame (locked (marked i (stored i s))))
    as (_ & -> & _).
  by destruct (locked_this_frame (marked i (stored i s))) as (_ & -> & _).
Qed.

(** C6, as the code has it.  With no slides and [loop] off every request is
    rejected: the setter returns the state it was given.  With [loop] set
    every request is accepted like any other: the stored index becomes 0
    for a request from 0 upwards and -1, the length minus one, for a
    negative one; the lock is set and its timer scheduled when
    [transitionDuration] is positive; and unless the pointer is over the
    gallery the autoplay timer that was pending is cancelled and, autoplay
    being enabled, a fresh one is scheduled.  Whatever [loop] is, the setter
    completes and marks no slide, there being none. *)
Theorem empty_gallery_requests s R :
  elements (this s) = Some [] →
  (loop (config (this s)) = false → set_index R s = Normal tt s) ∧
  (loop (config (this s)) = true → timers_allocated s →
   ∃ s', set_index R s = Normal tt s' ∧
     _index (this s') = (if 0 <=? R then 0 else -1) ∧
     (∀ d, transitionDuration (config (this s)) = Some d → d > 0 →
        isTransitioning (this s') = Some true ∧
        transitionTimeout (this s') = HTimer (next_timer (page s)) ∧
        {| timer_id := next_timer (page s); callback := ClearTransition;
           due := clock (page s) + d |} ∈ pending (page s')) ∧
     (truthy_flag (isInteracting (this s)) = false →
        (∀ id, autoplayTimeout (this s) = HTimer id →
               id ∉ timer_id <$> pending (page s')) ∧
        (autoplay_enabled (config (this s)) = true →
         ∃ id, autoplayTimeout (this s') = HTimer id ∧
               (next_timer (page s) ≤ id)%positive ∧
               {| timer_id := id; callback := AutoplayAdvance;
                  due := clock (page s)
                         + Z.max 0 (autoplay_delay (config (this s))) |}
                 ∈ pending (page s')))) ∧
  ∃ s', set_index R s = Normal tt s' ∧
        elements (this s') = Some [] ∧
        active_among s' (default [] (elements (this s'))) = [].
Proof.
  intros Hels. rewrite (set_index_run R s [] Hels). split_and!.
  - intros Hloop. unfold spec_next. rewrite Hloop. cbn [length].
    destruct (Z.gtb_spec R (Z.of_nat 0 - 1)) as [|Hle]; [done|].
    destruct (Z.ltb_spec R 0); [done|]. simpl in Hle. lia.
  - intros Hloop Hal.
    assert (spec_next (Z.of_nat (length (@nil nat))) (loop (config (this s))) R
            = Accept (if 0 <=? R then 0 else -1)) as ->.
    { unfold spec_next. rewrite Hloop. cbn [length].
      destruct (Z.gtb_spec R (Z.of_nat 0 - 1)) as [Hgt|Hle];
        destruct (Z.leb_spec 0 R) as [Hge|Hlt]; simpl in *; try done; try lia.
      destruct (Z.ltb_spec R 0); [done | lia]. }
    eexists. split; [done|]. split; [apply accepted_index|].
    exact (accepted_steps _ s Hal).
  - eexists. split; [done|].
    assert (elements (this match spec_next (Z.of_nat (length (@nil nat)))
                                 (loop (config (this s))) R with
                           | REJECT => s
                           | Accept i => accepted i s
                           end) = Some []) as ->; [|done].
    destruct (spec_next _ _ R); [done|]. by rewrite accepted_elements.
Qed.

Lemma empty_gallery_requests_witness :
  let g := gallery 0 (gallery_config false (Some 500) true) in
  let l := gallery 0 (gallery_config true (Some 500) true) in
  slide_count g = 0 ∧ set_index 0 g = Normal tt g ∧
  set_index (-1) g = Normal tt g ∧
  slide_count l = 0 ∧
  ∃ s', set_index (-1) l = Normal tt s' ∧ _index (this s') = -1 ∧
        isTransitioning (this s') = Some true ∧
        transitionTimeout (this s') = HTimer 2 ∧
        (1%positive ∉ (timer_id <$> pending (page s'))) ∧
        ∃ id, autoplayTimeout (this s') = HTimer id ∧ (2 ≤ id)%positive.
Proof.
  intros g l. split; [vm_compute; reflexivity|].
  split.
  { destruct (empty_gallery_requests g 0) as [Hnoop _].
    + vm_compute; reflexivity.
    + apply Hnoop. vm_compute; reflexivity. }
  split.
  { destruct (empty_gallery_requests g (-1)) as [Hnoop _].
    + vm_compute; reflexivity.
    + apply Hnoop. vm_compute; reflexivity. }
  split; [vm_compute; reflexivity|].
  destruct (empty_gallery_requests l (-1)) as (_ & Haccepted & _).
  { vm_compute; reflexivity. }
  destruct Haccepted as (s' & Hrun & Hi & Hlock & Hauto).
  { vm_compute; reflexivity. }
  { apply reachable_timer_inv, gallery_reachable. }
  exists s'. split; [exact Hrun|]. split; [exact Hi|].
  destruct (Hlock 500) as (Ht & Hh & _); [vm_compute; reflexivity | lia |].
  split; [exact Ht|]. split; [exact Hh|].
  destruct Hauto as [Hcancel Hfresh]; [vm_compute; reflexivity|].
  split; [apply Hcancel; vm_compute; reflexivity|].
  destruct Hfresh as (id & Hid & Hge & _); [vm_compute; reflexivity|].
  exists id. split; [exact Hid | exact Hge].
Defined.

(** C6 as stated fails when [loop] is set: with no slides the request -1 is
    accepted, stores -1 and schedules both timers; so does a request for the
    current index 0, which sets the lock. *)
Lemma empty_gallery_accepts_when_looping :
  let g := gallery 0 (gallery_config true (Some 500) true) in
  slide_count g = 0 ∧ _index (this g) = 0 ∧
  isTransitioning (this g) = None ∧
  pending (page g)
    = [ {| timer_id := 1; callback := AutoplayAdvance; due := 1000 |} ] ∧
  (∃ s', set_index (-1) g = Normal tt s' ∧ _index (this s') = -1 ∧
         isTransitioning (this s') = Some true ∧
         pending (page s')
           = [ {| timer_id := 2; callback := ClearTransition; due := 500 |};
               {| timer_id := 3; callback := AutoplayAdvance; due := 1000 |} ]) ∧
  (∃ s', set_index 0 g = Normal tt s' ∧
         isTransitioning (this s') = Some true ∧
         transitionTimeout (this s') = HTimer 2).
Proof.
  intros g. split_and!; try (vm_compute; reflexivity).
  - eexists. split; [vm_compute; reflexivity|].
    split_and!; vm_compute; reflexivity.
  - eexists. split; [vm_compute; reflexivity|].
    split_and!; vm_compute; reflexivity.
Qed.

(** * Further properties of the class *)

(** ** Control resolution: [findAncestor] *)

Lemma findAncestor_walk_run sels target above s :
  let chain := target :: above in
  let root := rootNode (this s) in
  match findAncestor_walk sels target above s with
  | Normal x s' =>
      s' = s ∧
      (match_some (page s) sels x = true ∨ x = root) ∧
      ∃ k, chain !! k = Some x ∧
           ∀ j y, (j < k)%nat → chain !! j = Some y →
                  match_some (page s) sels y = false ∧ y ≠ root
  | Throw _ s' =>
      s' = s ∧
      ∀ y, y ∈ chain → match_some (page s) sels y = false ∧ y ≠ root
  end.
Proof.
  revert target. induction above as [|parent above IH]; intros target;
    cbn [findAncestor_walk]; unfold mbind, M_bind, read;
    destruct (match_some (page s) sels target) eqn:Em; cbn [negb andb].
  - split; [done|]. split; [by left|]. exists 0%nat. split; [done|]. lia.
  - case_bool_decide as Er; cbn [negb].
    + split; [done|]. split; [by right|]. exists 0%nat. split; [done|]. lia.
    + split; [done|]. intros y Hy. apply list_elem_of_singleton in Hy.
      by subst y.
  - split; [done|]. split; [by left|]. exists 0%nat. split; [done|]. lia.
  - case_bool_decide as Er; cbn [negb].
    + split; [done|]. split; [by right|]. exists 0%nat. split; [done|]. lia.
    + specialize (IH parent).
      destruct (findAncestor_walk sels parent above s) as [x s'|e s'].
      * destruct IH as (-> & Hx & k & Hk & Hbefore).
        split; [done|]. split; [done|]. exists (S k). split; [done|].
        intros [|j] y Hj Hy.
        -- injection Hy as <-. done.
        -- apply (Hbefore j); [lia | done].
      * destruct IH as (-> & Hnone). split; [done|]. intros y Hy.
        apply elem_of_cons in Hy as [-> | Hy]; [done | by apply Hnone].
Qed.

(** X1. [findAncestor] resolves a click to the nearest node, from the target
    upwards, that matches one of the selectors, provided that node lies
    below the root: the first match wins.  When the walk meets the root
    first the result is [null], even if the root itself matches.  It throws
    only when the chain above the target ends without a match and without
    the root.  It never changes the state. *)
Theorem findAncestor_nearest s target above sels :
  let chain := target :: above in
  let root := rootNode (this s) in
  let unmatched_before k :=
    ∀ j y, (j < k)%nat → chain !! j = Some y →
           match_some (page s) sels y = false ∧ y ≠ root in
  match findAncestor target above sels s with
  | Normal (Some x) s' =>
      s' = s ∧ x ≠ root ∧ match_some (page s) sels x = true ∧
      ∃ k, chain !! k = Some x ∧ unmatched_before k
  | Normal None s' =>
      s' = s ∧ ∃ k, chain !! k = Some root ∧ unmatched_before k
  | Throw _ s' =>
      s' = s ∧
      ∀ y, y ∈ chain → match_some (page s) sels y = false ∧ y ≠ root
  end.
Proof.
  intros chain root unmatched_before. unfold findAncestor.
  pose proof (findAncestor_walk_run sels target above s) as Hwalk.
  unfold mbind, M_bind.
  destruct (findAncestor_walk sels target above s) as [x s'|e s'];
    cbn zeta in Hwalk; [|done].
  destruct Hwalk as (-> & Hx & k & Hk & Hbefore). unfold read.
  case_bool_decide as Er; unfold mret, M_ret.
  - split; [done|]. exists k. split; [|done]. unfold root. by rewrite <- Er.
  - split; [done|]. split; [done|]. split; [by destruct Hx|]. by exists k.
Qed.

(** ** Control resolution: the click handler *)

Lemma findAncestor_at_root s target above sels k :
  (target :: above) !! k = Some (rootNode (this s)) →
  (∀ j y, (j < k)%nat → (target :: above) !! j = Some y →
          match_some (page s) sels y = false ∧ y ≠ rootNode (this s)) →
  findAncestor target above sels s = Normal None s.
Proof.
  intros Hk Hbefore. unfold findAncestor.
  pose proof (findAncestor_walk_run sels target above s) as H. cbn zeta in H.
  unfold mbind, M_bind.
  destruct (findAncestor_walk sels target above s) as [x s'|e s'].
  - destruct H as (-> & Hx & k' & Hk' & Hbefore'). unfold read.
    destruct (Nat.lt_trichotomy k' k) as [Hlt | [-> | Hgt]].
    + destruct (Hbefore k' x Hlt Hk') as [Hno Hne].
      destruct Hx; congruence.
    + assert (x = rootNode (this s)) as -> by congruence.
      by rewrite bool_decide_eq_true_2.
    + by destruct (Hbefore' k _ Hgt Hk) as [_ Hne].
  - destruct H as [_ Hnone].
    by destruct (Hnone _ (list_elem_of_lookup_2 _ _ _ Hk)) as [_ Hne].
Qed.

(** The handler once the lock is clear and the controls are configured. *)
Lemma handleControlsClick_unlocked s c e :
  truthy_flag (isTransitioning (this s)) = false →
  controls (config (this s)) = Some c →
  handleControlsClick e s
  = (found ← findAncestor (MouseEvent.target e) (MouseEvent.above e)
                          (Object_values c);
     match found with
     | None => mret e
     | Some target =>
         let e' := MouseEvent.preventDefault e in
         p ← read page;
         if matches_key p target (Controls.previous c) then
           index_decrement ;; mret e'
         else if matches_key p target (Controls.next c) then
           index_increment ;; mret e'
         else if matches_key p target (Controls.indicators c) then
           inds ← this_indicators;
           forEach inds (λ el i, if bool_decide (target = el)
                                 then set_index (Z.of_nat i)
                                 else mret tt) ;;
           mret e'
         else mret e'
     end) s.
Proof.
  intros Hlock Hc. unfold handleControlsClick.
  unfold mbind, M_bind at 1. unfold read at 1. rewrite Hlock.
  unfold mbind, M_bind at 1. unfold read at 1. by rewrite Hc.
Qed.

Lemma handleControlsClick_found s c e t :
  truthy_flag (isTransitioning (this s)) = false →
  controls (config (this s)) = Some c →
  findAncestor (MouseEvent.target e) (MouseEvent.above e) (Object_values c) s
    = Normal (Some t) s →
  handleControlsClick e s
  = (let e' := MouseEvent.preventDefault e in
     if matches_key (page s) t (Controls.previous c) then
       index_decrement ;; mret e'
     else if matches_key (page s) t (Controls.next c) then
       index_increment ;; mret e'
     else if matches_key (page s) t (Controls.indicators c) then
       inds ← this_indicators;
       forEach inds (λ el i, if bool_decide (t = el)
                             then set_index (Z.of_nat i)
                             else mret tt) ;;
       mret e'
     else mret e') s.
Proof.
  intros Hlock Hc Hfound.
  rewrite (handleControlsClick_unlocked s c e Hlock Hc).
  unfold mbind, M_bind at 1. rewrite Hfound. cbn zeta.
  unfold mbind, M_bind at 1. unfold read at 1. reflexivity.
Qed.

(** X2. With the lock clear, a click that resolves to a node matching the
    previous selector requests the index minus one; one that matches the next
    selector (and not the previous one) requests the index plus one.  Both go
    through the setter, and the default action of the click is prevented. *)
Theorem click_previous_next s c e t els :
  truthy_flag (isTransitioning (this s)) = false →
  controls (config (this s)) = Some c →
  elements (this s) = Some els →
  findAncestor (MouseEvent.target e) (MouseEvent.above e) (Object_values c) s
    = Normal (Some t) s →
  (matches_key (page s) t (Controls.previous c) = true →
   ∃ s', set_index (_index (this s) - 1) s = Normal tt s' ∧
         handleControlsClick e s = Normal (MouseEvent.preventDefault e) s') ∧
  (matches_key (page s) t (Controls.previous c) = false →
   matches_key (page s) t (Controls.next c) = true →
   ∃ s', set_index (_index (this s) + 1) s = Normal tt s' ∧
         handleControlsClick e s = Normal (MouseEvent.preventDefault e) s').
Proof.
  intros Hlock Hc Hels Hfound.
  rewrite (handleControlsClick_found s c e t Hlock Hc Hfound). cbn zeta.
  split.
  - intros ->. destruct (index_decrement_run s els Hels) as (s' & Hset & Hdec).
    exists s'. split; [done|]. unfold mbind, M_bind. by rewrite Hdec.
  - intros -> ->. destruct (index_increment_run s els Hels) as (s' & Hset & Hinc).
    exists s'. split; [done|]. unfold mbind, M_bind. by rewrite Hinc.
Qed.

Lemma click_previous_next_witness :
  let g := gallery 3 (gallery_config true None false) in
  let e := {| MouseEvent.target := 201; MouseEvent.above := [0%nat];
              MouseEvent.defaultPrevented := false |} in
  ∃ s', handleControlsClick e g = Normal (MouseEvent.preventDefault e) s' ∧
        set_index (-1) g = Normal tt s'.
Proof.
  intros g e.
  destruct (click_previous_next g gallery_controls e 201%nat [1; 2; 3]%nat)
    as [Hprev _]; try (vm_compute; reflexivity).
  destruct Hprev as (s' & Hset & Hclick); [vm_compute; reflexivity|].
  exists s'. split; [exact Hclick | exact Hset].
Defined.

Lemma forEach_from_miss (t : nat) j (l : list nat) s :
  t ∉ l →
  forEach_from j l (λ el i, if bool_decide (t = el)
                            then set_index (Z.of_nat i) else mret tt) s
  = Normal tt s.
Proof.
  revert j. induction l as [|a l IH]; intros j Ht; [done|].
  cbn [forEach_from]. rewrite bool_decide_eq_false_2 by set_solver.
  unfold mbind, M_bind, mret at 1, M_ret at 1. apply IH. set_solver.
Qed.

Lemma forEach_from_jump (t : nat) j k (l : list nat) s :
  NoDup l → l !! k = Some t →
  final (forEach_from j l (λ el i, if bool_decide (t = el)
                                   then set_index (Z.of_nat i) else mret tt) s)
  = final (set_index (Z.of_nat (j + k)) s) ∧
  (∀ s', set_index (Z.of_nat (j + k)) s = Normal tt s' →
         forEach_from j l (λ el i, if bool_decide (t = el)
                                   then set_index (Z.of_nat i) else mret tt) s
         = Normal tt s').
Proof.
  revert j k. induction l as [|a l IH]; intros j k Hnd Hk; [done|].
  apply NoDup_cons in Hnd as [Ha Hnd]. cbn [forEach_from]. destruct k as [|k].
  - injection Hk as ->. rewrite bool_decide_eq_true_2 by done.
    rewrite Nat.add_0_r. unfold mbind, M_bind.
    destruct (set_index (Z.of_nat j) s) as [[] s1|e s1].
    + rewrite forEach_from_miss by done. split; [done|]. by intros s' [= <-].
    + split; [done|]. by intros s' [=].
  - simpl in Hk.
    assert (t ≠ a) by (intros ->; apply Ha; by eapply list_elem_of_lookup_2).
    rewrite bool_decide_eq_false_2 by done.
    unfold mbind, M_bind, mret at 1, M_ret at 1.
    replace (j + S k)%nat with (S j + k)%nat by lia. by apply IH.
Qed.

(** X3. With the lock clear, a click that resolves to the indicator at
    position [k] (a node matching the indicator selector and neither the
    previous nor the next one) requests the index [k] through the setter;
    the other indicators of the pass request nothing. *)
Theorem click_indicator_jumps s c e t els inds k :
  truthy_flag (isTransitioning (this s)) = false →
  controls (config (this s)) = Some c →
  elements (this s) = Some els →
  findAncestor (MouseEvent.target e) (MouseEvent.above e) (Object_values c) s
    = Normal (Some t) s →
  matches_key (page s) t (Controls.previous c) = false →
  matches_key (page s) t (Controls.next c) = false →
  matches_key (page s) t (Controls.indicators c) = true →
  indicators (this s) = Some inds → NoDup inds → inds !! k = Some t →
  ∃ s', set_index (Z.of_nat k) s = Normal tt s' ∧
        handleControlsClick e s = Normal (MouseEvent.preventDefault e) s'.
Proof.
  intros Hlock Hc Hels Hfound Hp Hn Hi Hinds Hnd Hk.
  rewrite (handleControlsClick_found s c e t Hlock Hc Hfound). cbn zeta.
  rewrite Hp, Hn, Hi.
  unfold mbind, M_bind at 1. unfold this_indicators. rewrite Hinds.
  rewrite (set_index_run _ s els Hels). eexists. split; [done|].
  unfold mbind, M_bind, forEach.
  destruct (forEach_from_jump t 0 k inds s Hnd Hk) as [_ Hrun].
  rewrite (Hrun _ (set_index_run _ s els Hels)). done.
Qed.

Lemma click_indicator_jumps_witness :
  let g := gallery 3 (gallery_config true None false) in
  let e := {| MouseEvent.target := 103; MouseEvent.above := [0%nat];
              MouseEvent.defaultPrevented := false |} in
  ∃ s', handleControlsClick e g = Normal (MouseEvent.preventDefault e) s' ∧
        _index (this s') = 2.
Proof.
  intros g e.
  destruct (click_indicator_jumps g gallery_controls e 103%nat [1; 2; 3]%nat
              [101; 102; 103]%nat 2)
    as (s' & Hset & Hclick); try (vm_compute; reflexivity).
  - apply (bool_decide_unpack _). vm_compute. reflexivity.
  - exists s'. split; [exact Hclick|].
    change (set_index 2 g = Normal tt s') in Hset.
    assert (Hs' : s' = final (set_index 2 g)) by (rewrite Hset; reflexivity).
    rewrite Hs'. vm_compute. reflexivity.
Defined.

(** X4. With the lock clear, a click whose target is the root, or lies below
    the root with no control between the two, is ignored: the state is
    unchanged and the default action of the click is not prevented. *)
Theorem click_outside_controls s c e k :
  truthy_flag (isTransitioning (this s)) = false →
  controls (config (this s)) = Some c →
  (MouseEvent.target e :: MouseEvent.above e) !! k = Some (rootNode (this s)) →
  (∀ j y, (j < k)%nat →
          (MouseEvent.target e :: MouseEvent.above e) !! j = Some y →
          match_some (page s) (Object_values c) y = false ∧
          y ≠ rootNode (this s)) →
  handleControlsClick e s = Normal e s.
Proof.
  intros Hlock Hc Hk Hbefore.
  rewrite (handleControlsClick_unlocked s c e Hlock Hc).
  unfold mbind, M_bind.
  by rewrite (findAncestor_at_root s _ _ _ k Hk Hbefore).
Qed.

Lemma click_outside_controls_witness :
  let g := gallery 3 (gallery_config true None false) in
  let e := {| MouseEvent.target := 2; MouseEvent.above := [0%nat];
              MouseEvent.defaultPrevented := false |} in
  handleControlsClick e g = Normal e g.
Proof.
  intros g e.
  apply (click_outside_controls g gallery_controls e 1).
  - vm_compute; reflexivity.
  - vm_compute; reflexivity.
  - vm_compute; reflexivity.
  - intros [|j] y Hj Hy; [|lia]. injection Hy as <-.
    split; [vm_compute; reflexivity | vm_compute; discriminate].
Defined.

(** ** The index stays in bounds *)

Lemma bounds_frame els s s' :
  _index (this s') = _index (this s) →
  elements (this s') = elements (this s) →
  in_bounds els s → in_bounds els s'.
Proof. unfold in_bounds. by intros -> ->. Qed.

Lemma bounds_update_this els f :
  (∀ o, _index (f o) = _index o) → (∀ o, elements (f o) = elements o) →
  preserves (in_bounds els) (update_this f).
Proof. intros Hi He s. apply bounds_frame; cbn; by rewrite ?Hi, ?He. Qed.

Lemma bounds_update_page els f : preserves (in_bounds els) (update_page f).
Proof. intros s. by apply bounds_frame. Qed.

Lemma bounds_setTimeout els cb ms : preserves (in_bounds els) (setTimeout cb ms).
Proof. intros s. by apply bounds_frame. Qed.

Lemma bounds_this_elements els : preserves (in_bounds els) this_elements.
Proof. intros s H. unfold this_elements. by destruct (elements (this s)). Qed.

Lemma bounds_this_indicators els : preserves (in_bounds els) this_indicators.
Proof. intros s H. unfold this_indicators. by destruct (indicators (this s)). Qed.

(** The setter stores nothing but the position of a slide. *)
Lemma bounds_set_index els R : preserves (in_bounds els) (set_index R).
Proof.
  intros s [Hels Hi]. rewrite (set_index_run R s els Hels).
  unfold spec_next. cbn [final].
  destruct (Z.gtb_spec R (Z.of_nat (length els) - 1));
    [|destruct (Z.ltb_spec R 0)]; destruct (loop (config (this s)));
    try done;
    (split; [by rewrite accepted_elements | rewrite accepted_index; lia]).
Qed.

#[global] Hint Resolve bounds_update_page bounds_setTimeout
  bounds_this_elements bounds_this_indicators bounds_set_index : preserves.

Ltac bounds_go :=
  repeat first
    [ solve [eauto with preserves]
    | apply preserves_bind; [| intros ?]
    | apply preserves_ret
    | apply preserves_read
    | apply preserves_throw
    | apply preserves_forEach; intros ? ?
    | solve [apply bounds_update_this; intros []; reflexivity]
    | match goal with
      | |- preserves _ (if ?b then _ else _) => destruct b
      | |- preserves _ (match ?x with _ => _ end) => destruct x
      end ].

Lemma bounds_findAncestor_walk els sels target above :
  preserves (in_bounds els) (findAncestor_walk sels target above).
Proof.
  revert target. induction above as [|parent above IH]; intros target;
    cbn [findAncestor_walk]; bounds_go.
Qed.
#[global] Hint Resolve bounds_findAncestor_walk : preserves.

(** X5. Once the stored index names a slide it keeps doing so, whatever
    happens to the controller short of a new [layout()]: assignments to the
    index (accepted or rejected), clicks, key presses, pointer events, timers
    firing and [destroy()] leave the index within [0, N-1] and the slides as
    they are. *)
Theorem index_stays_in_bounds els c s :
  c ≠ CallLayout → in_bounds els s → in_bounds els (perform c s).
Proof.
  intros Hc Hb. destruct c; cbn [perform]; try done.
  - revert s Hb. change (preserves (in_bounds els) destroy).
    unfold destroy, beforeDestroy, afterDestroy, stopAutoplay, clearTimeout,
      remove_styleNode, removeChild, removeEventListener.
    bounds_go.
  - by apply bounds_set_index.
  - revert s Hb. change (preserves (in_bounds els) startAutoplay).
    unfold startAutoplay. bounds_go.
  - revert s Hb. change (preserves (in_bounds els) stopAutoplay).
    unfold stopAutoplay, clearTimeout. bounds_go.
  - revert s Hb. change (preserves (in_bounds els) (handleControlsClick e)).
    unfold handleControlsClick, findAncestor, index_increment,
      index_decrement, get_index.
    bounds_go.
  - revert s Hb. change (preserves (in_bounds els) (handleKeydown e)).
    unfold handleKeydown, isInView, index_increment, index_decrement,
      get_index.
    bounds_go.
  - revert s Hb. change (preserves (in_bounds els) handleMouseover).
    unfold handleMouseover, classList_add, classList_toggle, stopAutoplay,
      clearTimeout.
    bounds_go.
  - revert s Hb. change (preserves (in_bounds els) (handleMouseout None)).
    unfold handleMouseout, classList_remove, classList_toggle,
      executeCallback, console_error, startAutoplay.
    bounds_go.
  - revert s Hb. change (preserves (in_bounds els) (handleResize None)).
    unfold handleResize, loadImages. bounds_go.
  - unfold fire. destruct (list_find _ _) as [[? t]|]; [|done].
    destruct (_ <=? _); [|done]. cbn.
    assert (preserves (in_bounds els)
              (clearTimeout (HTimer id) ;; run_callback (callback t))) as Hp.
    { unfold clearTimeout, run_callback, index_increment, get_index.
      bounds_go. }
    by apply Hp.
Qed.

Lemma index_stays_in_bounds_witness :
  let g := gallery 3 (gallery_config true (Some 500) true) in
  in_bounds [1; 2; 3]%nat g ∧
  in_bounds [1; 2; 3]%nat (perform (CallSetIndex 7) g) ∧
  in_bounds [1; 2; 3]%nat (perform (Fire 1) (perform (Elapse 1000) g)).
Proof.
  intros g.
  assert (Hg : in_bounds [1; 2; 3]%nat g)
    by (split; [vm_compute; reflexivity | vm_compute; split; discriminate]).
  split; [exact Hg|]. split.
  - apply index_stays_in_bounds; [discriminate | exact Hg].
  - apply index_stays_in_bounds; [discriminate|].
    apply index_stays_in_bounds; [discriminate | exact Hg].
Defined.

(** ** The setter touches nothing but the active marker *)

Lemma toggle_other (tok' tok : string) force l :
  tok' ≠ tok → tok' ∈ toggle tok force l ↔ tok' ∈ l.
Proof.
  intros Hne. unfold toggle. destruct force.
  - case_bool_decide; [done|]. rewrite elem_of_app, list_elem_of_singleton.
    tauto.
  - rewrite list_elem_of_filter. tauto.
Qed.

Lemma mark_from_tokens_other k l index cl n (tok : string) :
  tok ≠ activeClassname →
  tok ∈ tokens (mark_from k l index cl) n ↔ tok ∈ tokens cl n.
Proof.
  intros Hne. revert k cl. induction l as [|el l IH]; intros k cl; [done|].
  cbn [mark_from]. rewrite IH. unfold tokens at 1.
  destruct (decide (el = n)) as [-> | Hn].
  - rewrite lookup_insert_eq. cbn. by apply toggle_other.
  - by rewrite lookup_insert_ne.
Qed.

(** X6. Assigning the index changes class lists only by adding or removing
    the token [active], and only on slides and indicators: every other token
    of every node stays, and the class list of a node that is neither a slide
    nor an indicator is untouched. *)
Theorem set_index_touches_only_active s els R :
  elements (this s) = Some els →
  ∃ s', set_index R s = Normal tt s' ∧
        (∀ n tok, tok ≠ activeClassname →
                  tok ∈ classes (page s') n ↔ tok ∈ classes (page s) n) ∧
        (∀ n, n ∉ els → n ∉ default [] (indicators (this s)) →
              classes (page s') n = classes (page s) n).
Proof.
  intros Hels. rewrite (set_index_run R s els Hels). eexists. split; [done|].
  destruct (spec_next _ _ R) as [|i]; [done|]. unfold classes.
  rewrite accepted_classList. unfold marked. rewrite Hels. cbn. split.
  - intros n tok Hne.
    destruct (indicators (this s)); by rewrite !mark_from_tokens_other.
  - intros n Hn Hi.
    destruct (indicators (this s)); cbn in Hi; by rewrite !mark_from_other.
Qed.

Lemma set_index_touches_only_active_witness :
  let g := gallery 3 (gallery_config true None false) in
  ∃ s', set_index 1 g = Normal tt s' ∧
        classes (page s') 0%nat = classes (page g) 0%nat ∧
        classes (page g) 0%nat = ["gallery-root"].
Proof.
  intros g.
  destruct (set_index_touches_only_active g [1; 2; 3]%nat 1)
    as (s' & Hrun & _ & Hother); [vm_compute; reflexivity|].
  exists s'. split; [exact Hrun|]. split; [|vm_compute; reflexivity].
  apply Hother.
  - vm_compute. intros H. by repeat (apply elem_of_cons in H as [H|H];
      [discriminate H|]); apply elem_of_nil in H.
  - vm_compute. intros H. by repeat (apply elem_of_cons in H as [H|H];
      [discriminate H|]); apply elem_of_nil in H.
Defined.

(** ** Keys that are ignored *)

(** X7. A key press changes the state of the controller only if the
    transition lock is clear, the gallery is in view and the key is one of
    the two arrows; otherwise the handler also leaves the event alone and
    returns nothing. *)
Theorem keydown_guards (e : KeyboardEvent.t) (s : State) :
  truthy_flag (isTransitioning (this s)) = true ∨
  boundingTop (page s) >= innerHeight (page s) ∨
  boundingTop (page s) + boundingHeight (page s) <= 0 ∨
  (KeyboardEvent.keyCode e ≠ 37 ∧ KeyboardEvent.keyCode e ≠ 39) →
  handleKeydown e s = Normal (e, None) s.
Proof.
  intros Hguard. unfold handleKeydown.
  unfold mbind, M_bind at 1. unfold read at 1.
  destruct (truthy_flag _) eqn:Hlock; [done|].
  unfold mbind, M_bind at 1. unfold isInView.
  unfold mbind, M_bind at 1. unfold read at 1.
  destruct (Z.geb_spec (boundingTop (page s)) (innerHeight (page s)));
    [done|].
  destruct (Z.leb_spec (boundingTop (page s) + boundingHeight (page s)) 0);
    [done|].
  cbn. destruct Hguard as [? | [? | [? | [H37 H39]]]]; [done | lia | lia |].
  apply Z.eqb_neq in H37, H39. by rewrite H37, H39.
Qed.

Lemma keydown_guards_witness :
  let g := gallery 3 (gallery_config true None false) in
  let below := {| this := this g;
                  page := {| classList := classList (page g);
                             parentNode := parentNode (page g);
                             descendants := descendants (page g);
                             selectors := selectors (page g);
                             pending := pending (page g);
                             next_timer := next_timer (page g);
                             clock := clock (page g);
                             listeners := listeners (page g);
                             fresh := fresh (page g);
                             innerHeight := 800;
                             boundingTop := 900;
                             boundingHeight := 400;
                             touch := false;
                             console := [] |} |} in
  let right := {| KeyboardEvent.keyCode := 39;
                  KeyboardEvent.defaultPrevented := false;
                  KeyboardEvent.propagationStopped := false |} in
  handleKeydown right below = Normal (right, None) below.
Proof.
  intros g below right. apply keydown_guards. right. left. cbn. lia.
Defined.

(** ** Pointer over the gallery *)

Lemma pending_of_frame cb s s' :
  pending (page s') = pending (page s) → pending_of cb s' = pending_of cb s.
Proof. unfold pending_of. by intros ->. Qed.

(** Cancelling the timer that [this.autoplayTimeout] names leaves no
    autoplay timer pending. *)
Lemma cancel_tracked_autoplay s :
  autoplay_tracked s →
  filter (λ t, callback t = AutoplayAdvance)
         (pending (cancel (autoplayTimeout (this s)) (page s))) = [].
Proof.
  intros Htr. unfold autoplay_tracked in Htr. rewrite Forall_forall in Htr.
  apply filter_none. intros t Hin Hcb.
  pose proof (cancel_subset _ _ _ Hin) as Hin'.
  specialize (Htr t Hin' Hcb).
  apply (cancel_removes _ (page s) _ Htr). by apply list_elem_of_fmap_2.
Qed.

Lemma stopped_no_autoplay s :
  autoplay_tracked s → pending_of AutoplayAdvance (stopped s) = [].
Proof. intros Htr. unfold pending_of, stopped. cbn. by apply cancel_tracked_autoplay. Qed.

Lemma locked_pending_autoplay s :
  pending_of AutoplayAdvance (locked s) = pending_of AutoplayAdvance s.
Proof.
  unfold locked. destruct (truthy_number _); [|done].
  unfold pending_of. cbn. rewrite filter_app. cbn. by rewrite app_nil_r.
Qed.

Lemma handleMouseover_run s :
  ∃ s0, handleMouseover s = Normal tt (stopped s0) ∧
        this s0 = with_isInteracting (Some true) (this s) ∧
        pending (page s0) = pending (page s) ∧
        next_timer (page s0) = next_timer (page s) ∧
        clock (page s0) = clock (page s) ∧
        console (page s0) = console (page s).
Proof.
  unfold handleMouseover, classList_add, classList_toggle.
  unfold mbind, M_bind, update_this, update_page, read.
  rewrite stopAutoplay_run. eexists. split; [done|]. by cbn.
Qed.

(** X8. When the pointer enters the gallery, autoplay is suspended: no
    autoplay timer is left pending, and for as long as the pointer stays no
    assignment to the index schedules one. *)
Theorem hover_suspends_autoplay s els :
  timer_inv s → elements (this s) = Some els →
  ∃ s1, handleMouseover s = Normal tt s1 ∧
        isInteracting (this s1) = Some true ∧
        pending_of AutoplayAdvance s1 = [] ∧
        ∀ R, ∃ s2, set_index R s1 = Normal tt s2 ∧
                   isInteracting (this s2) = Some true ∧
                   pending_of AutoplayAdvance s2 = [].
Proof.
  intros [Hal Htr] Hels.
  destruct (handleMouseover_run s) as (s0 & Hrun & Hthis & Hpend & _).
  exists (stopped s0). split; [done|].
  assert (autoplay_tracked s0) as Htr0.
  { unfold autoplay_tracked. rewrite Hpend, Hthis. exact Htr. }
  assert (isInteracting (this (stopped s0)) = Some true) as Hint
    by (cbn; by rewrite Hthis).
  assert (pending_of AutoplayAdvance (stopped s0) = []) as Hnone
    by by apply stopped_no_autoplay.
  split; [done|]. split; [done|]. intros R.
  assert (elements (this (stopped s0)) = Some els) as Hels1
    by (cbn; by rewrite Hthis).
  rewrite (set_index_run R _ els Hels1). eexists. split; [done|].
  destruct (spec_next _ _ R) as [|i]; [done|].
  unfold accepted. set (m := marked i (stored i (stopped s0))).
  destruct (locked_this_frame m) as (_ & _ & _ & Hi & _).
  assert (isInteracting (this (locked m)) = Some true) as Hint'
    by (rewrite Hi; exact Hint).
  assert (restarted (locked m) = locked m) as ->
    by (unfold restarted; by rewrite Hint').
  split; [done|]. rewrite locked_pending_autoplay. exact Hnone.
Qed.

Lemma hover_suspends_autoplay_witness :
  let g := gallery 3 (gallery_config true (Some 500) true) in
  pending_of AutoplayAdvance g ≠ [] ∧
  ∃ s1, handleMouseover g = Normal tt s1 ∧
        pending_of AutoplayAdvance s1 = [] ∧
        ∃ s2, set_index 1 s1 = Normal tt s2 ∧
              pending_of AutoplayAdvance s2 = [].
Proof.
  intros g. split; [vm_compute; discriminate|].
  destruct (hover_suspends_autoplay g [1; 2; 3]%nat)
    as (s1 & Hrun & _ & Hnone & Hset).
  - apply reachable_timer_inv, gallery_reachable.
  - vm_compute; reflexivity.
  - exists s1. split; [exact Hrun|]. split; [exact Hnone|].
    destruct (Hset 1) as (s2 & Hrun2 & _ & Hnone2).
    exists s2. split; [exact Hrun2 | exact Hnone2].
Defined.

Lemma cancel_frame h p :
  clock (cancel h p) = clock p ∧ console (cancel h p) = console p ∧
  next_timer (cancel h p) = next_timer p.
Proof. by destruct h. Qed.

Lemma handleMouseout_none_run s :
  ∃ s0, handleMouseout None s = Normal tt (started s0) ∧
        this s0 = with_isInteracting (Some false) (this s) ∧
        pending (page s0) = pending (page s) ∧
        next_timer (page s0) = next_timer (page s) ∧
        clock (page s0) = clock (page s) ∧
        console (page s0) = console (page s) ++ ["Callback is not a function"].
Proof.
  unfold handleMouseout, classList_remove, classList_toggle, executeCallback,
    console_error.
  unfold mbind, M_bind, update_this, update_page, read.
  rewrite startAutoplay_run. eexists. split; [done|]. by cbn.
Qed.



(** ** Timers firing *)

Lemma NoDup_fmap_eq {A B} (f : A → B) (l : list A) x y :
  NoDup (f <$> l) → x ∈ l → y ∈ l → f x = f y → x = y.
Proof.
  induction l as [|a l IH]; [by intros _ ?%elem_of_nil|].
  rewrite fmap_cons, NoDup_cons. intros [Ha Hnd] Hx Hy Hf.
  apply elem_of_cons in Hx as [-> | Hx]; apply elem_of_cons in Hy as [-> | Hy].
  - done.
  - destruct Ha. rewrite Hf. by apply list_elem_of_fmap_2.
  - destruct Ha. rewrite <- Hf. by apply list_elem_of_fmap_2.
  - by apply IH.
Qed.

(** A pending timer fires when it is due, and not before. *)
Lemma fire_pending s t :
  NoDup (timer_id <$> pending (page s)) → t ∈ pending (page s) →
  fire (timer_id t) s
  = if due t <=? clock (page s)
    then Some ((clearTimeout (HTimer (timer_id t)) ;; run_callback (callback t)) s)
    else None.
Proof.
  intros Hnd Ht. unfold fire.
  destruct (list_find_elem_of (λ x, timer_id x = timer_id t)
              (pending (page s)) t Ht eq_refl) as [[i t'] Hfind].
  rewrite Hfind. apply list_find_Some in Hfind as (Hi & Hid & _).
  by rewrite (NoDup_fmap_eq timer_id _ t' t Hnd
                (list_elem_of_lookup_2 _ _ _ Hi) Ht Hid).
Qed.

Lemma elapse_frame ms s :
  this (elapse ms s) = this s ∧
  pending (page (elapse ms s)) = pending (page s) ∧
  clock (page (elapse ms s)) = clock (page s) + Z.max 0 ms.
Proof. done. Qed.

(** X10. After an accepted assignment with a positive
    [transitionDuration] [d] the lock is set, the timer that clears it cannot
    fire before [d] milliseconds have passed, and when it fires after [d]
    milliseconds the lock is clear again and the index is as the assignment
    left it. *)
Theorem lock_clears_after_duration s els R d :
  timer_inv s → elements (this s) = Some els →
  spec_next (Z.of_nat (length els)) (loop (config (this s))) R ≠ REJECT →
  transitionDuration (config (this s)) = Some d → d > 0 →
  ∃ s', set_index R s = Normal tt s' ∧
        isTransitioning (this s') = Some true ∧
        (∀ ms, ms < d → fire (next_timer (page s)) (elapse ms s') = None) ∧
        ∃ s'', fire (next_timer (page s)) (elapse d s') = Some (Normal tt s'') ∧
               isTransitioning (this s'') = Some false ∧
               _index (this s'') = _index (this s').
Proof.
  intros Hinv Hels Hacc Hd Hpos.
  pose proof (timers_set_index R s Hinv) as [(Hnd & _) _].
  rewrite (set_index_run R s els Hels) in Hnd |- *. cbn [final] in Hnd.
  destruct (spec_next _ _ R) as [|i]; [done|].
  exists (accepted i s). split; [done|].
  unfold accepted in *. set (m := marked i (stored i s)) in *.
  destruct (restarted_this_frame (locked m)) as (_ & _ & _ & Hlock & _).
  destruct (locked_truthy m d Hd Hpos) as (Ht & Hh & Hin).
  set (t := {| timer_id := next_timer (page m); callback := ClearTransition;
               due := clock (page m) + d |}) in *.
  assert (t ∈ pending (page (restarted (locked m)))) as Hin'.
  { apply restarted_keeps; [exact Hin|]. intros id Hid.
    destruct (locked_this_frame m) as (_ & _ & _ & _ & Hauto & _).
    rewrite Hauto in Hid. cbn in Hid.
    destruct Hinv as [(_ & _ & Ha & _) _]. rewrite Hid in Ha. cbn in *. lia. }
  assert (clock (page (restarted (locked m))) = clock (page s)) as Hclock.
  { unfold restarted, started, stopped, locked.
    destruct (negb (truthy_flag _)); destruct (truthy_number _); cbn;
      try done;
      destruct (_ || _); cbn; try done;
      by destruct (autoplayTimeout (this s)). }
  split; [by rewrite Hlock|]. split.
  - intros ms Hms.
    change (next_timer (page s)) with (timer_id t).
    rewrite fire_pending; [|done..]. cbn [due t].
    replace (clock (page (elapse ms (restarted (locked m)))))
      with (clock (page s) + Z.max 0 ms) by (cbn; by rewrite Hclock).
    change (clock (page m)) with (clock (page s)).
    destruct (Z.leb_spec (clock (page s) + d) (clock (page s) + Z.max 0 ms));
      [lia | done].
  - change (next_timer (page s)) with (timer_id t).
    rewrite fire_pending; [|done..]. cbn [due t].
    replace (clock (page (elapse d (restarted (locked m)))))
      with (clock (page s) + Z.max 0 d) by (cbn; by rewrite Hclock).
    change (clock (page m)) with (clock (page s)).
    destruct (Z.leb_spec (clock (page s) + d) (clock (page s) + Z.max 0 d));
      [|lia].
    eexists. split; [reflexivity|]. cbn. split; [done|].
    by destruct (restarted_this_frame (locked m)) as (-> & _).
Qed.

Lemma lock_clears_after_duration_witness :
  let g := gallery 3 (gallery_config true (Some 500) true) in
  ∃ s', set_index 1 g = Normal tt s' ∧
        isTransitioning (this s') = Some true ∧
        fire 2 (elapse 499 s') = None ∧
        ∃ s'', fire 2 (elapse 500 s') = Some (Normal tt s'') ∧
               isTransitioning (this s'') = Some false.
Proof.
  intros g.
  destruct (lock_clears_after_duration g [1; 2; 3]%nat 1 500)
    as (s' & Hrun & Hlock & Hearly & s'' & Hfire & Hclear & _).
  - apply reachable_timer_inv, gallery_reachable.
  - vm_compute; reflexivity.
  - vm_compute; discriminate.
  - vm_compute; reflexivity.
  - lia.
  - exists s'. split; [exact Hrun|]. split; [exact Hlock|].
    split; [apply (Hearly 499); lia|].
    exists s''. split; [exact Hfire | exact Hclear].
Defined.

(** ** The autoplay cycle *)

(** [stopAutoplay(); startAutoplay()] outside an interaction leaves exactly
    one autoplay timer, due a full delay from now. *)
Lemma restarted_single_autoplay s :
  timer_inv s →
  truthy_flag (isInteracting (this s)) = false →
  autoplay_enabled (config (this s)) = true →
  ∃ id, autoplayTimeout (this (restarted s)) = HTimer id ∧
        pending_of AutoplayAdvance (restarted s)
          = [ {| timer_id := id; callback := AutoplayAdvance;
                 due := clock (page s)
                        + Z.max 0 (autoplay_delay (config (this s))) |} ].
Proof.
  intros [_ Htr] Hint Hen. unfold restarted. rewrite Hint. cbn [negb].
  pose proof (stopped_no_autoplay s Htr) as Hnone.
  destruct (cancel_frame (autoplayTimeout (this s)) (page s)) as (Hclock & _).
  unfold started. cbn. rewrite Hen. cbn. eexists. split; [done|].
  unfold pending_of. cbn. rewrite filter_app.
  unfold pending_of, stopped in Hnone. cbn in Hnone. rewrite Hnone. cbn.
  by rewrite Hclock.
Qed.

Lemma marked_stored_inv i s : timer_inv s → timer_inv (marked i (stored i s)).
Proof. by apply timer_inv_frame. Qed.

(** The autoplay step of an accepted assignment. *)
Lemma accepted_single_autoplay i s :
  timer_inv s →
  truthy_flag (isInteracting (this s)) = false →
  autoplay_enabled (config (this s)) = true →
  ∃ id, autoplayTimeout (this (accepted i s)) = HTimer id ∧
        pending_of AutoplayAdvance (accepted i s)
          = [ {| timer_id := id; callback := AutoplayAdvance;
                 due := clock (page s)
                        + Z.max 0 (autoplay_delay (config (this s))) |} ].
Proof.
  intros Hinv Hint Hen. unfold accepted.
  set (m := marked i (stored i s)).
  destruct (locked_allocated m) as [Hal Htr]; [apply Hinv..|].
  destruct (locked_this_frame m) as (_ & _ & _ & Hi & _ & Hcfg & _).
  destruct (locked_facts m) as (_ & Hclock & _).
  destruct (restarted_single_autoplay (locked m)) as (id & Hh & Hp).
  - done.
  - by rewrite Hi.
  - by rewrite Hcfg.
  - exists id. split; [done|]. by rewrite Hp, Hclock, Hcfg.
Qed.

(** X11. Outside an interaction and with autoplay enabled, every accepted
    assignment to the index restarts the autoplay delay: afterwards exactly
    one autoplay timer is pending, it is the one the object holds, and it is
    due one full delay after the assignment. *)
Theorem accepted_index_restarts_autoplay s els R :
  timer_inv s → elements (this s) = Some els →
  spec_next (Z.of_nat (length els)) (loop (config (this s))) R ≠ REJECT →
  truthy_flag (isInteracting (this s)) = false →
  autoplay_enabled (config (this s)) = true →
  ∃ s' id, set_index R s = Normal tt s' ∧
           autoplayTimeout (this s') = HTimer id ∧
           pending_of AutoplayAdvance s'
             = [ {| timer_id := id; callback := AutoplayAdvance;
                    due := clock (page s)
                           + Z.max 0 (autoplay_delay (config (this s))) |} ].
Proof.
  intros Hinv Hels Hacc Hint Hen. rewrite (set_index_run R s els Hels).
  destruct (spec_next _ _ R) as [|i]; [done|].
  destruct (accepted_single_autoplay i s Hinv Hint Hen) as (id & Hh & Hp).
  by exists (accepted i s), id.
Qed.

Lemma accepted_index_restarts_autoplay_witness :
  let g := elapse 700 (gallery 3 (gallery_config true None true)) in
  pending_of AutoplayAdvance g
    = [ {| timer_id := 1; callback := AutoplayAdvance; due := 1000 |} ] ∧
  ∃ s', set_index 2 g = Normal tt s' ∧
        pending_of AutoplayAdvance s'
          = [ {| timer_id := 2; callback := AutoplayAdvance; due := 1700 |} ].
Proof.
  intros g. split; [vm_compute; reflexivity|].
  destruct (accepted_index_restarts_autoplay g [1; 2; 3]%nat 2)
    as (s' & id & Hrun & _ & _).
  - apply timers_elapse, reachable_timer_inv, gallery_reachable.
  - vm_compute; reflexivity.
  - vm_compute; discriminate.
  - vm_compute; reflexivity.
  - vm_compute; reflexivity.
  - exists s'. split; [exact Hrun|].
    assert (Hs' : s' = final (set_index 2 g)) by (rewrite Hrun; reflexivity).
    rewrite Hs'. vm_compute. reflexivity.
Defined.

(** The state in which the closure of a fired autoplay timer runs. *)
Lemma autoplay_timer_fires s t :
  timer_inv s → t ∈ pending (page s) → callback t = AutoplayAdvance →
  due t ≤ clock (page s) →
  ∃ c, fire (timer_id t) s = Some ((index_increment ;; mret tt) c) ∧
       this c = this s ∧ clock (page c) = clock (page s) ∧
       timer_inv c ∧ pending_of AutoplayAdvance c = [] ∧
       autoplayTimeout (this c) = HTimer (timer_id t).
Proof.
  intros Hinv Ht Hcb Hdue.
  pose proof Hinv as [(Hnd & _) Htr].
  unfold autoplay_tracked in Htr. rewrite Forall_forall in Htr.
  pose proof (Htr t Ht Hcb) as Hh.
  rewrite (fire_pending s t Hnd Ht).
  destruct (Z.leb_spec (due t) (clock (page s))); [|lia].
  unfold mbind, M_bind at 1. rewrite clearTimeout_run. rewrite Hcb.
  eexists. split; [reflexivity|]. cbn [this page].
  destruct (cancel_frame (HTimer (timer_id t)) (page s)) as (Hclock & _).
  split; [done|]. split; [done|]. split.
  - pose proof (timers_clearTimeout (HTimer (timer_id t)) s Hinv) as Hc.
    by rewrite clearTimeout_run in Hc.
  - split; [|done]. unfold pending_of. cbn [page]. rewrite <- Hh.
    apply cancel_tracked_autoplay. by destruct Hinv.
Qed.

(** X12. With [loop] set and the stored index naming a slide (as
    [layout()] leaves it, and as it stays short of a new [layout()]), when
    the autoplay timer fires outside an interaction the index advances by
    one slide, wrapping from the last to the first, and autoplay is
    scheduled again: exactly one autoplay timer is pending afterwards, due
    one delay later. *)
Theorem autoplay_advances_and_reschedules s els t :
  timer_inv s → in_bounds els s →
  loop (config (this s)) = true →
  autoplay_enabled (config (this s)) = true →
  truthy_flag (isInteracting (this s)) = false →
  t ∈ pending (page s) → callback t = AutoplayAdvance →
  due t ≤ clock (page s) →
  ∃ s' id,
    fire (timer_id t) s = Some (Normal tt s') ∧
    _index (this s') = (_index (this s) + 1) mod Z.of_nat (length els) ∧
    autoplayTimeout (this s') = HTimer id ∧
    pending_of AutoplayAdvance s'
      = [ {| timer_id := id; callback := AutoplayAdvance;
             due := clock (page s)
                    + Z.max 0 (autoplay_delay (config (this s))) |} ].
Proof.
  intros Hinv [Hels Hi] Hloop Hen Hint Ht Hcb Hdue.
  destruct (autoplay_timer_fires s t Hinv Ht Hcb Hdue)
    as (c & -> & Hthis & Hclock & Hinvc & _).
  assert (elements (this c) = Some els) as Helsc by by rewrite Hthis.
  set (N := Z.of_nat (length els)) in *.
  assert (spec_next N (loop (config (this c))) (_index (this c) + 1)
          = Accept ((_index (this s) + 1) mod N)) as Hnext.
  { rewrite Hthis, Hloop. unfold spec_next.
    destruct (Z.gtb_spec (_index (this s) + 1) (N - 1)).
    - replace (_index (this s) + 1) with N by lia.
      by rewrite Z.mod_same by lia.
    - destruct (Z.ltb_spec (_index (this s) + 1) 0); [lia|].
      by rewrite Z.mod_small by lia. }
  destruct (accepted_single_autoplay ((_index (this s) + 1) mod N) c)
    as (id & Hh & Hp); rewrite ?Hthis; try done.
  exists (accepted ((_index (this s) + 1) mod N) c), id.
  unfold index_increment, get_index. unfold mbind, M_bind, read.
  rewrite (set_index_run _ c els Helsc). fold N. rewrite Hnext. cbn.
  split; [done|]. split; [by rewrite accepted_index|]. split; [done|].
  by rewrite Hp, Hthis, Hclock.
Qed.

Lemma autoplay_advances_and_reschedules_witness :
  let g := elapse 1000 (final (set_index 2 (gallery 3 (gallery_config true None true)))) in
  _index (this g) = 2 ∧
  ∃ s', fire 2 g = Some (Normal tt s') ∧ _index (this s') = 0 ∧
        pending (page s')
          = [ {| timer_id := 3; callback := AutoplayAdvance; due := 2000 |} ].
Proof.
  intros g. split; [vm_compute; reflexivity|].
  destruct (autoplay_advances_and_reschedules g [1; 2; 3]%nat
              {| timer_id := 2; callback := AutoplayAdvance; due := 1000 |})
    as (s' & id & Hfire & _).
  - apply timers_elapse, timers_set_index, reachable_timer_inv,
      gallery_reachable.
  - split; [vm_compute; reflexivity | vm_compute; split; discriminate].
  - vm_compute; reflexivity.
  - vm_compute; reflexivity.
  - vm_compute; reflexivity.
  - vm_compute. apply list_elem_of_singleton. reflexivity.
  - reflexivity.
  - vm_compute. discriminate.
  - exists s'. split; [exact Hfire|].
    assert (Hs' : Some (Normal tt s') = fire 2 g) by (rewrite <- Hfire; reflexivity).
    assert (Hs'' : s' = from_option final g (fire 2 g)) by (rewrite <- Hs'; reflexivity).
    rewrite Hs''. split; vm_compute; reflexivity.
Defined.

(** A visit of the pointer, mouseover then mouseout, starts autoplay
    afresh, whatever handle the object held. *)
Lemma hover_cycle_restarts s :
  autoplay_tracked s → autoplay_enabled (config (this s)) = true →
  ∃ s1 s2 id,
    handleMouseover s = Normal tt s1 ∧
    handleMouseout None s1 = Normal tt s2 ∧
    autoplayTimeout (this s2) = HTimer id ∧
    pending_of AutoplayAdvance s2
      = [ {| timer_id := id; callback := AutoplayAdvance;
             due := clock (page s)
                    + Z.max 0 (autoplay_delay (config (this s))) |} ].
Proof.
  intros Htr Hen.
  destruct (handleMouseover_run s)
    as (s0 & Hrun & Hthis & Hpend & Hnext & Hclock & Hcons).
  assert (autoplay_tracked s0) as Htr0.
  { unfold autoplay_tracked. rewrite Hpend, Hthis. exact Htr. }
  pose proof (stopped_no_autoplay s0 Htr0) as Hnone.
  destruct (cancel_frame (autoplayTimeout (this s0)) (page s0))
    as (Hclock1 & Hcons1 & _).
  destruct (handleMouseout_none_run (stopped s0))
    as (s0' & Hrun' & Hthis' & Hpend' & Hnext' & Hclock' & Hcons').
  cbn in Hthis', Hclock', Hcons'. rewrite Hthis in Hthis'.
  exists (stopped s0), (started s0'), (next_timer (page s0')).
  split; [done|]. split; [done|].
  unfold started. rewrite Hthis'. cbn. rewrite Hen. cbn.
  split; [done|].
  unfold pending_of. cbn. rewrite filter_app, Hpend'.
  unfold pending_of in Hnone. rewrite Hnone. cbn.
  assert (clock (page s0') = clock (page s)) as -> by congruence. done.
Qed.

(** X13. With [loop] off, when the autoplay timer fires on the last slide
    the request is rejected and autoplay comes to a halt: no autoplay timer is
    pending, and because [this.autoplayTimeout] still holds the id of the
    timer that fired, [startAutoplay()] does nothing, also when the mouseout
    listener calls it with no mouseover before.  The halt lasts until
    [stopAutoplay()] resets the handle: with autoplay enabled, a visit of
    the pointer (mouseover, then mouseout) schedules one autoplay timer
    again, and so does an accepted assignment to the index outside an
    interaction. *)
Theorem autoplay_halts_at_last_slide s els t :
  timer_inv s → elements (this s) = Some els →
  _index (this s) = Z.of_nat (length els) - 1 →
  loop (config (this s)) = false →
  t ∈ pending (page s) → callback t = AutoplayAdvance →
  due t ≤ clock (page s) →
  ∃ s', fire (timer_id t) s = Some (Normal tt s') ∧
        _index (this s') = _index (this s) ∧
        pending_of AutoplayAdvance s' = [] ∧
        startAutoplay s' = Normal tt s' ∧
        pending_of AutoplayAdvance (final (handleMouseout None s')) = [] ∧
        autoplayTimeout (this s') = HTimer (timer_id t) ∧
        (autoplay_enabled (config (this s)) = true →
         (∃ s1 s2 id,
            handleMouseover s' = Normal tt s1 ∧
            handleMouseout None s1 = Normal tt s2 ∧
            autoplayTimeout (this s2) = HTimer id ∧
            pending_of AutoplayAdvance s2
              = [ {| timer_id := id; callback := AutoplayAdvance;
                     due := clock (page s)
                            + Z.max 0 (autoplay_delay (config (this s))) |} ]) ∧
         (truthy_flag (isInteracting (this s)) = false →
          ∀ R, 0 ≤ R ≤ Z.of_nat (length els) - 1 →
            ∃ s2 id,
              set_index R s' = Normal tt s2 ∧ _index (this s2) = R ∧
              autoplayTimeout (this s2) = HTimer id ∧
              pending_of AutoplayAdvance s2
                = [ {| timer_id := id; callback := AutoplayAdvance;
                       due := clock (page s)
                              + Z.max 0 (autoplay_delay
                                           (config (this s))) |} ])).
Proof.
  intros Hinv Hels Hi Hloop Ht Hcb Hdue.
  destruct (autoplay_timer_fires s t Hinv Ht Hcb Hdue)
    as (c & -> & Hthis & Hclock & Hinvc & Hnone & Hh).
  assert (elements (this c) = Some els) as Helsc by by rewrite Hthis.
  exists c. unfold index_increment, get_index. unfold mbind, M_bind, read.
  rewrite (set_index_run _ c els Helsc). rewrite Hthis, Hloop.
  assert (spec_next (Z.of_nat (length els)) false (_index (this s) + 1)
          = REJECT) as ->.
  { unfold spec_next. destruct (Z.gtb_spec (_index (this s) + 1)
                                  (Z.of_nat (length els) - 1)); [done | lia]. }
  cbn. split; [done|]. split; [done|]. split; [done|]. split.
  { rewrite startAutoplay_run. unfold started. rewrite Hh. cbn.
    by rewrite orb_true_r. }
  split.
  { destruct (handleMouseout_none_run c) as (s0 & -> & Hthis0 & Hpend0 & _).
    cbn [final]. unfold started. rewrite Hthis0. cbn. rewrite Hh. cbn.
    rewrite orb_true_r. unfold pending_of. rewrite Hpend0. exact Hnone. }
  split; [by rewrite <- Hthis|]. intros Hen. split.
  - destruct (hover_cycle_restarts c) as (s1 & s2 & id & Hover & Hout & Hid & Hp).
    + by destruct Hinvc.
    + by rewrite Hthis.
    + exists s1, s2, id. rewrite Hclock, Hthis in Hp. done.
  - intros Hint R HR.
    destruct (accepted_single_autoplay R c) as (id & Hid & Hp).
    + done.
    + by rewrite Hthis.
    + by rewrite Hthis.
    + exists (accepted R c), id. rewrite (set_index_run R c els Helsc).
      assert (spec_next (Z.of_nat (length els)) (loop (config (this c))) R
              = Accept R) as ->.
      { unfold spec_next.
        destruct (Z.gtb_spec R (Z.of_nat (length els) - 1)); [lia|].
        destruct (Z.ltb_spec R 0); [lia | done]. }
      split; [done|]. split; [apply accepted_index|]. split; [done|].
      by rewrite Hp, Hclock, Hthis.
Qed.

Lemma autoplay_halts_at_last_slide_witness :
  let g := elapse 1000 (final (set_index 2 (gallery 3 (gallery_config false None true)))) in
  ∃ s', fire 2 g = Some (Normal tt s') ∧ _index (this s') = 2 ∧
        pending_of AutoplayAdvance s' = [] ∧ startAutoplay s' = Normal tt s' ∧
        (∃ s1 s2, handleMouseover s' = Normal tt s1 ∧
                  handleMouseout None s1 = Normal tt s2 ∧
                  pending_of AutoplayAdvance s2
                    = [ {| timer_id := 3; callback := AutoplayAdvance;
                           due := 2000 |} ]) ∧
        (∃ s2, set_index 1 s' = Normal tt s2 ∧ _index (this s2) = 1 ∧
               pending_of AutoplayAdvance s2
                 = [ {| timer_id := 3; callback := AutoplayAdvance;
                        due := 2000 |} ]).
Proof.
  intros g.
  destruct (autoplay_halts_at_last_slide g [1; 2; 3]%nat
              {| timer_id := 2; callback := AutoplayAdvance; due := 1000 |})
    as (s' & Hfire & Hi & Hnone & Hstart & _ & _ & Hresume).
  - apply timers_elapse, timers_set_index, reachable_timer_inv,
      gallery_reachable.
  - vm_compute; reflexivity.
  - vm_compute; reflexivity.
  - vm_compute; reflexivity.
  - vm_compute. apply list_elem_of_singleton. reflexivity.
  - reflexivity.
  - vm_compute. discriminate.
  - destruct Hresume as [Hhover Hassign]; [vm_compute; reflexivity|].
    cbn [timer_id] in Hfire. pose proof Hfire as Hs'.
    vm_compute in Hs'. injection Hs' as Hs'. symmetry in Hs'.
    exists s'. split; [exact Hfire|].
    split; [rewrite Hi; vm_compute; reflexivity|].
    split; [exact Hnone|]. split; [exact Hstart|]. split.
    + destruct Hhover as (s1 & s2 & id & Hover & Hout & Hid & Hp).
      exists s1, s2. split; [exact Hover|]. split; [exact Hout|].
      rewrite Hp. f_equal.
      assert (HTimer id = HTimer 3) as [= ->]; [|vm_compute; reflexivity].
      rewrite <- Hid.
      assert (Hs1 : s1 = final (handleMouseover s'))
        by (rewrite Hover; reflexivity).
      assert (Hs2 : s2 = final (handleMouseout None s1))
        by (rewrite Hout; reflexivity).
      rewrite Hs2, Hs1, Hs'. vm_compute. reflexivity.
    + destruct (Hassign ltac:(vm_compute; reflexivity) 1 ltac:(simpl; lia))
        as (s2 & id & Hrun & Hidx & Hid & Hp).
      exists s2. split; [exact Hrun|]. split; [exact Hidx|].
      rewrite Hp. f_equal.
      assert (HTimer id = HTimer 3) as [= ->]; [|vm_compute; reflexivity].
      rewrite <- Hid.
      assert (Hs2 : s2 = final (set_index 1 s'))
        by (rewrite Hrun; reflexivity).
      rewrite Hs2, Hs'. vm_compute. reflexivity.
Defined.

(** ** The destructor, whether it completes or not *)

Lemma destroy_cleaning s :
  destroy s = (remove_styleNode ;; afterDestroy) (cleaned s).
Proof.
  unfold destroy.
  run_step ltac:(reflexivity).
  run_step ltac:(apply stopAutoplay_run).
  run_step ltac:(reflexivity).
  run_step ltac:(apply clearTimeout_run).
  run_step ltac:(reflexivity).
  run_step ltac:(apply forEach_from_unlisten).
  run_step ltac:(reflexivity).
  reflexivity.
Qed.

Lemma cleaned_frame s :
  styleNode (this (cleaned s)) = styleNode (this s) ∧
  parentNode (page (cleaned s)) = parentNode (page s).
Proof.
  unfold cleaned, cancel. cbn.
  by destruct (transitionTimeout _), (autoplayTimeout (this s)).
Qed.

(** X14. [destroy()] does its cleaning before the statement that can
    throw: whether it completes or not, afterwards the autoplay handle is
    reset, the timers that the two handles named are not pending, none of the
    listeners the controller registered is left and [this.eventHandlers] is
    empty.  It completes exactly when the style node is attached to a
    parent. *)
Theorem destroy_cleans_up_even_if_it_throws s :
  let s' := final (destroy s) in
  autoplayTimeout (this s') = HNull ∧
  eventHandlers (this s') = [] ∧
  (∀ h, h ∈ eventHandlers (this s) → h ∉ listeners (page s')) ∧
  (∀ id, autoplayTimeout (this s) = HTimer id ∨
         transitionTimeout (this s) = HTimer id →
         id ∉ timer_id <$> pending (page s')) ∧
  ((∃ s'', destroy s = Normal tt s'') ↔ ∃ n parent, styled n parent s).
Proof.
  assert (autoplayTimeout (this (cleaned s)) = HNull ∧
          eventHandlers (this (cleaned s)) = [] ∧
          (∀ h, h ∈ eventHandlers (this s) → h ∉ listeners (page (cleaned s))) ∧
          (∀ id, autoplayTimeout (this s) = HTimer id ∨
                 transitionTimeout (this s) = HTimer id →
                 id ∉ timer_id <$> pending (page (cleaned s))))
    as (Hh & Hev & Hls & Hts).
  { split; [done|]. split; [done|]. split.
    - intros h Hin. cbn. by apply unlisten_removes.
    - intros id Hid Hin. cbn in Hin.
      apply list_elem_of_fmap in Hin as (t & -> & Hin).
      destruct Hid as [Hid | Hid].
      + apply cancel_subset in Hin.
        apply (cancel_removes _ (page s) _ Hid). by apply list_elem_of_fmap_2.
      + apply (cancel_removes _ (cancel (autoplayTimeout (this s)) (page s))
                 _ Hid).
        by apply list_elem_of_fmap_2. }
  destruct (cleaned_frame s) as [Hsn Hpar].
  cbn zeta. rewrite destroy_cleaning.
  remember (cleaned s) as c eqn:Ec. clear Ec.
  unfold mbind, M_bind, remove_styleNode, removeChild, afterDestroy.
  unfold mbind, M_bind, read, throw, update_page, mret, M_ret.
  rewrite Hsn.
  destruct (styleNode (this s)) as [n|] eqn:En.
  - cbn beta iota. rewrite Hpar.
    destruct (parentNode (page s) !! n) as [parent|] eqn:Ep;
      cbn beta iota; rewrite ?Hpar, ?Ep.
    + rewrite bool_decide_eq_true_2 by done. cbn.
      split_and!; try done. split; [by exists n, parent | by eexists].
    + cbn. split_and!; try done. split; [by intros [? [=]]|].
      intros (n' & parent & [Hn' Hp']). congruence.
  - cbn. split_and!; try done. split; [by intros [? [=]]|].
    intros (n' & parent & [Hn' Hp']). congruence.
Qed.

(** X15. A destroyed controller cannot be laid out again: [destroy()]
    detaches the style node but keeps it in [this.styleNode], and the next
    [layout()] throws a [NotFoundError] when [setStyles()] tries to remove
    that node from the root. *)
Theorem layout_after_destroy_throws s n parent :
  styled n parent s →
  ∃ s1 s2, destroy s = Normal tt s1 ∧ layout s1 = Throw NotFoundError s2.
Proof.
  intros Hlive. exists (destroyed n s). rewrite (destroy_run s n parent Hlive).
  destruct Hlive as [Hn Hp].
  unfold layout, beforeLayout, setStyles, classList_add, classList_toggle,
    removeChild.
  unfold mbind, M_bind, read, throw, update_page, mret, M_ret. cbn.
  rewrite Hn. cbn. rewrite lookup_delete_eq.
  rewrite bool_decide_eq_false_2 by done. by eexists.
Qed.

Lemma layout_after_destroy_throws_witness :
  let g := gallery 3 (gallery_config true (Some 500) true) in
  ∃ s1 s2, destroy g = Normal tt s1 ∧ layout s1 = Throw NotFoundError s2.
Proof.
  intros g.
  destruct (layout_styled (fresh_gallery 3 (gallery_config true (Some 500) true))
              g) as [n Hn]; [vm_compute; reflexivity|].
  exact (layout_after_destroy_throws g n _ Hn).
Defined.

(** ** [layout()] *)

Lemma registering_frame cfg tch root i hs ls sigs s s' :
  config (this s') = config (this s) → touch (page s') = touch (page s) →
  rootNode (this s') = rootNode (this s) →
  _index (this s') = _index (this s) →
  eventHandlers (this s') = eventHandlers (this s) →
  listeners (page s') = listeners (page s) →
  registering cfg tch root i hs ls sigs s →
  registering cfg tch root i hs ls sigs s'.
Proof. unfold registering. by intros -> -> -> -> -> ->. Qed.

Lemma registering_on cfg tch root i hs ls sigs target ev cb :
  hoare (registering cfg tch root i hs ls sigs) (on target ev cb)
        (λ _, registering cfg tch root i hs ls (sigs ++ [(target, ev, cb)])).
Proof.
  intros s (Hc & Ht & Hr & Hi & new & Hh & Hl & Hs).
  unfold on, fresh_identity, addEventListener.
  unfold mbind, M_bind, read, update_this, update_page, mret, M_ret.
  eexists _, _. split; [done|]. unfold registering. cbn.
  split_and!; try done.
  eexists (new ++ [_]). rewrite Hh, Hl, !app_assoc. split_and!; try done.
  by rewrite fmap_app, Hs.
Qed.

(** [setupAutoplay()]. *)
Lemma registering_setupAutoplay cfg tch root i hs ls sigs :
  hoare (registering cfg tch root i hs ls sigs) setupAutoplay
    (λ _, registering cfg tch root i hs ls
            (sigs ++ if autoplay_enabled cfg && negb tch
                     then [(Node root, "mouseover", OnMouseover);
                           (Node root, "mouseout", OnMouseout)]
                     else [])).
Proof.
  intros s HR. pose proof HR as (Hc & Ht & Hr & _).
  unfold setupAutoplay. unfold mbind, M_bind at 1. unfold read at 1.
  rewrite Hc. destruct (autoplay_enabled cfg); cbn [negb andb].
  - unfold mbind, M_bind at 1. rewrite startAutoplay_run.
    assert (registering cfg tch root i hs ls sigs (started s)) as HR1.
    { revert HR. unfold started. destruct (_ || _); [done|].
      by apply registering_frame. }
    unfold mbind, M_bind at 1. unfold read at 1.
    assert (touch (page (started s)) = tch) as -> by apply HR1.
    destruct tch; cbn [negb].
    + eexists _, _. split; [done|]. by rewrite app_nil_r.
    + unfold mbind, M_bind at 1. unfold read at 1.
      assert (rootNode (this (started s)) = root) as -> by apply HR1.
      destruct (registering_on _ _ _ _ _ _ sigs (Node root) "mouseover"
                  OnMouseover _ HR1) as ([] & s2 & Hrun2 & HR2).
      destruct (registering_on _ _ _ _ _ _ _ (Node root) "mouseout"
                  OnMouseout _ HR2) as ([] & s3 & Hrun3 & HR3).
      exists tt, s3. unfold mbind, M_bind. rewrite Hrun2, Hrun3.
      split; [done|]. by rewrite <- app_assoc in HR3.
  - eexists _, _. split; [done|]. by rewrite app_nil_r.
Qed.

(** [setupControls()]. *)
Lemma registering_setupControls cfg tch root i hs ls sigs :
  hoare (registering cfg tch root i hs ls sigs) setupControls
    (λ _, registering cfg tch root i hs ls
            (sigs ++ match controls cfg with
                     | Some _ => [(Node root, "click", OnClick)]
                     | None => []
                     end)).
Proof.
  intros s HR. pose proof HR as (Hc & Ht & Hr & _).
  unfold setupControls. unfold mbind, M_bind at 1. unfold read at 1.
  rewrite Hc. destruct (controls cfg) as [c|] eqn:Ec.
  - assert (∃ inds, getIndicators s = Normal inds s) as [inds Hinds].
    { unfold getIndicators, querySelectorAll.
      unfold mbind, M_bind, read. rewrite Hc, Ec.
      destruct (negb _); by eexists. }
    unfold mbind, M_bind at 1. rewrite Hinds.
    unfold mbind, M_bind at 1. unfold update_this at 1.
    unfold mbind, M_bind at 1. unfold read at 1.
    cbn [this rootNode with_indicators]. rewrite Hr.
    apply (registering_on cfg tch root i hs ls sigs (Node root) "click" OnClick).
    revert HR. by apply registering_frame.
  - eexists _, _. split; [done|]. by rewrite app_nil_r.
Qed.

Lemma forEach_from_skip {A} k (l : list A) s :
  forEach_from k l (λ _ _, mret tt) s = Normal tt s.
Proof.
  revert k. induction l as [|x l IH]; intros k; [done|].
  cbn [forEach_from]. unfold mbind, M_bind, mret at 1, M_ret at 1. apply IH.
Qed.

Lemma loadImages_run s els :
  elements (this s) = Some els → loadImages s = Normal tt s.
Proof.
  intros Hels. unfold loadImages, this_elements, forEach.
  unfold mbind, M_bind. rewrite Hels. apply forEach_from_skip.
Qed.

(** The state after [setStyles()], when it completes. *)
Lemma setStyles_run s :
  style_ok s →
  ∃ s1 ds,
    setStyles s = Normal tt s1 ∧
    this s1 = with_styleNode (Some (fresh (page s))) (this s) ∧
    classList (page s1)
      = <[rootNode (this s) := toggle "gallery-root" true
                                 (classes (page s) (rootNode (this s)))]>
          (classList (page s)) ∧
    descendants (page s1) = ds ∧
    (NoDup (descendants (page s)) → NoDup ds) ∧
    selectors (page s1) = selectors (page s) ∧
    touch (page s1) = touch (page s) ∧
    listeners (page s1) = listeners (page s).
Proof.
  intros Hok. unfold setStyles, classList_add, classList_toggle, removeChild,
    fresh_identity, appendChild, detach.
  unfold_monad. cbn. destruct Hok as [-> | (n & Hn & Hp)].
  - eexists _, _. split; [done|]. cbn. split_and!; try done.
    intros Hnd. apply NoDup_app. split; [by apply NoDup_filter|].
    split; [|apply NoDup_singleton].
    intros x Hx ->%list_elem_of_singleton.
    apply list_elem_of_filter in Hx. tauto.
  - rewrite Hn. cbn. rewrite Hp. rewrite bool_decide_eq_true_2 by done.
    eexists _, _. split; [done|]. cbn. split_and!; try done.
    intros Hnd. apply NoDup_app. split; [by do 2 apply NoDup_filter|].
    split; [|apply NoDup_singleton].
    intros x Hx ->%list_elem_of_singleton.
    apply list_elem_of_filter in Hx. tauto.
Qed.

(** [layout()] up to the point where the listeners are set up. *)
Lemma layout_run s s1 :
  setStyles s = Normal tt s1 →
  let els := filter (λ n, matches (page s1) n
                            (elementSelector (config (this s1))) = true)
                    (descendants (page s1)) in
  layout s
  = (setupAutoplay ;; setupControls ;; setupKeydown ;;
     on Window "resize" OnResize ;; afterLayout)
      (marked 0 {| this := with_elements (Some els) (this s1);
                   page := page s1 |}).
Proof.
  intros Hst els. unfold layout, beforeLayout.
  unfold mbind, M_bind at 1. unfold mret at 1, M_ret at 1.
  unfold mbind, M_bind at 1. rewrite Hst.
  unfold mbind, M_bind at 1. unfold getElements, querySelectorAll.
  unfold mbind, M_bind at 1. unfold read at 1 2.
  unfold mbind, M_bind at 1. unfold update_this at 1.
  fold els.
  set (s2 := {| this := with_elements (Some els) (this s1); page := page s1 |}).
  unfold mbind, M_bind at 1.
  rewrite (setActiveElement_run s2 els 0 eq_refl).
  unfold mbind, M_bind at 1.
  by rewrite (loadImages_run (marked 0 s2) els eq_refl).
Qed.

Lemma layout_needs_style_ok s s' : layout s = Normal tt s' → style_ok s.
Proof.
  intros Hs'. unfold style_ok.
  destruct (styleNode (this s)) as [n|] eqn:En; [|by left]. right. exists n.
  split; [done|].
  destruct (decide (parentNode (page s) !! n = Some (rootNode (this s))))
    as [|Hne]; [done|]. exfalso. revert Hs'.
  unfold layout, beforeLayout, setStyles, classList_add, classList_toggle,
    removeChild.
  unfold mbind, M_bind, read, throw, update_page, mret, M_ret. cbn.
  rewrite En. cbn. by rewrite bool_decide_eq_false_2.
Qed.

(** X16. [layout()] completes exactly when there is no style node yet or
    the style node is still a child of the root.  It then registers, after
    the listeners that were there, the hover listeners (autoplay enabled, no
    touch events), the click listener (controls configured), the keydown and
    the resize listener, and tracks the same listeners in
    [this.eventHandlers]; it removes none, so that a second [layout()]
    registers them all again.  The stored index is left as it was. *)
Theorem layout_registers_listeners s :
  ((∃ s', layout s = Normal tt s') ↔ style_ok s) ∧
  ∀ s', layout s = Normal tt s' →
    ∃ new, eventHandlers (this s') = eventHandlers (this s) ++ new ∧
           listeners (page s') = listeners (page s) ++ new ∧
           signature <$> new
             = layout_listeners (config (this s)) (touch (page s))
                                (rootNode (this s)) ∧
           _index (this s') = _index (this s).
Proof.
  set (cfg := config (this s)). set (tch := touch (page s)).
  set (root := rootNode (this s)). set (i := _index (this s)).
  set (hs := eventHandlers (this s)). set (ls := listeners (page s)).
  assert (style_ok s →
          ∃ s', layout s = Normal tt s' ∧
                registering cfg tch root i hs ls
                  (layout_listeners cfg tch root) s') as Hrun.
  { intros Hok.
    destruct (setStyles_run s Hok)
      as (s1 & ds & Hst & Hthis & _ & _ & _ & _ & Htouch & Hls).
    rewrite (layout_run s s1 Hst). cbn zeta.
    set (s3 := marked 0 _).
    assert (registering cfg tch root i hs ls [] s3) as HR3.
    { unfold registering, s3. cbn. rewrite Hthis, Htouch, Hls. cbn.
      split_and!; try done. exists []. by rewrite !app_nil_r. }
    destruct (registering_setupAutoplay cfg tch root i hs ls [] _ HR3)
      as ([] & s4 & Hrun4 & HR4).
    unfold mbind, M_bind at 1. rewrite Hrun4.
    destruct (registering_setupControls cfg tch root i hs ls _ _ HR4)
      as ([] & s5 & Hrun5 & HR5).
    unfold mbind, M_bind at 1. rewrite Hrun5.
    destruct (registering_on cfg tch root i hs ls _ Window "keydown" OnKeydown
                _ HR5) as ([] & s6 & Hrun6 & HR6).
    unfold mbind, M_bind at 1. unfold setupKeydown. rewrite Hrun6.
    destruct (registering_on cfg tch root i hs ls _ Window "resize" OnResize
                _ HR6) as ([] & s7 & Hrun7 & HR7).
    unfold mbind, M_bind at 1. rewrite Hrun7.
    exists s7. split; [done|].
    unfold layout_listeners. by rewrite <- !app_assoc in HR7. }
  split.
  - split; [|intros Hok; destruct (Hrun Hok) as (s' & ? & _); by exists s'].
    intros [s' Hs']. by apply (layout_needs_style_ok s s').
  - intros s' Hs'.
    destruct (Hrun (layout_needs_style_ok s s' Hs')) as (s'' & Hs'' & HR).
    rewrite Hs' in Hs''. injection Hs'' as <-.
    destruct HR as (_ & _ & _ & Hi & new & Hh & Hl & Hsig).
    by exists new.
Qed.

Lemma layout_registers_listeners_witness :
  let g := gallery 3 (gallery_config true None true) in
  ∃ s', layout g = Normal tt s' ∧
        length (eventHandlers (this g)) = 5%nat ∧
        length (eventHandlers (this s')) = 10%nat ∧
        length (listeners (page s')) = 10%nat.
Proof.
  intros g.
  destruct (layout_registers_listeners g) as [[_ Hcompletes] Hreg].
  destruct Hcompletes as [s' Hs'].
  { right. apply (layout_styled (fresh_gallery 3 (gallery_config true None true))).
    vm_compute. reflexivity. }
  exists s'. split; [exact Hs'|].
  destruct (Hreg s' Hs') as (new & Hh & Hl & Hsig & _).
  assert (Hnew : length new = 5%nat).
  { rewrite <- (length_fmap signature), Hsig. vm_compute. reflexivity. }
  assert (Hg : length (eventHandlers (this g)) = 5%nat)
    by (vm_compute; reflexivity).
  assert (Hgl : length (listeners (page g)) = 5%nat)
    by (vm_compute; reflexivity).
  split; [exact Hg|].
  rewrite Hh, Hl, !length_app, Hnew, Hg, Hgl. split; reflexivity.
Defined.

(** *** The slides after [layout()] *)

Lemma settled_frame cl els ds sel s s' :
  classList (page s') = classList (page s) →
  elements (this s') = elements (this s) →
  descendants (page s') = descendants (page s) →
  selectors (page s') = selectors (page s) →
  settled cl els ds sel s → settled cl els ds sel s'.
Proof. unfold settled. by intros -> -> -> ->. Qed.

Lemma settled_update_this cl els ds sel f :
  (∀ o, elements (f o) = elements o) →
  preserves (settled cl els ds sel) (update_this f).
Proof. intros Hf s. apply settled_frame; cbn; by rewrite ?Hf. Qed.

Lemma settled_update_page cl els ds sel f :
  (∀ p, classList (f p) = classList p) →
  (∀ p, descendants (f p) = descendants p) →
  (∀ p, selectors (f p) = selectors p) →
  preserves (settled cl els ds sel) (update_page f).
Proof.
  intros H1 H2 H3 s. apply settled_frame; cbn; by rewrite ?H1, ?H2, ?H3.
Qed.

Lemma settled_setTimeout cl els ds sel cb ms :
  preserves (settled cl els ds sel) (setTimeout cb ms).
Proof. intros s. by apply settled_frame. Qed.
#[global] Hint Resolve settled_setTimeout : preserves.

Ltac settled_go :=
  repeat first
    [ solve [eauto with preserves]
    | apply preserves_bind; [| intros ?]
    | apply preserves_ret
    | apply preserves_read
    | apply preserves_throw
    | solve [apply settled_update_this; intros []; reflexivity]
    | solve [apply settled_update_page; intros []; reflexivity]
    | match goal with
      | |- preserves _ (if ?b then _ else _) => destruct b
      | |- preserves _ (match ?x with _ => _ end) => destruct x
      end ].

Lemma settled_layout_listeners cl els ds sel :
  preserves (settled cl els ds sel)
    (setupAutoplay ;; setupControls ;; setupKeydown ;;
     on Window "resize" OnResize ;; afterLayout).
Proof.
  unfold afterLayout, setupAutoplay, startAutoplay, setupControls,
    getIndicators, querySelectorAll, setupKeydown, on, fresh_identity,
    addEventListener.
  settled_go.
Qed.

(** X17. After the first [layout()] (no indicators stored yet) on a page
    whose nodes are listed once, the slides are the nodes below the root that
    match [elementSelector], in document order; the first slide and no other
    carries the active marker; and apart from the slides and the root, which
    gets the class [gallery-root], no class list has changed: the indicators
    are not marked by [layout()]. *)
Theorem layout_marks_first_slide s s' :
  layout s = Normal tt s' →
  indicators (this s) = None →
  NoDup (descendants (page s)) →
  ∃ els,
    elements (this s') = Some els ∧
    els = filter (λ n, matches (page s') n
                         (elementSelector (config (this s))) = true)
                 (descendants (page s')) ∧
    NoDup els ∧
    (∀ k n, els !! k = Some n → active s' n = true ↔ k = 0%nat) ∧
    (∀ n, n ∉ els → n ≠ rootNode (this s) →
          classes (page s') n = classes (page s) n).
Proof.
  intros Hs' Hinds Hnd.
  destruct (setStyles_run s (layout_needs_style_ok s s' Hs'))
    as (s1 & ds & Hst & Hthis & Hcl & Hds & Hndds & Hsel & _).
  rewrite (layout_run s s1 Hst) in Hs'. cbn zeta in Hs'.
  set (els := filter _ _) in Hs'.
  set (s2 := {| this := with_elements (Some els) (this s1); page := page s1 |})
    in Hs'.
  set (cl := mark_from 0 els 0 (classList (page s1))).
  assert (settled cl els ds (selectors (page s)) (marked 0 s2)) as Hsettled.
  { unfold settled, marked, s2. cbn. rewrite Hthis. cbn. rewrite Hinds.
    split_and!; done. }
  pose proof (settled_layout_listeners _ _ _ _ _ Hsettled) as Hfinal.
  rewrite Hs' in Hfinal. cbn [final] in Hfinal.
  destruct Hfinal as (Hcl' & Hels' & Hds' & Hsel').
  assert (NoDup els) as Hndels.
  { unfold els. apply NoDup_filter. rewrite Hds. by apply Hndds. }
  exists els. split; [done|]. split.
  { unfold els, matches. rewrite Hds', Hsel', Hds, Hsel, Hthis. done. }
  split; [done|]. split.
  - intros k n Hk. rewrite active_tokens, Hcl'. unfold cl.
    rewrite (mark_from_at 0 els 0 _ k n Hndels Hk), toggle_elem.
    rewrite Z.eqb_eq. cbn [Nat.add]. lia.
  - intros n Hn Hroot. unfold classes. rewrite Hcl'. unfold cl.
    rewrite mark_from_other by done. rewrite Hcl. unfold tokens.
    by rewrite lookup_insert_ne.
Qed.

Lemma layout_marks_first_slide_witness :
  let f := fresh_gallery 3 (gallery_config true None true) in
  ∃ s', layout f = Normal tt s' ∧
        elements (this s') = Some [1; 2; 3]%nat ∧
        active s' 1%nat = true ∧ active s' 2%nat = false ∧
        active s' 101%nat = false.
Proof.
  intros f.
  assert (Hrun : layout f = Normal tt (gallery 3 (gallery_config true None true)))
    by (vm_compute; reflexivity).
  destruct (layout_marks_first_slide f _ Hrun)
    as (els & Hels & _ & _ & Hact & _).
  - reflexivity.
  - apply (bool_decide_unpack _). vm_compute. reflexivity.
  - eexists. split; [exact Hrun|].
    assert (Hels' : els = [1; 2; 3]%nat).
    { assert (Some els = Some [1; 2; 3]%nat) as [= ->]; [|done].
      rewrite <- Hels. vm_compute. reflexivity. }
    subst els. split; [vm_compute; reflexivity|]. split.
    + apply (Hact 0%nat 1%nat); reflexivity.
    + split; vm_compute; reflexivity.
Defined.

(** ** The style sheet of the gallery *)

Lemma append_assoc (a b c : string) : (a +:+ b) +:+ c = a +:+ (b +:+ c).
Proof.
  induction a as [|x a IH]; [reflexivity|].
  change (String x ((a +:+ b) +:+ c) = String x (a +:+ (b +:+ c))).
  by f_equal.
Qed.

Lemma append_empty_r (a : string) : a +:+ EmptyString = a.
Proof.
  induction a as [|x a IH]; [reflexivity|].
  change (String x (a +:+ EmptyString) = String x a). by f_equal.
Qed.

Lemma Object_keys_plain {V} (o : list (string * V)) :
  Forall (λ k, array_index k = None) o.*1 → Object_keys o = o.*1.
Proof.
  unfold Object_keys. intros H.
  induction H as [|k l Hk H IH]; [reflexivity|].
  cbn [omap list_omap]. rewrite Hk. cbn [fmap option_fmap option_map].
  rewrite filter_cons_True by exact Hk.
  cbn [app] in *.
  destruct (omap _ l) as [|? ?] eqn:E.
  - cbn in *. by rewrite IH.
  - exfalso. clear IH Hk.
    induction H as [|k' l' Hk' H' IH']; [discriminate|].
    cbn [omap list_omap] in E. rewrite Hk' in E. cbn in E. auto.
Qed.

Lemma obj_get_NoDup {V} (o : list (string * V)) k v :
  NoDup o.*1 → (k, v) ∈ o → obj_get o k = Some v.
Proof.
  induction o as [|[k' v'] o IH]; intros Hnd Hin.
  - by apply elem_of_nil in Hin.
  - cbn in *. apply NoDup_cons in Hnd as [Hk' Hnd].
    apply elem_of_cons in Hin as [[= -> ->]|Hin].
    + by rewrite decide_True.
    + rewrite decide_False; [by apply IH|].
      intros ->. apply Hk'. change k with (k, v).1. by apply list_elem_of_fmap_2.
Qed.

Lemma declarations_fold (block l : list (string * string)) acc :
  (∀ d, d ∈ l → obj_get block d.1 = Some d.2) →
  foldl (λ acc prop,
           acc +:+ (prop +:+ ":"
                    +:+ default "undefined" (obj_get block prop) +:+ ";"))
        acc l.*1
  = acc +:+ foldr String.append EmptyString (declaration_text <$> l).
Proof.
  revert acc. induction l as [|d l IH]; intros acc H; cbn [fmap list_fmap foldl foldr].
  - by rewrite append_empty_r.
  - rewrite IH by (intros d' Hd'; apply H; by right).
    rewrite (H d) by left.
    change (default "undefined" (Some d.2)) with d.2.
    by rewrite append_assoc.
Qed.

Lemma rules_fold (style l : list (string * list (string * string))) acc :
  (∀ r, r ∈ l → obj_get style r.1 = Some r.2 ∧ plain_keys r.2) →
  foldl (λ acc sel,
           let acc := acc +:+ (sel +:+ "{") in
           let block := default [] (obj_get style sel) in
           let acc :=
             foldl (λ acc prop,
                      acc +:+ (prop +:+ ":"
                               +:+ default "undefined" (obj_get block prop)
                               +:+ ";"))
                   acc (Object_keys block) in
           acc +:+ "}")
        acc l.*1
  = acc +:+ foldr String.append EmptyString (rule_text <$> l).
Proof.
  revert acc. induction l as [|r l IH]; intros acc H; cbn [fmap list_fmap foldl foldr].
  - by rewrite append_empty_r.
  - cbn zeta. rewrite IH by (intros r' Hr'; apply H; by right).
    destruct (H r) as [Hget [Hnd Hplain]]; [left|].
    rewrite Hget. change (default [] (Some r.2)) with r.2.
    rewrite (Object_keys_plain _ Hplain).
    rewrite declarations_fold
      by (intros d Hd; destruct d as [p v]; by apply obj_get_NoDup).
    unfold rule_text. by rewrite !append_assoc.
Qed.

(** X18. createStyleNode prints the rules of the object one after the
    other, in the order in which its selectors were created, each as
    [selector{property:value;...}] with the declarations in their order of
    creation, provided that no selector and no property name is an array
    index (such keys are enumerated first, in numeric order). *)
Theorem createStyleNode_prints_rules_in_order
    (style : list (string * list (string * string))) :
  plain_keys style →
  Forall (λ r, plain_keys r.2) style →
  createStyleNode style
  = foldr String.append EmptyString (rule_text <$> style).
Proof.
  intros [Hnd Hplain] Hblocks. unfold createStyleNode.
  rewrite (Object_keys_plain _ Hplain).
  rewrite rules_fold; [reflexivity|].
  intros [sel block] Hr. split.
  - by apply obj_get_NoDup.
  - by apply (proj1 (Forall_forall _ _) Hblocks (sel, block)).
Qed.

Lemma createStyleNode_prints_rules_in_order_witness :
  createStyleNode
    [(".a", [("color", "red"); ("top", "0")]); (".b", [])]
  = ".a{color:red;top:0;}.b{}".
Proof.
  rewrite createStyleNode_prints_rules_in_order.
  - reflexivity.
  - split; apply (bool_decide_unpack _); vm_compute; exact I.
  - apply (bool_decide_unpack _); vm_compute; exact I.
Defined.

Lemma append_length (a b : string) :
  String.length (a +:+ b) = (String.length a + String.length b)%nat.
Proof.
  induction a as [|x a IH]; [reflexivity|].
  change (S (String.length (a +:+ b))
          = S (String.length a + String.length b)).
  by f_equal.
Qed.

Lemma append_longer (a b : string) : b ≠ EmptyString → a +:+ b ≠ a.
Proof.
  intros Hb E. apply (f_equal String.length) in E.
  rewrite append_length in E. destruct b; [done|]. cbn in E. lia.
Qed.

Lemma digits_value_append (a : string) c (b : string) acc :
  Ascii.is_nat c = None → digits_value (a +:+ String c b) acc = None.
Proof.
  intros Hc. revert acc. induction a as [|x a IH]; intros acc.
  - change (digits_value (String c b) acc = None).
    cbn [digits_value]. by rewrite Hc.
  - change (digits_value (String x (a +:+ String c b)) acc = None).
    cbn [digits_value]. destruct (Ascii.is_nat x); [apply IH | reflexivity].
Qed.

Lemma array_index_digits (k : string) :
  digits_value k 0 = None → array_index k = None.
Proof.
  intros H. unfold array_index. rewrite H.
  destruct k as [|a [|b k]]; try reflexivity. by destruct (decide _).
Qed.

Lemma styleText_distinct (sel : string) :
  sel ≠ ".gallery-root" →
  styleText sel
  = [(".gallery-root", [("position", "relative")]);
     (sel, [("position", "absolute"); ("top", "0"); ("left", "0");
            ("width", "100%"); ("height", "100%")]);
     (sel +:+ ":not(.active)", [("opacity", "0"); ("z-index", "0")]);
     (sel +:+ ".active", [("opacity", "1"); ("z-index", "1")])]
  ∧ NoDup [".gallery-root"; sel; sel +:+ ":not(.active)"; sel +:+ ".active"].
Proof.
  intros Hroot.
  assert (Hnot : sel +:+ ":not(.active)" ≠ ".gallery-root").
  { intros E. pose proof (f_equal String.length E) as Hlen.
    rewrite append_length in Hlen. cbn in Hlen.
    destruct sel; [discriminate E | cbn in Hlen; lia]. }
  assert (Hact : sel +:+ ".active" ≠ ".gallery-root").
  { intros E. pose proof (f_equal String.length E) as Hlen.
    rewrite append_length in Hlen.
    do 7 (destruct sel as [|? sel]; [try discriminate E|]; cbn in Hlen);
      try lia. }
  assert (Hnot' : sel +:+ ":not(.active)" ≠ sel) by by apply append_longer.
  assert (Hact' : sel +:+ ".active" ≠ sel) by by apply append_longer.
  assert (Hboth : sel +:+ ".active" ≠ sel +:+ ":not(.active)").
  { intros E. by apply String.app_inj in E. }
  split.
  - unfold styleText. cbn [obj_set].
    rewrite (decide_False (P := ".gallery-root" = sel)) by done.
    cbn [obj_set].
    rewrite (decide_False (P := ".gallery-root" = sel +:+ ":not(.active)"))
      by done.
    rewrite (decide_False (P := sel = sel +:+ ":not(.active)")) by done.
    cbn [obj_set].
    rewrite (decide_False (P := ".gallery-root" = sel +:+ ".active")) by done.
    rewrite (decide_False (P := sel = sel +:+ ".active")) by done.
    rewrite (decide_False (P := sel +:+ ":not(.active)" = sel +:+ ".active"))
      by done.
    reflexivity.
  - repeat (apply NoDup_cons; split);
      [| | | by apply not_elem_of_nil | apply NoDup_nil_2];
      intros H; repeat (apply elem_of_cons in H as [H|H]);
      try (by apply elem_of_nil in H); by (done || symmetry in H).
Qed.

(** X19. The style sheet that setStyles() gives to createStyleNode reads:
    the root is positioned relatively, every slide fills it, a slide that
    is not active is transparent and below, the active slide is opaque and
    above. This holds for every element selector other than
    [.gallery-root] itself that is not an array index. *)
Theorem gallery_style_sheet (sel : string) :
  array_index sel = None →
  sel ≠ ".gallery-root" →
  createStyleNode (styleText sel)
  = ".gallery-root{position:relative;}"
    +:+ sel +:+ "{position:absolute;top:0;left:0;width:100%;height:100%;}"
    +:+ sel +:+ ":not(.active){opacity:0;z-index:0;}"
    +:+ sel +:+ ".active{opacity:1;z-index:1;}".
Proof.
  intros Hidx Hroot.
  destruct (styleText_distinct sel Hroot) as [-> Hnd].
  assert (Hblocks :
    ∀ l, l ∈ [[("position", "relative")];
              [("position", "absolute"); ("top", "0"); ("left", "0");
               ("width", "100%"); ("height", "100%")];
              [("opacity", "0"); ("z-index", "0")];
              [("opacity", "1"); ("z-index", "1")]] →
         plain_keys (l : list (string * string))).
  { apply Forall_forall. repeat apply Forall_cons_2; [| | | |apply Forall_nil_2];
      split; apply (bool_decide_unpack _); vm_compute; exact I. }
  unfold createStyleNode. rewrite Object_keys_plain.
  - rewrite rules_fold.
    + unfold rule_text, declaration_text.
      cbn [fmap list_fmap foldr fst snd].
      rewrite !append_assoc, ?append_empty_r. reflexivity.
    + intros [k block] Hr. cbn [fst snd]. split.
      * apply obj_get_NoDup; [exact Hnd | exact Hr].
      * apply Hblocks.
        repeat (apply elem_of_cons in Hr as [[= _ <-]|Hr];
                [repeat constructor|]).
        by apply elem_of_nil in Hr.
  - cbn [fmap list_fmap fst]. repeat apply Forall_cons_2;
      [reflexivity | exact Hidx | | | apply Forall_nil_2];
      apply array_index_digits; by apply digits_value_append.
Qed.

Lemma gallery_style_sheet_witness :
  createStyleNode (styleText ".slide")
  = ".gallery-root{position:relative;}.slide{position:absolute;top:0;left:0;width:100%;height:100%;}.slide:not(.active){opacity:0;z-index:0;}.slide.active{opacity:1;z-index:1;}".
Proof.
  rewrite (gallery_style_sheet ".slide"); [reflexivity | reflexivity | done].
Defined.

(** ** The timers across [layout()] *)

Lemma same_timers_frame r s s' :
  pending (page s') = pending (page s) →
  next_timer (page s') = next_timer (page s) →
  clock (page s') = clock (page s) →
  autoplayTimeout (this s') = autoplayTimeout (this s) →
  transitionTimeout (this s') = transitionTimeout (this s) →
  isTransitioning (this s') = isTransitioning (this s) →
  config (this s') = config (this s) →
  same_timers r s → same_timers r s'.
Proof. unfold same_timers. by intros -> -> -> -> -> -> ->. Qed.

Lemma same_timers_update_this r f :
  (∀ o, autoplayTimeout (f o) = autoplayTimeout o) →
  (∀ o, transitionTimeout (f o) = transitionTimeout o) →
  (∀ o, isTransitioning (f o) = isTransitioning o) →
  (∀ o, config (f o) = config o) →
  preserves (same_timers r) (update_this f).
Proof.
  intros H1 H2 H3 H4 s.
  apply same_timers_frame; cbn; by rewrite ?H1, ?H2, ?H3, ?H4.
Qed.

Lemma same_timers_update_page r f :
  (∀ p, pending (f p) = pending p) →
  (∀ p, next_timer (f p) = next_timer p) →
  (∀ p, clock (f p) = clock p) →
  preserves (same_timers r) (update_page f).
Proof.
  intros H1 H2 H3 s.
  apply same_timers_frame; cbn; by rewrite ?H1, ?H2, ?H3.
Qed.

Ltac same_timers_go :=
  repeat first
    [ apply preserves_bind; [| intros ?]
    | apply preserves_ret
    | apply preserves_read
    | apply preserves_throw
    | solve [apply same_timers_update_this; intros []; reflexivity]
    | solve [apply same_timers_update_page; intros []; reflexivity]
    | match goal with
      | |- preserves _ (if ?b then _ else _) => destruct b
      | |- preserves _ (match ?x with _ => _ end) => destruct x
      end ].

Lemma same_timers_on r target ev cb :
  preserves (same_timers r) (on target ev cb).
Proof. unfold on, fresh_identity, addEventListener. same_timers_go. Qed.

Lemma same_timers_setStyles r : preserves (same_timers r) setStyles.
Proof.
  unfold setStyles, classList_add, classList_toggle, removeChild,
    fresh_identity, appendChild.
  same_timers_go.
Qed.

Lemma same_timers_layout_rest r :
  preserves (same_timers r)
    (setupControls ;; setupKeydown ;; on Window "resize" OnResize ;;
     afterLayout).
Proof.
  unfold afterLayout, setupControls, getIndicators, querySelectorAll,
    setupKeydown, on, fresh_identity, addEventListener.
  same_timers_go.
Qed.

Lemma same_timers_started r s :
  same_timers r s → same_timers (started r) (started s).
Proof.
  intros (Hp & Hn & Hc & Ha & Ht & Hl & Hcfg). unfold started.
  rewrite Hp, Hn, Hc, Ha, Hcfg.
  destruct (_ || _); [done|]. by split_and!.
Qed.

Lemma same_timers_setupAutoplay r s :
  same_timers r s → same_timers (started r) (final (setupAutoplay s)).
Proof.
  intros Hs. unfold setupAutoplay. unfold mbind, M_bind at 1. unfold read at 1.
  destruct (autoplay_enabled (config (this s))) eqn:Hen; cbn [negb].
  - unfold mbind, M_bind at 1. rewrite startAutoplay_run.
    apply same_timers_started in Hs. revert Hs.
    generalize (started s). generalize (started r). intros r' s'.
    apply (preserves_bind (same_timers r')); [apply preserves_read|].
    intros []; [apply preserves_ret|].
    apply preserves_bind; [apply preserves_read|]. intros root.
    apply preserves_bind; [apply same_timers_on|]. intros _.
    apply same_timers_on.
  - unfold started. destruct Hs as (Hp & Hn & Hc & Ha & Ht & Hl & Hcfg).
    rewrite <- Hcfg, Hen. by split_and!.
Qed.

Lemma layout_same_timers s s' :
  layout s = Normal tt s' → same_timers (started s) s'.
Proof.
  intros Hs'.
  pose proof (layout_needs_style_ok s s' Hs') as Hok.
  destruct (setStyles_run s Hok) as (s1 & ds & Hst & _).
  pose proof (same_timers_setStyles s s) as H1.
  rewrite Hst in H1. cbn [final] in H1.
  rewrite (layout_run s s1 Hst) in Hs'. cbn zeta in Hs'.
  set (m := marked 0 _) in Hs'.
  assert (same_timers s m) as Hm by (by apply H1).
  pose proof (same_timers_setupAutoplay s m Hm) as H2.
  unfold mbind, M_bind at 1 in Hs'.
  destruct (setupAutoplay m) as [[] s2|e s2]; [|done]. cbn [final] in H2.
  pose proof (same_timers_layout_rest (started s) s2 H2) as H3.
  change ((setupControls ;; setupKeydown ;; on Window "resize" OnResize ;;
           afterLayout) s2 = Normal tt s') in Hs'.
  rewrite Hs' in H3. exact H3.
Qed.

(** X20. As far as timers are concerned, [layout()] is [startAutoplay()]:
    it schedules one autoplay timer when autoplay is enabled and the object
    holds no autoplay timer, and nothing otherwise, so that a second
    [layout()] does not stack autoplay timers; it cancels no timer and
    leaves the transition lock and its timer alone. *)
Theorem layout_starts_autoplay_once s s' :
  layout s = Normal tt s' →
  let cfg := config (this s) in
  let idle := negb (truthy_handle (autoplayTimeout (this s))) in
  pending (page s')
    = pending (page s)
      ++ (if autoplay_enabled cfg && idle
          then [ {| timer_id := next_timer (page s);
                    callback := AutoplayAdvance;
                    due := clock (page s)
                           + Z.max 0 (autoplay_delay cfg) |} ]
          else []) ∧
  autoplayTimeout (this s')
    = (if autoplay_enabled cfg && idle
       then HTimer (next_timer (page s))
       else autoplayTimeout (this s)) ∧
  transitionTimeout (this s') = transitionTimeout (this s) ∧
  isTransitioning (this s') = isTransitioning (this s).
Proof.
  intros Hs' cfg idle.
  destruct (layout_same_timers s s' Hs') as (Hp & _ & _ & Ha & Ht & Hl & _).
  rewrite Hp, Ha, Ht, Hl. unfold started. fold cfg.
  unfold idle. destruct (autoplay_enabled cfg), (truthy_handle _);
    cbn; by rewrite ?app_nil_r.
Qed.

Lemma layout_starts_autoplay_once_witness :
  let g := gallery 3 (gallery_config true None true) in
  length (pending (page g)) = 1%nat ∧
  ∃ s', layout g = Normal tt s' ∧ pending (page s') = pending (page g).
Proof.
  intros g. split; [vm_compute; reflexivity|].
  assert (∃ s', layout g = Normal tt s') as [s' Hs'].
  { eexists. vm_compute. reflexivity. }
  exists s'. split; [exact Hs'|].
  pose proof (layout_starts_autoplay_once g s' Hs') as H. cbn zeta in H.
  destruct H as (Hp & _).
  assert (autoplay_enabled (config (this g))
          && negb (truthy_handle (autoplayTimeout (this g))) = false) as Hidle
    by (vm_compute; reflexivity).
  rewrite Hidle in Hp. by rewrite app_nil_r in Hp.
Defined.

(** ** Use before [layout()] *)

(** X21. Before the first [layout()] the slides are not known: an
    assignment to the index throws a TypeError and changes nothing.  An
    autoplay timer started that early throws in its callback when it fires;
    the object then keeps the handle of the timer that has fired, so that
    [startAutoplay()] does nothing and a later [layout()] schedules no
    autoplay timer. *)
Theorem autoplay_before_layout_stalls s t :
  timer_inv s → elements (this s) = None →
  t ∈ pending (page s) → callback t = AutoplayAdvance →
  due t ≤ clock (page s) →
  (∀ R, set_index R s = Throw (TypeError "this.elements is undefined") s) ∧
  ∃ s1,
    fire (timer_id t) s
      = Some (Throw (TypeError "this.elements is undefined") s1) ∧
    pending_of AutoplayAdvance s1 = [] ∧
    autoplayTimeout (this s1) = HTimer (timer_id t) ∧
    startAutoplay s1 = Normal tt s1 ∧
    ∀ s2, layout s1 = Normal tt s2 → pending (page s2) = pending (page s1).
Proof.
  intros Hinv Hels Ht Hcb Hdue. split.
  { intros R. unfold set_index, this_elements. unfold mbind, M_bind.
    by rewrite Hels. }
  destruct (autoplay_timer_fires s t Hinv Ht Hcb Hdue)
    as (c & -> & Hthis & Hclock & Hinvc & Hnone & Hh).
  assert (started c = c) as Hidle.
  { unfold started. rewrite Hh. cbn. by rewrite orb_true_r. }
  exists c. split.
  { unfold index_increment, get_index, set_index, this_elements.
    unfold mbind, M_bind, read. by rewrite Hthis, Hels. }
  split; [done|]. split; [done|]. split.
  - by rewrite startAutoplay_run, Hidle.
  - intros s2 Hs2. destruct (layout_same_timers c s2 Hs2) as (Hp & _).
    by rewrite Hp, Hidle.
Qed.

Lemma autoplay_before_layout_stalls_witness :
  let s := elapse 1000 (final (startAutoplay
                                 (fresh_gallery 3 (gallery_config true None true)))) in
  ∃ s1 s2,
    fire 1 s = Some (Throw (TypeError "this.elements is undefined") s1) ∧
    layout s1 = Normal tt s2 ∧
    autoplay_enabled (config (this s2)) = true ∧
    pending (page s2) = [].
Proof.
  intros s.
  destruct (autoplay_before_layout_stalls s
              {| timer_id := 1; callback := AutoplayAdvance; due := 1000 |})
    as (_ & s1 & Hfire & Hnone & _ & _ & Hlayout).
  - apply timers_elapse, timers_startAutoplay, reachable_timer_inv,
      reachable_new. reflexivity.
  - vm_compute; reflexivity.
  - vm_compute. apply list_elem_of_singleton. reflexivity.
  - reflexivity.
  - vm_compute. discriminate.
  - cbn [timer_id] in Hfire. pose proof Hfire as Hs1.
    vm_compute in Hs1. injection Hs1 as Hs1. symmetry in Hs1.
    assert (∃ s2, layout s1 = Normal tt s2) as [s2 Hs2].
    { rewrite Hs1. eexists. vm_compute. reflexivity. }
    exists s1, s2. split; [exact Hfire|]. split; [exact Hs2|]. split.
    + pose proof Hs2 as Hcfg. rewrite Hs1 in Hcfg. vm_compute in Hcfg.
      injection Hcfg as <-. reflexivity.
    + rewrite (Hlayout s2 Hs2). rewrite Hs1. reflexivity.
Defined.

(** ** Invariants of every reachable state *)

(** X22. In every state that a controller can reach from its construction
    (in a page with no pending timer) by calls of its methods, by events and
    by the passing of time, at most one autoplay timer is pending, and a
    pending autoplay timer is the one held in [this.autoplayTimeout]: none
    is ever leaked. *)
Theorem autoplay_timer_never_leaks s :
  reachable s →
  (length (pending_of AutoplayAdvance s) ≤ 1)%nat ∧
  ∀ t, t ∈ pending (page s) → callback t = AutoplayAdvance →
       autoplayTimeout (this s) = HTimer (timer_id t).
Proof.
  intros Hr. destruct (reachable_timer_inv s Hr) as [Hal Htr]. split.
  - by apply tracked_at_most_one.
  - intros t Ht Hcb. unfold autoplay_tracked in Htr.
    rewrite Forall_forall in Htr. by apply Htr.
Qed.

Lemma autoplay_timer_never_leaks_witness :
  let g := gallery 3 (gallery_config true None true) in
  let s := perform Mouseout (perform (CallSetIndex 2) (perform CallLayout g)) in
  (length (pending_of AutoplayAdvance s) ≤ 1)%nat.
Proof.
  intros g s.
  apply (autoplay_timer_never_leaks s
           (reachable_step _ Mouseout
              (reachable_step _ (CallSetIndex 2)
                 (reachable_step _ CallLayout
                    (gallery_reachable 3 (gallery_config true None true)))))).
Defined.
